(** * SortMeRNA: the per-read driver of [paralleltraversal.cpp]

    A shallow embedding of [format_forward], [format_rev],
    [parallelTraversalJob] and [paralleltraversal]
    (src/sortmerna/paralleltraversal.cpp), the properties of the seed-search
    driver that the specification states about them, and further properties
    of the four functions.

    Conventions.
    - Unsigned 32-bit locals ([windowshift], [numwin], [win_index], [pass_n],
      [keyf], [keyr], ...) are integers in [Z] with the wrap-around written
      out by [wrap32]; [size_t] arithmetic wraps by [wrap64].
    - [std::vector] and array accesses are list lookups; an access beyond the
      end is undefined behaviour in C++ and stops the run with [UB].  The
      bit vectors [vbitwindowsf] and [vbitwindowsr], whose contents only the
      collaborators read and write, are kept by their size: taking the
      address of an element that is not there stops the run likewise.
    - The collaborators that live in other translation units ([init_win_f],
      [init_win_r], [traversetrie_align], [compute_lis_alignment], the table
      [nt_table]) are parameters of the development.
    - The driver runs in a small state-and-halt monad.  Its state holds the
      objects the C++ function receives by reference, the mutable locals of
      the search loop, and a trace of the actions the driver performs
      (warning written, window searched, trie traversed, hit appended,
      chainer called, stride read). *)

From stdpp Require Import list numbers.
From Stdlib Require Import ZArith String Lia.

Open Scope Z_scope.

(** ** Machine integers *)

Definition wrap32 (z : Z) : Z := z mod 2 ^ 32.
Definition wrap64 (z : Z) : Z := z mod 2 ^ 64.

(** [v[i]] on a vector or array: [None] beyond the end (and for a negative
    index, which a signed [char] used as an index can produce). *)
Definition zlookup {A : Type} (v : list A) (i : Z) : option A :=
  if i <? 0 then None else v !! Z.to_nat i.

(** ** Halting *)

Inductive vec_name : Type :=
| V_lnwin | V_partialwin | V_numbvs | V_skiplengths | V_strides
| V_isequence | V_read_index_hits | V_lookup_tbl | V_nt_table | V_read_seq
| V_vbitwindowsf | V_vbitwindowsr.

Inductive fault : Type :=
| DivisionByZero
| OutOfRange (v : vec_name) (i : Z).

Inductive halt : Type :=
| UB (f : fault)
| OutOfFuel.

Inductive res (A : Type) : Type :=
| Val (a : A)
| Halt (h : halt).
Arguments Val {A} a.
Arguments Halt {A} h.

(** ** [format_forward] (lines 91-109) *)

Section Format.

(** [nt_table] is declared in a header that is not part of this file. *)
Variable nt_table : list Z.

Definition nl : Z := 10.   (* '\n' *)
Definition cr : Z := 13.   (* '\r' *)
Definition nul : Z := 0.   (* '\0' *)
Definition gt : Z := 62.   (* '>'  *)

(** The condition of line 98, as written: [c != '\n' || c != '\r']. *)
Definition fasta_guard (c : Z) : bool := negb (c =? nl) || negb (c =? cr).

Definition translate (c : Z) : res Z :=
  match zlookup nt_table c with
  | Some t => Val t
  | None => Halt (UB (OutOfRange V_nt_table c))
  end.

(** The FASTA loop of lines 96-101.  [read_seq] is the memory from the
    pointer onwards, [myread] the bytes written so far; walking off the
    memory is undefined behaviour. *)
Fixpoint format_fasta (read_seq : list Z) (myread : list Z) : res (list Z) :=
  match read_seq with
  | [] => Halt (UB (OutOfRange V_read_seq 0))
  | c :: rest =>
      if negb (c =? nul) && negb (c =? gt) then
        if fasta_guard c then
          match translate c with
          | Val t => format_fasta rest (myread ++ [t])
          | Halt h => Halt h
          end
        else format_fasta rest myread
      else Val (myread ++ [nl])
  end.

(** The FASTQ loop of lines 106-107. *)
Fixpoint format_fastq (read_seq : list Z) (myread : list Z) : res (list Z) :=
  match read_seq with
  | [] => Halt (UB (OutOfRange V_read_seq 0))
  | c :: rest =>
      if negb (c =? nl) && negb (c =? cr) then
        match translate c with
        | Val t => format_fastq rest (myread ++ [t])
        | Halt h => Halt h
        end
      else Val (myread ++ [nl])
  end.

Definition format_forward (read_seq : list Z) (filesig : Z) : res (list Z) :=
  if filesig =? gt then format_fasta read_seq [] else format_fastq read_seq [].

(** A byte that does not index [nt_table]. *)
Definition untranslatable (c : Z) : bool :=
  match zlookup nt_table c with
  | Some _ => false
  | None => true
  end.

End Format.

(** ** [format_rev] (lines 115-145) *)

(** Line 85. *)
Definition complement : list Z := [3; 2; 1; 0].

(** Lines 117-126: A, C, G, T and U, in either case, are mapped to the code
    of the complementary nucleotide, every other byte below 128 to 4. *)
Definition rc_table : list Z :=
  [ 4; 4; 4; 4; 4; 4; 4; 4; 4; 4; 4; 4; 4; 4; 4; 4;
    4; 4; 4; 4; 4; 4; 4; 4; 4; 4; 4; 4; 4; 4; 4; 4;
    4; 4; 4; 4; 4; 4; 4; 4; 4; 4; 4; 4; 4; 4; 4; 4;
    4; 4; 4; 4; 4; 4; 4; 4; 4; 4; 4; 4; 4; 4; 4; 4;
    4; 3; 4; 2; 4; 4; 4; 1; 4; 4; 4; 4; 4; 4; 4; 4;
    4; 4; 4; 4; 0; 0; 4; 4; 4; 4; 4; 4; 4; 4; 4; 4;
    4; 3; 4; 2; 4; 4; 4; 1; 4; 4; 4; 4; 4; 4; 4; 4;
    4; 4; 4; 4; 0; 0; 4; 4; 4; 4; 4; 4; 4; 4; 4; 4 ].

(** The undefined behaviour [format_rev] can run into: [rc_table] indexed
    outside 0..127, or the read buffer accessed at an offset outside it. *)
Inductive rev_fault : Type :=
| Rc_table_index (c : Z)
| Read_index (i : Z).

Definition rc_lookup (c : Z) : rev_fault + Z :=
  match zlookup rc_table c with
  | Some t => inr t
  | None => inl (Rc_table_index c)
  end.

(** The FASTA loop of lines 131-137.  [mem] is the buffer both pointers
    point into, [start_read] and [end_read] are their offsets in it, and
    [myread] the bytes written so far. *)
Fixpoint rev_fasta (mem : list Z) (start_read end_read : nat) (myread : list Z)
  : rev_fault + list Z :=
  if (end_read =? start_read)%nat then
    match mem !! end_read with
    | None => inl (Read_index (Z.of_nat end_read))
    | Some c =>
        match rc_lookup c with
        | inr t => inr (myread ++ [t; nl])
        | inl f => inl f
        end
    end
  else
    match mem !! end_read with
    | None => inl (Read_index (Z.of_nat end_read))
    | Some c =>
        if negb (c =? nl) && negb (c =? cr) then
          match rc_lookup c with
          | inr t =>
              match end_read with
              | S e => rev_fasta mem start_read e (myread ++ [t])
              | O => inl (Read_index (-1))
              end
          | inl f => inl f
          end
        else
          match end_read with
          | S e => rev_fasta mem start_read e myread
          | O => inl (Read_index (-1))
          end
    end.

(** The FASTQ loop of lines 142-143. *)
Fixpoint rev_fastq (mem : list Z) (end_read : nat) (myread : list Z)
  : rev_fault + list Z :=
  match mem !! end_read with
  | None => inl (Read_index (Z.of_nat end_read))
  | Some c =>
      if negb (c =? nl) && negb (c =? cr) then
        match rc_lookup c with
        | inr t =>
            match end_read with
            | S e => rev_fastq mem e (myread ++ [t])
            | O => inl (Read_index (-1))
            end
        | inl f => inl f
        end
      else inr (myread ++ [nl])
  end.

Definition format_rev (mem : list Z) (start_read end_read : nat) (filesig : Z)
  : rev_fault + list Z :=
  if filesig =? gt then rev_fasta mem start_read end_read []
  else rev_fastq mem end_read [].

(** A byte that does not index [rc_table]. *)
Definition outside_rc_table (c : Z) : bool :=
  match zlookup rc_table c with
  | Some _ => false
  | None => true
  end.

(** A byte that ends a line. *)
Definition line_end (c : Z) : bool := (c =? nl) || (c =? cr).

(** The byte that ends what [format_forward] reads, by file signature. *)
Definition terminator (filesig c : Z) : bool :=
  if filesig =? gt then (c =? nul) || (c =? gt) else line_end c.

(** The entry of [rc_table] for a byte, 4 outside the table. *)
Definition rc_code (c : Z) : Z := default 4 (zlookup rc_table c).

(** [complement[x]], 4 outside the table. *)
Definition complement_of (x : Z) : Z := default 4 (zlookup complement x).

(** [nt_table] and [rc_table] agree: a byte that [nt_table] encodes as a
    nucleotide is mapped by [rc_table] to the complement of that code. *)
Definition tables_agree (nt_table : list Z) : Prop :=
  forall c x, zlookup nt_table c = Some x -> 0 <= x < 4 ->
              zlookup rc_table c = Some (complement_of x).

(** ** Data model *)

(** A seed hit: reference seed id and window offset on the read. *)
Record id_win : Type := { id : Z; win : Z }.

(** Modelled from the spec: the alignment record kept in [read.alignments]
    (declared in read.hpp, which is not part of this file): reference id,
    reference start/end, read start/end, score and CIGAR. *)
Record s_align : Type := {
  ref_seq : Z;
  ref_begin1 : Z; ref_end1 : Z;
  read_begin1 : Z; read_end1 : Z;
  score1 : Z;
  cigar : list Z
}.

Record Read : Type := {
  read_id : Z;                    (* read.id *)
  sequence : string;
  isequence : list Z;             (* sequence in the integer alphabet *)
  id_win_hits : list id_win;
  alignments : list s_align;
  num_alignments : Z;
  max_SW_score : Z;
  hit : bool;
  hit_denovo : bool;
  readhit : Z;
  lastIndex : Z;
  lastPart : Z;
  isValid : bool
}.

Definition size (r : Read) : Z := Z.of_nat (String.length (sequence r)).

Record Readstats : Type := {
  min_read_len : Z;
  max_read_len : Z;
  total_reads_denovo_clustering : Z;
  total_reads_mapped : Z;
  number_total_read : Z
}.

(** The process-wide flags [num_alignments_gv], [num_best_hits_gv],
    [min_lis_gv], [de_novo_otu_gv]. *)
Record Globals : Type := {
  num_alignments_gv : Z;
  num_best_hits_gv : Z;
  min_lis_gv : Z;
  de_novo_otu_gv : bool
}.

(** [index.opts]: the fields the driver reads. *)
Record Runopts : Type := {
  forward : bool;
  match_ : Z;                            (* opts.match *)
  skiplengths : list (list Z)
}.

Inductive event : Type :=
| Warn_too_short (rid lnw : Z)           (* the warning of lines 181-186 *)
| Search_window (win_index : Z)          (* line 222: the window is searched *)
| Traverse_F (keyf win_index : Z)        (* line 261: subsearch 1a *)
| Traverse_R (keyr win_index : Z)        (* line 312: subsearch 1b *)
| Push_hit (h : id_win)                  (* line 331 *)
| Chain (p ws : Z) (search_out : bool)   (* line 341: chainer called in pass p *)
| Stride_read (i : Z).                   (* skiplengths[index_num][i] evaluated *)

Definition is_Traverse_F (e : event) : bool :=
  match e with Traverse_F _ _ => true | _ => false end.

Definition is_Traverse_R (e : event) : bool :=
  match e with Traverse_R _ _ => true | _ => false end.

Definition is_Chain (e : event) : bool :=
  match e with Chain _ _ _ => true | _ => false end.

(** The events of one window: at most one traversal of each trie, then the
    hits. *)
Definition window_events (doF doR : bool) (keyf keyr win_index : Z)
  (hs : list id_win) : list event :=
  (if doF then [Traverse_F keyf win_index] else []) ++
  (if doR then [Traverse_R keyr win_index] else []) ++ map Push_hit hs.

(** A window at offset [w] lies on a read of [len] characters. *)
Definition in_bounds (lnw len w : Z) : Prop := 0 <= w /\ w + lnw <= len.

(** The windows that the events of a trace name lie on the read; the hits
    appended are covered when [pushes] is set. *)
Definition event_ok (pushes : bool) (lnw len : Z) (e : event) : Prop :=
  match e with
  | Search_window w | Traverse_F _ w | Traverse_R _ w => in_bounds lnw len w
  | Push_hit h => if pushes then in_bounds lnw len (win h) else True
  | _ => True
  end.

(** Setters for the fields of [Read] and [Readstats] the driver assigns. *)

Definition set_lastIndex (v : Z) (r : Read) : Read :=
  {| read_id := read_id r; sequence := sequence r; isequence := isequence r;
     id_win_hits := id_win_hits r; alignments := alignments r;
     num_alignments := num_alignments r; max_SW_score := max_SW_score r;
     hit := hit r; hit_denovo := hit_denovo r; readhit := readhit r;
     lastIndex := v; lastPart := lastPart r; isValid := isValid r |}.

Definition set_lastPart (v : Z) (r : Read) : Read :=
  {| read_id := read_id r; sequence := sequence r; isequence := isequence r;
     id_win_hits := id_win_hits r; alignments := alignments r;
     num_alignments := num_alignments r; max_SW_score := max_SW_score r;
     hit := hit r; hit_denovo := hit_denovo r; readhit := readhit r;
     lastIndex := lastIndex r; lastPart := v; isValid := isValid r |}.

Definition set_isValid (v : bool) (r : Read) : Read :=
  {| read_id := read_id r; sequence := sequence r; isequence := isequence r;
     id_win_hits := id_win_hits r; alignments := alignments r;
     num_alignments := num_alignments r; max_SW_score := max_SW_score r;
     hit := hit r; hit_denovo := hit_denovo r; readhit := readhit r;
     lastIndex := lastIndex r; lastPart := lastPart r; isValid := v |}.

Definition set_hit_denovo (v : bool) (r : Read) : Read :=
  {| read_id := read_id r; sequence := sequence r; isequence := isequence r;
     id_win_hits := id_win_hits r; alignments := alignments r;
     num_alignments := num_alignments r; max_SW_score := max_SW_score r;
     hit := hit r; hit_denovo := v; readhit := readhit r;
     lastIndex := lastIndex r; lastPart := lastPart r; isValid := isValid r |}.

(** Lines 329-333: append the window's hits, count the window. *)
Definition push_hits (hs : list id_win) (r : Read) : Read :=
  {| read_id := read_id r; sequence := sequence r; isequence := isequence r;
     id_win_hits := id_win_hits r ++ hs; alignments := alignments r;
     num_alignments := num_alignments r; max_SW_score := max_SW_score r;
     hit := hit r; hit_denovo := hit_denovo r; readhit := wrap32 (readhit r + 1);
     lastIndex := lastIndex r; lastPart := lastPart r; isValid := isValid r |}.

Definition set_min_read_len (v : Z) (s : Readstats) : Readstats :=
  {| min_read_len := v; max_read_len := max_read_len s;
     total_reads_denovo_clustering := total_reads_denovo_clustering s;
     total_reads_mapped := total_reads_mapped s;
     number_total_read := number_total_read s |}.

Definition set_max_read_len (v : Z) (s : Readstats) : Readstats :=
  {| min_read_len := min_read_len s; max_read_len := v;
     total_reads_denovo_clustering := total_reads_denovo_clustering s;
     total_reads_mapped := total_reads_mapped s;
     number_total_read := number_total_read s |}.

Definition incr_denovo (s : Readstats) : Readstats :=
  {| min_read_len := min_read_len s; max_read_len := max_read_len s;
     total_reads_denovo_clustering := wrap64 (total_reads_denovo_clustering s + 1);
     total_reads_mapped := total_reads_mapped s;
     number_total_read := number_total_read s |}.

(** Lines 171-176. *)
Definition update_read_len (n : Z) (s : Readstats) : Readstats :=
  let s1 := if n <? min_read_len s then set_min_read_len (wrap32 n) s else s in
  if n >? max_read_len s1 then set_max_read_len (wrap32 n) s1 else s1.

(** Lines 155-167: the condition under which a reverse-strand read is left
    without any work. *)
Definition early_exit (g : Globals) (o : Runopts) (r : Read) : bool :=
  if negb (forward o) then
    if num_alignments_gv g >? 0 then num_alignments r <? 0
    else (num_best_hits_gv g >? 0) && (min_lis_gv g >? 0)
         && (max_SW_score r =? num_best_hits_gv g)
  else false.

(** Line 206. *)
Definition minoccur : Z := 0.

(** One round of the key loop, [(key <<= 2) |= (uint32_t)c], on a 32-bit key. *)
Definition key_step (key c : Z) : Z := Z.lor (wrap32 (Z.shiftl key 2)) (wrap32 c).

(** Lines 237-247 and 289-297: [g] rounds of [(key <<= 2) |= (uint32_t)*ptr; ++ptr]
    on a 32-bit [key]; [None] when [ptr] leaves the encoded sequence. *)
Fixpoint build_key (iseq : list Z) (ptr : Z) (g : nat) (key : Z) : option Z :=
  match g with
  | O => Some key
  | S g' =>
      match zlookup iseq ptr with
      | Some c => build_key iseq (ptr + 1) g' (key_step key c)
      | None => None
      end
  end.

(** The key of a half-window in the words of the specification:
    [key = 0; for each of the partialwin chars c: key = (key << 2) | c]. *)
Definition spec_key (chars : list Z) : Z :=
  fold_left (fun key c => Z.lor (Z.shiftl key 2) c) chars 0.

(** The [n] characters of the encoded sequence from offset [start]. *)
Definition half_window (iseq : list Z) (start n : Z) : list Z :=
  take (Z.to_nat n) (drop (Z.to_nat start) iseq).

(** The number that base-4 digits denote, first digit most significant. *)
Fixpoint msb_first (chars : list Z) : Z :=
  match chars with
  | [] => 0
  | c :: rest => c * 4 ^ Z.of_nat (List.length rest) + msb_first rest
  end.

(** Lines 211-213: the window count, computed in [size_t] and stored in a
    [uint32_t].  The caller has checked [windowshift <> 0]. *)
Definition numwin_of (len lnw windowshift : Z) : Z :=
  wrap32 (wrap64 (len - lnw + windowshift) / windowshift).

(** ** The index part and the collaborators *)

(** An entry of [index.lookup_tbl]; [None] is a NULL trie pointer. *)
Record kmer (NodeElement : Type) : Type := {
  count : Z;
  trie_F : option NodeElement;
  trie_R : option NodeElement
}.
Arguments count {NodeElement} k.
Arguments trie_F {NodeElement} k.
Arguments trie_R {NodeElement} k.

Record Index (NodeElement : Type) : Type := {
  opts : Runopts;
  index_num : Z;
  part : Z;
  lnwin : list Z;
  partialwin : list Z;
  numbvs : list Z;
  lookup_tbl : list (kmer NodeElement)
}.
Arguments opts {NodeElement} i.
Arguments index_num {NodeElement} i.
Arguments part {NodeElement} i.
Arguments lnwin {NodeElement} i.
Arguments partialwin {NodeElement} i.
Arguments numbvs {NodeElement} i.
Arguments lookup_tbl {NodeElement} i.

(** What [compute_lis_alignment] leaves in its reference arguments. *)
Record chained (Output : Type) : Type := {
  c_read : Read;
  c_readstats : Readstats;
  c_output : Output;
  c_search : bool;
  c_read_to_count : bool
}.
Arguments c_read {Output} c.
Arguments c_readstats {Output} c.
Arguments c_output {Output} c.
Arguments c_search {Output} c.
Arguments c_read_to_count {Output} c.

(** The code of other translation units, as the driver uses it.
    - [NodeElement], [References], [Output], [bitwin]: burst-trie nodes, the
      reference store, the output sink, and the bit-window vectors.
    - [init_win_f (isequence, start, bit_vector_size, numbvs)]: the zeroed
      vector of [bit_vector_size] words after [init_win_f] has filled it from
      the encoded sequence at [start]; likewise [init_win_r].
    - [traversetrie_align (trie, lev_t, depth, windows, offset,
      accept_zero_kmer, id_hits, readn, win_num, partialwin)] returns the new
      values of its two reference arguments.
    - [compute_lis_alignment (read, index, refs, readstats, output, search,
      max_SW_score, read_to_count)]. *)
Class Collaborators : Type := {
  NodeElement : Type;
  References : Type;
  Output : Type;
  bitwin : Type;
  init_win_f : list Z -> Z -> Z -> Z -> bitwin;
  init_win_r : list Z -> Z -> Z -> Z -> bitwin;
  traversetrie_align :
    NodeElement -> Z -> Z -> bitwin -> Z -> bool -> list id_win -> Z -> Z -> Z ->
    bool * list id_win;
  compute_lis_alignment :
    Read -> Index NodeElement -> References -> Readstats -> Output -> bool -> Z -> bool ->
    chained Output
}.

(** ** The driver [parallelTraversalJob] (lines 149-382) *)

Section Driver.

Context `{Collaborators}.

(** The objects passed by reference, the mutable locals of the search
    loop, and the trace. *)
Record state : Type := {
  read : Read;
  readstats : Readstats;
  output : Output;
  windowshift : Z;
  pass_n : Z;
  search : bool;
  read_index_hits : list bool;
  read_to_count : bool;
  trace : list event
}.

Definition upd_read (f : Read -> Read) (s : state) : state :=
  {| read := f (read s); readstats := readstats s; output := output s;
     windowshift := windowshift s; pass_n := pass_n s; search := search s;
     read_index_hits := read_index_hits s; read_to_count := read_to_count s;
     trace := trace s |}.

Definition upd_readstats (f : Readstats -> Readstats) (s : state) : state :=
  {| read := read s; readstats := f (readstats s); output := output s;
     windowshift := windowshift s; pass_n := pass_n s; search := search s;
     read_index_hits := read_index_hits s; read_to_count := read_to_count s;
     trace := trace s |}.

Definition set_windowshift (v : Z) (s : state) : state :=
  {| read := read s; readstats := readstats s; output := output s;
     windowshift := v; pass_n := pass_n s; search := search s;
     read_index_hits := read_index_hits s; read_to_count := read_to_count s;
     trace := trace s |}.

Definition set_pass_n (v : Z) (s : state) : state :=
  {| read := read s; readstats := readstats s; output := output s;
     windowshift := windowshift s; pass_n := v; search := search s;
     read_index_hits := read_index_hits s; read_to_count := read_to_count s;
     trace := trace s |}.

Definition set_search (v : bool) (s : state) : state :=
  {| read := read s; readstats := readstats s; output := output s;
     windowshift := windowshift s; pass_n := pass_n s; search := v;
     read_index_hits := read_index_hits s; read_to_count := read_to_count s;
     trace := trace s |}.

Definition set_read_index_hits (v : list bool) (s : state) : state :=
  {| read := read s; readstats := readstats s; output := output s;
     windowshift := windowshift s; pass_n := pass_n s; search := search s;
     read_index_hits := v; read_to_count := read_to_count s;
     trace := trace s |}.

Definition set_read_to_count (v : bool) (s : state) : state :=
  {| read := read s; readstats := readstats s; output := output s;
     windowshift := windowshift s; pass_n := pass_n s; search := search s;
     read_index_hits := read_index_hits s; read_to_count := v;
     trace := trace s |}.

Definition log (es : list event) (s : state) : state :=
  {| read := read s; readstats := readstats s; output := output s;
     windowshift := windowshift s; pass_n := pass_n s; search := search s;
     read_index_hits := read_index_hits s; read_to_count := read_to_count s;
     trace := trace s ++ es |}.

(** Line 341: the chainer's results written back. *)
Definition set_chained (c : chained Output) (s : state) : state :=
  {| read := c_read c; readstats := c_readstats c; output := c_output c;
     windowshift := windowshift s; pass_n := pass_n s; search := c_search c;
     read_index_hits := read_index_hits s; read_to_count := c_read_to_count c;
     trace := trace s |}.

(** *** The monad *)

Definition M (A : Type) : Type := state -> res A * state.

Definition ret {A : Type} (a : A) : M A := fun s => (Val a, s).

Definition bind {A B : Type} (m : M A) (k : A -> M B) : M B :=
  fun s => match m s with
           | (Val a, s') => k a s'
           | (Halt h, s') => (Halt h, s')
           end.

Definition stop {A : Type} (h : halt) : M A := fun s => (Halt h, s).
Definition gets {A : Type} (f : state -> A) : M A := fun s => (Val (f s), s).
Definition modify (f : state -> state) : M unit := fun s => (Val tt, f s).
Definition emit (e : event) : M unit := modify (log [e]).

Definition vec_get {A : Type} (v : vec_name) (l : list A) (i : Z) : M A :=
  match zlookup l i with
  | Some a => ret a
  | None => stop (UB (OutOfRange v i))
  end.

(** [&v[i]] on a vector of [size] elements that the model keeps no contents
    of: the element must exist. *)
Definition vec_addr (v : vec_name) (size i : Z) : M unit :=
  if (0 <=? i) && (i <? size) then ret tt else stop (UB (OutOfRange v i)).

Notation "x <- m ;; k" := (bind m (fun x => k))
  (at level 100, m at next level, right associativity).
Notation "m ;; k" := (bind m (fun _ => k))
  (at level 100, right associativity).

(** *** The seed search of one window (lines 223-335) *)

(** Subsearch 1a, lines 229-275.  [vbitwindowsf] has the [bvs] elements
    that line 229 resizes it to (the allocation is taken to succeed); the
    calls of lines 232 and 261 take the addresses of its elements 0 and 4
    (lines 233-234), and 0 and [off] (lines 266 and 268).  C++ leaves the
    order in which the arguments of a call are evaluated open: here
    [partialwin] and [numbvs] are read first, by [probe_window], and the
    addresses are taken in the order they are written.  The test of
    line 249, [(count > minoccur) && (trie_F != NULL)], is the [match] on the
    pointer and the comparison under it. *)
Definition subsearch_1a (index : Index NodeElement) (bvs off win_index pw nbv : Z)
  : M (bool * list id_win) :=
  rd <- gets read ;;
  vec_addr V_vbitwindowsf bvs 0 ;;
  vec_addr V_vbitwindowsf bvs 4 ;;
  let vbitwindowsf := init_win_f (isequence rd) (wrap32 (win_index + pw)) bvs nbv in
  match build_key (isequence rd) win_index (Z.to_nat pw) 0 with
  | None => stop (UB (OutOfRange V_isequence win_index))
  | Some keyf =>
      kf <- vec_get V_lookup_tbl (lookup_tbl index) keyf ;;
      match trie_F kf with
      | Some t =>
          if count kf >? minoccur then
            vec_addr V_vbitwindowsf bvs 0 ;;
            vec_addr V_vbitwindowsf bvs off ;;
            emit (Traverse_F keyf win_index) ;;
            ret (traversetrie_align t 0 0 vbitwindowsf off false []
                   (read_id rd) win_index pw)
          else ret (false, [])
      | None => ret (false, [])
      end
  end.

(** Subsearch 1b, lines 277-324, entered with the flag and hits of 1a;
    [vbitwindowsr] is resized to [bvs] elements at line 280, and the calls
    of lines 284 and 312 take the addresses of its elements 0 and 4 (lines
    285-286), and 0 and [off] (lines 316-317). *)
Definition subsearch_1b (index : Index NodeElement) (bvs off win_index pw nbv : Z)
  (accept_zero_kmer : bool) (id_hits : list id_win) : M (bool * list id_win) :=
  if negb accept_zero_kmer then
    rd <- gets read ;;
    vec_addr V_vbitwindowsr bvs 0 ;;
    vec_addr V_vbitwindowsr bvs 4 ;;
    let vbitwindowsr :=
      init_win_r (isequence rd) (wrap32 (wrap32 (win_index + pw) - 1)) bvs nbv in
    match build_key (isequence rd) (wrap32 (win_index + pw)) (Z.to_nat pw) 0 with
    | None => stop (UB (OutOfRange V_isequence (wrap32 (win_index + pw))))
    | Some keyr =>
        kr <- vec_get V_lookup_tbl (lookup_tbl index) keyr ;;
        match trie_R kr with
        | Some t =>
            if count kr >? minoccur then
              vec_addr V_vbitwindowsr bvs 0 ;;
              vec_addr V_vbitwindowsr bvs off ;;
              emit (Traverse_R keyr win_index) ;;
              ret (traversetrie_align t 0 0 vbitwindowsr off accept_zero_kmer id_hits
                     (read_id rd) win_index pw)
            else ret (accept_zero_kmer, id_hits)
        | None => ret (accept_zero_kmer, id_hits)
        end
    end
  else ret (accept_zero_kmer, id_hits).

(** Lines 326-334: the window's hits are appended to [read.id_win_hits]. *)
Definition record_hits (id_hits : list id_win) : M unit :=
  match id_hits with
  | [] => ret tt
  | _ :: _ =>
      modify (log (map Push_hit id_hits)) ;;
      modify (upd_read (push_hits id_hits))
  end.

Definition probe_window (index : Index NodeElement) (bvs off win_index : Z) : M unit :=
  pw <- vec_get V_partialwin (partialwin index) (index_num index) ;;
  nbv <- vec_get V_numbvs (numbvs index) (index_num index) ;;
  a <- subsearch_1a index bvs off win_index pw nbv ;;
  b <- subsearch_1b index bvs off win_index pw nbv (fst a) (snd a) ;;
  record_hits (snd b).

(** *** Pass control (lines 337-365) *)

(** [index.opts.skiplengths[index.index_num][i]]. *)
Definition stride (index : Index NodeElement) (i : Z) : M Z :=
  row <- vec_get V_skiplengths (skiplengths (opts index)) (index_num index) ;;
  emit (Stride_read i) ;;
  vec_get V_strides row i.

(** The strides of the current index, [index.opts.skiplengths[index.index_num]]
    (no strides when that vector does not exist). *)
Definition strides (index : Index NodeElement) : list Z :=
  default [] (zlookup (skiplengths (opts index)) (index_num index)).

(** The loop of lines 357-358. *)
Fixpoint skip_ahead (fuel : nat) (index : Index NodeElement) : M unit :=
  match fuel with
  | O => stop OutOfFuel
  | S fuel' =>
      p <- gets pass_n ;;
      if p <? 3 then
        a <- stride index p ;;
        b <- stride index (wrap32 (p + 1)) ;;
        if a =? b then
          modify (set_pass_n (wrap32 (p + 1))) ;;
          skip_ahead fuel' index
        else ret tt
      else ret tt
  end.

(** Lines 350-363. *)
Definition advance_pass (index : Index NodeElement) : M unit :=
  s <- gets search ;;
  if s then
    p <- gets pass_n ;;
    if p =? 2 then modify (set_search false)
    else
      skip_ahead 4 index ;;
      p' <- gets pass_n ;;
      modify (set_pass_n (wrap32 (p' + 1))) ;;
      if wrap32 (p' + 1) >? 2 then modify (set_search false)
      else
        ws <- stride index (wrap32 (p' + 1)) ;;
        modify (set_windowshift (wrap32 ws))
  else ret tt.

(** Lines 341-363, run at the final window of a pass. *)
Definition check_score (index : Index NodeElement) (refs : References) (max_sw : Z) : M unit :=
  c <- gets (fun s => compute_lis_alignment (read s) index refs (readstats s)
                        (output s) (search s) max_sw (read_to_count s)) ;;
  p <- gets pass_n ;;
  ws <- gets windowshift ;;
  modify (set_chained c) ;;
  emit (Chain p ws (c_search c)) ;;
  advance_pass index.

(** Lines 219-335: a window already searched in an earlier pass is skipped,
    any other is marked in [read_index_hits] and searched. *)
Definition visit_window (index : Index NodeElement) (bvs off win_index : Z) : M unit :=
  hits <- gets read_index_hits ;;
  b <- vec_get V_read_index_hits hits win_index ;;
  if b then ret tt
  else
    modify (set_read_index_hits (<[Z.to_nat win_index := negb b]> hits)) ;;
    emit (Search_window win_index) ;;
    probe_window index bvs off win_index.

(** The window loop of lines 217-367; [n] bounds the iterations. *)
Fixpoint windows (n : nat) (index : Index NodeElement) (refs : References)
  (numwin max_sw bvs off win_num win_index : Z) : M unit :=
  match n with
  | O => stop OutOfFuel
  | S n' =>
      if win_num <? numwin then
        visit_window index bvs off win_index ;;
        if win_num =? wrap32 (numwin - 1) then check_score index refs max_sw
        else
          ws <- gets windowshift ;;
          windows n' index refs numwin max_sw bvs off
            (wrap32 (win_num + 1)) (wrap32 (win_index + ws))
      else ret tt
  end.

(** The pass loop of lines 209-369. *)
Fixpoint passes (fuel : nat) (index : Index NodeElement) (refs : References)
  (max_sw bvs off : Z) : M unit :=
  match fuel with
  | O => stop OutOfFuel
  | S fuel' =>
      s <- gets search ;;
      if s then
        rd <- gets read ;;
        ws <- gets windowshift ;;
        lnw <- vec_get V_lnwin (lnwin index) (index_num index) ;;
        if ws =? 0 then stop (UB DivisionByZero)
        else
          let numwin := numwin_of (size rd) lnw ws in
          windows (S (Z.to_nat numwin)) index refs numwin max_sw bvs off 0 0 ;;
          passes fuel' index refs max_sw bvs off
      else ret tt
  end.

(** Lines 371-381. *)
Definition finish_read (g : Globals) (index : Index NodeElement) : M unit :=
  rd <- gets read ;;
  (if negb (hit rd) && negb (forward (opts index)) && (num_alignments_gv g >? -1) then
     if de_novo_otu_gv g && hit_denovo rd
     then modify (upd_read (set_hit_denovo (negb (hit_denovo rd))))
     else ret tt
   else ret tt) ;;
  rd' <- gets read ;;
  if de_novo_otu_gv g && hit_denovo rd'
  then modify (upd_readstats incr_denovo)
  else ret tt.

(** Lines 192-369: the locals and the pass loop. *)
Definition search_read (fuel : nat) (index : Index NodeElement) (refs : References) : M unit :=
  rd <- gets read ;;
  ws <- stride index 0 ;;
  modify (set_windowshift (wrap32 ws)) ;;
  modify (set_read_index_hits (replicate (Z.to_nat (size rd)) false)) ;;
  modify (set_pass_n 0) ;;
  let max_sw := wrap32 (size rd * match_ (opts index)) in
  pw <- vec_get V_partialwin (partialwin index) (index_num index) ;;
  let bit_vector_size := wrap32 (Z.shiftl (wrap32 (pw - 2)) 2) in
  let offset := wrap32 (Z.shiftl (wrap32 (pw - 3)) 2) in
  modify (set_search true) ;;
  passes fuel index refs max_sw bit_vector_size offset.

Definition parallelTraversalJob (fuel : nat) (g : Globals) (index : Index NodeElement)
  (refs : References) : M unit :=
  modify (upd_read (set_lastIndex (index_num index))) ;;
  modify (upd_read (set_lastPart (part index))) ;;
  rd <- gets read ;;
  if early_exit g (opts index) rd then ret tt
  else
    modify (set_read_to_count true) ;;
    modify (upd_readstats (update_read_len (size rd))) ;;
    lnw <- vec_get V_lnwin (lnwin index) (index_num index) ;;
    if size rd <? lnw then
      emit (Warn_too_short (read_id rd) lnw) ;;
      modify (upd_read (set_isValid false))
    else
      search_read fuel index refs ;;
      finish_read g index.

(** The state in which a Processor thread enters the callback. *)
Definition enter (rd : Read) (rs : Readstats) (out : Output) : state :=
  {| read := rd; readstats := rs; output := out;
     windowshift := 0; pass_n := 0; search := true;
     read_index_hits := []; read_to_count := true; trace := [] |}.

Definition run (fuel : nat) (g : Globals) (index : Index NodeElement) (refs : References)
  (rd : Read) (rs : Readstats) (out : Output) : res unit * state :=
  parallelTraversalJob fuel g index refs (enter rd rs out).

(** *** Specifications over the monad *)

(** From a state in [P], the computation [m] either returns [a] in a state
    in [Q a] or halts with [h] in a state in [E h]. *)
Definition triple {A : Type} (P : state -> Prop) (m : M A)
  (Q : A -> state -> Prop) (E : halt -> state -> Prop) : Prop :=
  forall s : state, P s ->
    match m s with
    | (Val a, s') => Q a s'
    | (Halt h, s') => E h s'
    end.

(** The windows named in the trace lie on a read of [len] characters. *)
Definition ok_trace (pushes : bool) (lnw len : Z) (s : state) : Prop :=
  Forall (event_ok pushes lnw len) (trace s).

(** The state inside pass [p] with stride [ws]. *)
Definition in_pass (pushes : bool) (lnw len p ws : Z) (s : state) : Prop :=
  ok_trace pushes lnw len s /\ size (read s) = len /\
  pass_n s = p /\ windowshift s = ws.

(** The state at the head of the pass loop. *)
Definition at_loop_head (pushes : bool) (lnw len : Z) (s : state) : Prop :=
  ok_trace pushes lnw len s /\ size (read s) = len /\
  0 <= windowshift s < 2 ^ 32 /\ (search s = true -> 0 <= pass_n s <= 2).

(** A halt that is not a lack of fuel, in a state whose trace is in bounds. *)
Definition stopped (pushes : bool) (lnw len : Z) (h : halt) (s : state) : Prop :=
  ok_trace pushes lnw len s /\ h <> OutOfFuel.

(** The hits of the window at [w] carry [w], when [pushes] is set. *)
Definition marked (pushes : bool) (w : Z) (hs : list id_win) : Prop :=
  pushes = true -> Forall (fun h => win h = w) hs.

(** Pass [p] has ended: the loop is over, or a later pass is due. *)
Definition progress (p : Z) (s : state) : Prop :=
  search s = false \/ (search s = true /\ p < pass_n s <= 2).

(** From [s0] to [s] strides were read and [pass_n] was set, nothing else. *)
Definition reads_strides (s0 s : state) : Prop :=
  read s = read s0 /\ readstats s = readstats s0 /\ output s = output s0 /\
  windowshift s = windowshift s0 /\ search s = search s0 /\
  exists ixs : list Z, trace s = trace s0 ++ map Stride_read ixs.

(** The strides from [p] up to, not including, [q] equal their successors. *)
Definition collapsed (row : list Z) (p q : Z) : Prop :=
  forall i, p <= i < q -> zlookup row i = zlookup row (i + 1).

(** The state after lines 350-363 have moved on from pass [p], for the
    strides [row]: the strides skipped equal their successors, the stride
    reached differs from the one before it and is the next [windowshift];
    past the third stride the loop is over, and a fourth stride was read. *)
Definition advanced (row : list Z) (p : Z) (s : state) : Prop :=
  p < pass_n s <= 4 /\
  collapsed row p (pass_n s - 1) /\
  (pass_n s <= 2 ->
   search s = true /\
   exists v, zlookup row (pass_n s) = Some v /\ windowshift s = wrap32 v /\
             zlookup row (pass_n s - 1) <> Some v) /\
  (2 < pass_n s -> search s = false /\ is_Some (zlookup row 3)).

(** An encoded character that is a nucleotide. *)
Definition digit (c : Z) : Prop := 0 <= c < 4.

(** The read is of [len] characters, each encoded as a nucleotide, and the
    bitmap of searched windows has an entry for each of them. *)
Definition well_formed (len : Z) (s : state) : Prop :=
  size (read s) = len /\
  Z.of_nat (List.length (isequence (read s))) = len /\
  Forall digit (isequence (read s)) /\
  Z.of_nat (List.length (read_index_hits s)) = len.

(** A well-formed state inside pass [p] with stride [ws]. *)
Definition safe_in_pass (len p ws : Z) (s : state) : Prop :=
  well_formed len s /\ pass_n s = p /\ windowshift s = ws.

(** A well-formed state at the head of the pass loop. *)
Definition safe_at_loop_head (len : Z) (s : state) : Prop :=
  well_formed len s /\ 0 < windowshift s < 2 ^ 32 /\
  (search s = true -> 0 <= pass_n s <= 2).

(** The bit vectors of lines 229 and 280 have the elements whose addresses
    the calls take: for a half-window of [pw] characters they have
    [(pw - 2) << 2] elements, computed in 32 bits (line 203), and the
    addresses taken are those of the elements 0, 4 and [(pw - 3) << 2] (line
    204).  This holds from [pw = 4] on; it fails for [pw = 2] (no element)
    and [pw = 3] (four elements). *)
Definition bit_windows_fit (pw : Z) : Prop :=
  4 < wrap32 (Z.shiftl (wrap32 (pw - 2)) 2) /\
  wrap32 (Z.shiftl (wrap32 (pw - 3)) 2) < wrap32 (Z.shiftl (wrap32 (pw - 2)) 2).

(** An index part the search loop can run on: the vectors of the current
    index exist, the window is two half-windows of at most 16 characters, the
    lookup table has an entry for every key of a half-window, there are
    three nonzero strides of which the last two differ, and the bit vectors
    have the elements the calls take the addresses of. *)
Definition searchable_index (index : Index NodeElement)
  (lnw pw nbv s0 s1 s2 : Z) : Prop :=
  zlookup (lnwin index) (index_num index) = Some lnw /\
  zlookup (partialwin index) (index_num index) = Some pw /\
  zlookup (numbvs index) (index_num index) = Some nbv /\
  zlookup (skiplengths (opts index)) (index_num index) = Some [s0; s1; s2] /\
  lnw = 2 * pw /\ 1 <= pw <= 16 /\
  Z.of_nat (List.length (lookup_tbl index)) = 4 ^ pw /\
  (wrap32 s0 <> 0 /\ wrap32 s1 <> 0 /\ wrap32 s2 <> 0) /\
  s1 <> s2 /\
  bit_windows_fit pw.

(** A read the search loop can run on: shorter than 2^32 - 1, encoded
    character by character as nucleotides. *)
Definition searchable_read (rd : Read) : Prop :=
  size rd < 2 ^ 32 - 1 /\
  Z.of_nat (List.length (isequence rd)) = size rd /\
  Forall digit (isequence rd).

(** The chainer leaves the sequence of the read and its encoding alone. *)
Definition chainer_keeps_read : Prop :=
  forall rd i r rs out b m rtc,
    sequence (c_read (compute_lis_alignment rd i r rs out b m rtc)) = sequence rd /\
    isequence (c_read (compute_lis_alignment rd i r rs out b m rtc)) = isequence rd.

(** No halt at all. *)
Definition never (h : halt) (s : state) : Prop := False.

(** The read after lines 151-152 alone. *)
Definition stamped (index : Index NodeElement) (rd : Read) : Read :=
  set_lastPart (part index) (set_lastIndex (index_num index) rd).

End Driver.

Arguments state {H}.
Arguments M {H} A.

(** ** What a trace records *)

(** The offsets of the windows searched, in the order of the trace. *)
Definition searched (tr : list event) : list Z :=
  flat_map (fun e => match e with Search_window w => [w] | _ => [] end) tr.

(** The pass number and the stride of every call of the chainer, in order. *)
Definition chained_passes (tr : list event) : list (Z * Z) :=
  flat_map (fun e => match e with Chain p ws _ => [(p, ws)] | _ => [] end) tr.

Fixpoint increasing (l : list Z) : Prop :=
  match l with
  | [] => True
  | x :: rest => Forall (fun y => x < y) rest /\ increasing rest
  end.

(** Every window at a multiple of [ws] that lies on a read of [len]
    characters is among the windows searched in [tr]. *)
Definition windows_searched (lnw len ws : Z) (tr : list event) : Prop :=
  forall k : Z, 0 <= k -> k * ws + lnw <= len -> In (k * ws) (searched tr).

(** At every call of the chainer in [tr], the windows at the multiples of the
    stride of that pass have been searched. *)
Definition chained_when_searched (lnw len : Z) (tr : list event) : Prop :=
  forall (pre : list event) (p ws : Z) (b : bool) (post : list event),
    tr = pre ++ Chain p ws b :: post -> windows_searched lnw len ws pre.

(** The hits appended to the read, in the order of the trace. *)
Definition pushed (tr : list event) : list id_win :=
  flat_map (fun e => match e with Push_hit h => [h] | _ => [] end) tr.

(** The number of events of [tr] that satisfy [f]. *)
Definition count_events (f : event -> bool) (tr : list event) : nat :=
  List.length (List.filter f tr).

(** Each trie has been traversed at most once per window searched. *)
Definition traversed_once (tr : list event) : Prop :=
  (count_events is_Traverse_F tr <= List.length (searched tr))%nat /\
  (count_events is_Traverse_R tr <= List.length (searched tr))%nat.

Section DriverStates.

Context `{Collaborators}.

(** The state in which the pass loop is entered (lines 192-209), [v] being
    the first stride of the index. *)
Definition primed (v : Z) (s : state) : state :=
  set_search true
    (set_pass_n 0
       (set_read_index_hits (replicate (Z.to_nat (size (read s))) false)
          (set_windowshift (wrap32 v) (log [Stride_read 0] s)))).

(** A condition [P] on the state a computation returns in, [J] on the state
    it halts in. *)
Definition outcome {A : Type} (P J : state -> Prop) (r : res A) (s : state) : Prop :=
  match r with
  | Val _ => P s
  | Halt _ => J s
  end.

(** From [s0] to [s] the events [es] have been logged and nothing else has
    changed. *)
Definition logged (es : list event) (s0 s : state) : Prop :=
  read s = read s0 /\ readstats s = readstats s0 /\ output s = output s0 /\
  windowshift s = windowshift s0 /\ pass_n s = pass_n s0 /\ search s = search s0 /\
  read_index_hits s = read_index_hits s0 /\ read_to_count s = read_to_count s0 /\
  trace s = trace s0 ++ es.

(** The read after the hits [hs] of a window have been recorded (lines
    326-334). *)
Definition recorded (hs : list id_win) (r : Read) : Read :=
  match hs with
  | [] => r
  | _ :: _ => push_hits hs r
  end.





(** What the visit of the window at [w] does (lines 219-335): nothing, when
    the window is marked as searched or the bitmap has no entry for it;
    otherwise the window is marked and searched: at most one traversal of
    each trie is made, and the hits, if any, are appended to the read. *)
Definition window_visited (w : Z) (r : res unit) (s0 s : state) : Prop :=
  readstats s = readstats s0 /\ output s = output s0 /\
  windowshift s = windowshift s0 /\ pass_n s = pass_n s0 /\ search s = search s0 /\
  read_to_count s = read_to_count s0 /\
  ((read s = read s0 /\ read_index_hits s = read_index_hits s0 /\ trace s = trace s0 /\
    (r = Val tt -> zlookup (read_index_hits s0) w = Some true)) \/
   (zlookup (read_index_hits s0) w = Some false /\
    read_index_hits s = <[Z.to_nat w := true]> (read_index_hits s0) /\
    exists (doF doR : bool) (keyf keyr : Z) (hs : list id_win),
      trace s = trace s0 ++ Search_window w :: window_events doF doR keyf keyr w hs /\
      read s = recorded hs (read s0))).

(** From [s0] to [s] the pass control has run (lines 350-363): strides were
    read, and [pass_n], [windowshift] and [search] may have been set. *)
Definition pass_control (s0 s : state) : Prop :=
  read s = read s0 /\ readstats s = readstats s0 /\ output s = output s0 /\
  read_index_hits s = read_index_hits s0 /\ read_to_count s = read_to_count s0 /\
  exists ixs : list Z, trace s = trace s0 ++ map Stride_read ixs.

(** The bitmap [read_index_hits] and the trace agree on the windows
    searched, and no window occurs twice among them. *)
Definition bitmap_agrees (s : state) : Prop :=
  NoDup (searched (trace s)) /\
  forall w : Z,
    In w (searched (trace s)) <->
    0 <= w /\ read_index_hits s !! Z.to_nat w = Some true.

(** The calls of the chainer in [tr] were made in passes of increasing
    number from 0 to 2, each at the stride of its pass. *)
Definition chained_in_order (index : Index NodeElement) (tr : list event) : Prop :=
  increasing (map fst (chained_passes tr)) /\
  Forall (fun c => 0 <= fst c <= 2 /\
                   exists v, zlookup (strides index) (fst c) = Some v /\
                             snd c = wrap32 v)
    (chained_passes tr).

(** The pass about to run is later than every pass the chainer was called
    in, and [windowshift] is its stride. *)
Definition pass_is_due (index : Index NodeElement) (s : state) : Prop :=
  0 <= pass_n s <= 2 /\
  Forall (fun c => fst c < pass_n s) (chained_passes (trace s)) /\
  exists v, zlookup (strides index) (pass_n s) = Some v /\ windowshift s = wrap32 v.

(** [f] reads none of the fields of the read that the driver itself
    assigns: [lastIndex], [lastPart], [isValid], [hit_denovo],
    [id_win_hits] and [readhit]. *)
Definition driver_blind {A : Type} (f : Read -> A) : Prop :=
  (forall v r, f (set_lastIndex v r) = f r) /\
  (forall v r, f (set_lastPart v r) = f r) /\
  (forall v r, f (set_isValid v r) = f r) /\
  (forall v r, f (set_hit_denovo v r) = f r) /\
  (forall hs r, f (push_hits hs r) = f r).

(** The chainer leaves [f] of the read as it is. *)
Definition chainer_keeps {A : Type} (f : Read -> A) : Prop :=
  forall rd i r rs out b m rtc,
    f (c_read (compute_lis_alignment rd i r rs out b m rtc)) = f rd.

(** The invariant of the pass loop on a read of [len] characters, for
    windows of [lnw] characters. *)
Definition covering (index : Index NodeElement) (lnw len : Z) (s : state) : Prop :=
  bitmap_agrees s /\ size (read s) = len /\
  chained_when_searched lnw len (trace s) /\
  chained_in_order index (trace s) /\
  (search s = true -> pass_is_due index s).

End DriverStates.

(** ** [paralleltraversal] (lines 385-439) *)

Definition wrap16 (z : Z) : Z := z mod 2 ^ 16.

(** [opts]: the fields [paralleltraversal] reads.  The thread counts are
    taken to be of type [int], as the loops of lines 421 and 428 compare them
    with an [int]. *)
Record Poolopts : Type := {
  num_fread_threads : Z;
  num_proc_threads : Z;
  indexfiles : list (string * string)
}.

(** What [paralleltraversal] does to the thread pool, the index and the
    reference store, in order, and the two things it writes. *)
Inductive call : Type :=
| Warn_cores (numCores numThreads : Z)     (* line 393 *)
| New_pool (numThreads : Z)                (* line 395 *)
| Load_index (index_num idx_part : Z)      (* line 415 *)
| Load_refs (index_num idx_part : Z)       (* line 416 *)
| Add_reader (i loopCount : Z)             (* line 423 *)
| Add_writer (i : Z)                       (* line 424 *)
| Add_processor (i : Z)                    (* line 430 *)
| Wait_all                                 (* line 436 *)
| Write_log.                               (* line 438 *)

Inductive pool_fault : Type :=
| Parts_index (i : Z)      (* [num_index_parts[i]] outside the vector *)
| Int_overflow             (* signed overflow of [numThreads] or [loopCount] *)
| Loop_fuel.               (* the bound on the iterations of a loop is used up *)

(** The index as [paralleltraversal] uses it: the part counts it reads in
    the test of line 411, and [index_load ix i p], the index after the two
    loads of lines 415 and 416, which are defined elsewhere. *)
Class IndexStore : Type := {
  Loaded : Type;
  num_index_parts : Loaded -> list Z;
  index_load : Loaded -> Z -> Z -> Loaded
}.

Definition in_int (z : Z) : bool := (- 2 ^ 31 <=? z) && (z <? 2 ^ 31).

Definition is_job (c : call) : bool :=
  match c with
  | Add_reader _ _ | Add_writer _ | Add_processor _ => true
  | _ => false
  end.

(** Lines 421-425. *)
Definition reader_writer_jobs (n loopCount : Z) : list call :=
  flat_map (fun i => [Add_reader i loopCount; Add_writer i]) (seqZ 0 n).

(** Lines 428-431. *)
Definition processor_jobs (n : Z) : list call := map Add_processor (seqZ 0 n).

(** Lines 413-431: the calls made for one part of an index. *)
Definition part_calls (o : Poolopts) (loopCount : Z) (ip : Z * Z) : list call :=
  [Load_index (fst ip) (snd ip); Load_refs (fst ip) (snd ip)]
  ++ reader_writer_jobs (num_fread_threads o) loopCount
  ++ processor_jobs (num_proc_threads o).

(** The parts of the indexes with the part counts [counts], index by index
    from [index_num] on. *)
Fixpoint all_parts (index_num : Z) (counts : list Z) : list (Z * Z) :=
  match counts with
  | [] => []
  | n :: rest => map (pair index_num) (seqZ 0 n) ++ all_parts (index_num + 1) rest
  end.

(** The elements of [l] numbered from [k] on. *)
Definition numbered {A : Type} (k : Z) (l : list A) : list (Z * A) :=
  zip (seqZ k (Z.of_nat (List.length l))) l.

(** The calls of a run in which no counter wraps: the pool is made, the
    parts are taken index by index and numbered from 0 on, and the wait and
    the log come last. *)
Definition submission (o : Poolopts) (numCores : Z) (counts : list Z) : list call :=
  let numThreads := 2 * num_fread_threads o + num_proc_threads o in
  (if wrap32 numThreads >? numCores then [Warn_cores numCores numThreads] else [])
  ++ New_pool numThreads
     :: flat_map (fun kp => part_calls o (fst kp) (snd kp)) (numbered 0 (all_parts 0 counts))
  ++ [Wait_all; Write_log].

Section Pool.

Context `{IndexStore}.

(** The loop of lines 411-433 over the parts of one index, from [idx_part]
    on; [fuel] bounds its iterations. *)
Fixpoint index_parts (fuel : nat) (o : Poolopts) (ix : Loaded)
  (index_num idx_part loopCount : Z) : pool_fault + (Loaded * Z * list call) :=
  match fuel with
  | O => inl Loop_fuel
  | S fuel' =>
      match zlookup (num_index_parts ix) index_num with
      | None => inl (Parts_index index_num)
      | Some n =>
          if idx_part <? n then
            let ix1 := index_load ix index_num idx_part in
            if in_int (loopCount + 1) then
              match index_parts fuel' o ix1 index_num (wrap16 (idx_part + 1))
                      (loopCount + 1) with
              | inr (ix2, lc, cs) => inr (ix2, lc, part_calls o loopCount (index_num, idx_part) ++ cs)
              | inl f => inl f
              end
            else inl Int_overflow
          else inr (ix, loopCount, [])
      end
  end.

(** The loop of lines 408-434 over the indexes, from [index_num] on. *)
Fixpoint indexes (fuel : nat) (parts_fuel : nat) (o : Poolopts) (ix : Loaded)
  (index_num loopCount : Z) : pool_fault + (Loaded * Z * list call) :=
  match fuel with
  | O => inl Loop_fuel
  | S fuel' =>
      if index_num <? wrap16 (Z.of_nat (List.length (indexfiles o))) then
        match index_parts parts_fuel o ix index_num 0 loopCount with
        | inr (ix1, lc, cs) =>
            match indexes fuel' parts_fuel o ix1 (wrap16 (index_num + 1)) lc with
            | inr (ix2, lc2, cs2) => inr (ix2, lc2, cs ++ cs2)
            | inl f => inl f
            end
        | inl f => inl f
        end
      else inr (ix, loopCount, [])
  end.

(** [numCores] is the value of [std::thread::hardware_concurrency()], [ix]
    the index as its constructor leaves it.  The result lists the calls of
    the function itself; what the jobs do once the pool runs them is not
    part of it. *)
Definition paralleltraversal (fuel : nat) (o : Poolopts) (numCores : Z) (ix : Loaded)
  : pool_fault + list call :=
  let numThreads := 2 * num_fread_threads o + num_proc_threads o in
  if in_int (2 * num_fread_threads o) && in_int numThreads then
    match indexes fuel fuel o ix 0 0 with
    | inr (_, _, cs) =>
        inr ((if wrap32 numThreads >? numCores
              then [Warn_cores numCores numThreads] else [])
             ++ New_pool numThreads :: cs ++ [Wait_all; Write_log])
    | inl f => inl f
    end
  else inl Int_overflow.

(** The loads of lines 415 and 416 leave the part counts of the index as
    they are. *)
Definition load_keeps_parts : Prop :=
  forall (ix : Loaded) (i p : Z),
    num_index_parts (index_load ix i p) = num_index_parts ix.

End Pool.

(** ** Sample inputs

    A small index part (half-window 1, window 2, a four-entry lookup table),
    index parts with longer half-windows, reads over them, and simple
    collaborators; the closed examples at the end of the file run the driver
    on them. *)

(** Modelled from the spec: [nt_table] (declared outside this file) maps
    A to 0, C to 1, G to 2, T and U to 3, in either case, and every other
    byte to 4. *)
Definition sample_nt (c : Z) : Z :=
  if (c =? 65) || (c =? 97) then 0
  else if (c =? 67) || (c =? 99) then 1
  else if (c =? 71) || (c =? 103) then 2
  else if (c =? 84) || (c =? 116) || (c =? 85) || (c =? 117) then 3
  else 4.

Definition sample_nt_table : list Z := map sample_nt (seqZ 0 128).

(** A traversal that reports the trie it was given as one more hit of the
    window and leaves the exact-match flag as it was. *)
Definition sample_traverse (t lev depth : Z) (w : unit) (off : Z) (accept : bool)
  (id_hits : list id_win) (readn win_num pw : Z) : bool * list id_win :=
  (accept, id_hits ++ [{| id := t; win := win_num |}]).

(** A chainer that accepts nothing: every argument is left as it was. *)
Definition chain_undecided (rd : Read) (index : Index Z) (refs : unit) (rs : Readstats)
  (out : unit) (search : bool) (max_sw : Z) (rtc : bool) : chained unit :=
  {| c_read := rd; c_readstats := rs; c_output := out;
     c_search := search; c_read_to_count := rtc |}.

(** A chainer that is done at its first call. *)
Definition chain_done (rd : Read) (index : Index Z) (refs : unit) (rs : Readstats)
  (out : unit) (search : bool) (max_sw : Z) (rtc : bool) : chained unit :=
  {| c_read := rd; c_readstats := rs; c_output := out;
     c_search := false; c_read_to_count := rtc |}.

Definition sample_collaborators
  (chain : Read -> Index Z -> unit -> Readstats -> unit -> bool -> Z -> bool -> chained unit)
  : Collaborators :=
  {| NodeElement := Z; References := unit; Output := unit; bitwin := unit;
     init_win_f := fun _ _ _ _ => tt;
     init_win_r := fun _ _ _ _ => tt;
     traversetrie_align := sample_traverse;
     compute_lis_alignment := chain |}.

Definition undecided : Collaborators := sample_collaborators chain_undecided.
Definition decided : Collaborators := sample_collaborators chain_done.

Definition sample_index (fwd : bool) (lnw : Z) (strides : list Z) : Index Z :=
  {| opts := {| forward := fwd; match_ := 2; skiplengths := [strides] |};
     index_num := 0; part := 1;
     lnwin := [lnw]; partialwin := [1]; numbvs := [4];
     lookup_tbl :=
       [ {| count := 1; trie_F := Some 7; trie_R := None |};
         {| count := 0; trie_F := Some 8; trie_R := Some 8 |};
         {| count := 1; trie_F := None; trie_R := Some 9 |};
         {| count := 1; trie_F := None; trie_R := None |} ] |}.

Definition sample_globals (n_align n_best n_lis : Z) (denovo : bool) : Globals :=
  {| num_alignments_gv := n_align; num_best_hits_gv := n_best;
     min_lis_gv := n_lis; de_novo_otu_gv := denovo |}.

Definition sample_alignment : s_align :=
  {| ref_seq := 3; ref_begin1 := 10; ref_end1 := 13;
     read_begin1 := 0; read_end1 := 3; score1 := 8; cigar := [4] |}.

(** The read ACGT, with the result state given. *)
Definition sample_read (als : list s_align) (n_align max_sw : Z) (h hd : bool) : Read :=
  {| read_id := 5; sequence := "ACGT"; isequence := [0; 1; 2; 3];
     id_win_hits := []; alignments := als;
     num_alignments := n_align; max_SW_score := max_sw;
     hit := h; hit_denovo := hd; readhit := 0;
     lastIndex := 0; lastPart := 0; isValid := true |}.

Definition sample_stats : Readstats :=
  {| min_read_len := 100; max_read_len := 0;
     total_reads_denovo_clustering := 0;
     total_reads_mapped := 0; number_total_read := 1 |}.

(** An index part with a half-window of 4 characters and a window of 8:
    the bit vectors have 8 elements and the second pointer is at element 4.
    The lookup table has an entry for each of the 256 keys; every entry has
    [trie_F], and those of the even keys have [trie_R]. *)
Definition wide_index (fwd : bool) (strides : list Z) : Index Z :=
  {| opts := {| forward := fwd; match_ := 2; skiplengths := [strides] |};
     index_num := 0; part := 1;
     lnwin := [8]; partialwin := [4]; numbvs := [4];
     lookup_tbl :=
       map (fun k => {| count := 1; trie_F := Some k;
                        trie_R := if Z.even k then Some (256 + k) else None |})
         (seqZ 0 256) |}.

(** An index part with a half-window of [pw] characters, a window of two
    half-windows and a lookup table of [4 ^ pw] entries. *)
Definition narrow_index (pw : Z) : Index Z :=
  {| opts := {| forward := true; match_ := 2; skiplengths := [[3; 2; 1]] |};
     index_num := 0; part := 1;
     lnwin := [2 * pw]; partialwin := [pw]; numbvs := [4];
     lookup_tbl :=
       map (fun k => {| count := 1; trie_F := Some k; trie_R := None |})
         (seqZ 0 (4 ^ pw)) |}.

(** The read ACGTACGTAC, with the result state given. *)
Definition wide_read (h hd : bool) : Read :=
  {| read_id := 7; sequence := "ACGTACGTAC";
     isequence := [0; 1; 2; 3; 0; 1; 2; 3; 0; 1];
     id_win_hits := []; alignments := [];
     num_alignments := 0; max_SW_score := 0;
     hit := h; hit_denovo := hd; readhit := 0;
     lastIndex := 0; lastPart := 0; isValid := true |}.

(** A read of four characters with the encoded sequence given. *)
Definition sample_read_with (iseq : list Z) : Read :=
  {| read_id := 6; sequence := "NCGT"; isequence := iseq;
     id_win_hits := []; alignments := [];
     num_alignments := 0; max_SW_score := 0;
     hit := false; hit_denovo := true; readhit := 0;
     lastIndex := 0; lastPart := 0; isValid := true |}.

(** An index of two files with two parts and one part, which loading leaves
    as it is, and options with one reading and two processing threads. *)
Definition sample_store : IndexStore :=
  {| Loaded := list Z;
     num_index_parts := fun ix => ix;
     index_load := fun ix _ _ => ix |}.

Definition sample_opts : Poolopts :=
  {| num_fread_threads := 1; num_proc_threads := 2;
     indexfiles := [("a.fasta", "a.idx"); ("b.fasta", "b.idx")]%string |}.

(** * Properties *)

(** ** [format_forward] *)

Section FormatFacts.

Variable nt_table : list Z.

Lemma fasta_guard_true (c : Z) : fasta_guard c = true.
Proof.
  unfold fasta_guard, nl, cr.
  destruct (Z.eqb_spec c 10) as [-> | _]; reflexivity.
Qed.

(** The FASTA loop appends the translation of every byte before the
    terminator, whatever the byte is. *)
Lemma format_fasta_copies (pre : list Z) :
  forall (t : Z) (rest out acc : list Z),
    t = nul \/ t = gt ->
    Forall (fun c => c <> nul /\ c <> gt) pre ->
    Forall2 (fun c x => zlookup nt_table c = Some x) pre out ->
    format_fasta nt_table (pre ++ t :: rest) acc = Val (acc ++ out ++ [nl]).
Proof.
  induction pre as [| c pre IH]; intros t rest out acc Ht Hpre Hout.
  - inversion Hout; subst. simpl.
    destruct Ht as [-> | ->]; reflexivity.
  - inversion Hout as [| c' x pre' out' Hc Hrest]; subst.
    inversion Hpre as [| c' pre' [Hn Hg] Hpre']; subst.
    simpl.
    destruct (Z.eqb_spec c nul) as [E | _]; [contradiction |].
    destruct (Z.eqb_spec c gt) as [E | _]; [contradiction |].
    simpl. rewrite fasta_guard_true.
    unfold translate. rewrite Hc.
    rewrite (IH t rest out' (acc ++ [x]) Ht Hpre' Hrest).
    rewrite <- app_assoc. reflexivity.
Qed.

(** C7.  In the FASTA branch of [format_forward] the guard of line 98 is true
    for every byte, so the branch writes the [nt_table] translation of every
    byte that precedes the first NUL or [>], newline and carriage return
    included, followed by the closing newline. *)
Theorem format_forward_fasta_keeps_every_byte :
  (forall c : Z, fasta_guard c = true) /\
  (forall (pre : list Z) (t : Z) (rest out : list Z),
      t = nul \/ t = gt ->
      Forall (fun c => c <> nul /\ c <> gt) pre ->
      Forall2 (fun c x => zlookup nt_table c = Some x) pre out ->
      format_forward nt_table (pre ++ t :: rest) gt = Val (out ++ [nl]) /\
      List.length out = List.length pre /\
      (forall (i : nat) (c : Z), pre !! i = Some c -> (c = nl \/ c = cr) ->
         out !! i = zlookup nt_table c)).
Proof.
  split; [exact fasta_guard_true |].
  intros pre t rest out Ht Hpre Hout.
  split; [| split].
  - unfold format_forward. rewrite Z.eqb_refl.
    exact (format_fasta_copies pre t rest out [] Ht Hpre Hout).
  - symmetry. eapply Forall2_length; exact Hout.
  - intros i c Hi _.
    destruct (Forall2_lookup_l _ _ _ _ _ Hout Hi) as (x & Hx & Hcx).
    rewrite Hx, Hcx. reflexivity.
Qed.

End FormatFacts.

(** ** Half-window keys *)

Section KeyFacts.

Lemma wrap32_land (z : Z) : wrap32 z = Z.land z (Z.ones 32).
Proof. unfold wrap32. rewrite Z.land_ones by lia. reflexivity. Qed.

Lemma wrap32_idem (z : Z) : wrap32 (wrap32 z) = wrap32 z.
Proof. unfold wrap32. apply Z.mod_mod. lia. Qed.

Lemma wrap32_small (z : Z) : 0 <= z < 2 ^ 32 -> wrap32 z = z.
Proof. intros Hz. unfold wrap32. apply Z.mod_small. exact Hz. Qed.

Lemma wrap32_range (z : Z) : 0 <= wrap32 z < 2 ^ 32.
Proof. unfold wrap32. apply Z.mod_pos_bound. lia. Qed.

Lemma wrap32_le (z : Z) : 0 <= z -> wrap32 z <= z.
Proof. intros Hz. unfold wrap32. apply Z.mod_le; lia. Qed.

(** Truncation to 32 bits commutes with one round of shift-and-OR. *)
Lemma key_step_wrap (key c : Z) :
  key_step (wrap32 key) c = wrap32 (Z.lor (Z.shiftl key 2) c).
Proof.
  unfold key_step. rewrite !wrap32_land.
  apply Z.bits_inj'. intros i Hi.
  rewrite !Z.lor_spec, !Z.land_spec, !Z.lor_spec.
  destruct (Z.ltb_spec i 2) as [Hlt | Hge].
  - rewrite !Z.shiftl_spec_low by lia. reflexivity.
  - rewrite !Z.shiftl_spec by lia. rewrite Z.land_spec.
    destruct (Z.ltb_spec i 32) as [Hlt | Hge32].
    + rewrite !Z.ones_spec_low by lia. rewrite !andb_true_r. reflexivity.
    + rewrite (Z.ones_spec_high 32 i) by lia. rewrite !andb_false_r. reflexivity.
Qed.

Lemma fold_key_step_wrap (chars : list Z) :
  forall key : Z,
    fold_left key_step chars (wrap32 key) =
    wrap32 (fold_left (fun k c => Z.lor (Z.shiftl k 2) c) chars key).
Proof.
  induction chars as [| c chars IH]; intros key; cbn [fold_left].
  - reflexivity.
  - rewrite key_step_wrap. apply IH.
Qed.

(** The key loop reads [g] characters from [ptr] on. *)
Lemma build_key_fold (iseq : list Z) (g : nat) :
  forall ptr key : Z,
    0 <= ptr ->
    ptr + Z.of_nat g <= Z.of_nat (List.length iseq) ->
    build_key iseq ptr g key =
      Some (fold_left key_step (take g (drop (Z.to_nat ptr) iseq)) key).
Proof.
  induction g as [| g IH]; intros ptr key Hptr Hlen.
  - reflexivity.
  - cbn [build_key]. unfold zlookup.
    destruct (Z.ltb_spec ptr 0) as [Hneg | _]; [lia |].
    destruct (lookup_lt_is_Some_2 iseq (Z.to_nat ptr)) as [c Hc]; [lia |].
    rewrite Hc.
    rewrite (drop_S _ _ _ Hc). cbn [take fold_left].
    rewrite IH by lia.
    replace (Z.to_nat (ptr + 1)) with (S (Z.to_nat ptr)) by lia.
    reflexivity.
Qed.

Lemma half_window_length (iseq : list Z) (start n : Z) :
  0 <= start -> 0 <= n -> start + n <= Z.of_nat (List.length iseq) ->
  Z.of_nat (List.length (half_window iseq start n)) = n.
Proof.
  intros Hs Hn Hlen. unfold half_window.
  rewrite length_take, length_drop. lia.
Qed.

Lemma build_key_spec (iseq : list Z) (start n : Z) :
  0 <= start -> 0 <= n -> start + n <= Z.of_nat (List.length iseq) ->
  build_key iseq start (Z.to_nat n) 0 = Some (wrap32 (spec_key (half_window iseq start n))).
Proof.
  intros Hs Hn Hlen.
  rewrite build_key_fold by lia.
  unfold spec_key, half_window.
  rewrite <- fold_key_step_wrap. reflexivity.
Qed.

(** On 2-bit characters shift-and-OR is multiply-and-add. *)
Lemma shift_or_digit (key c : Z) :
  0 <= c < 4 -> Z.lor (Z.shiftl key 2) c = 4 * key + c.
Proof.
  intros Hc. rewrite <- Z.add_nocarry_lor.
  - rewrite Z.shiftl_mul_pow2 by lia. lia.
  - apply Z.bits_inj'. intros i Hi.
    rewrite Z.land_spec, Z.bits_0.
    destruct (Z.ltb_spec i 2) as [Hlt | Hge].
    + rewrite Z.shiftl_spec_low by lia. reflexivity.
    + replace c with (c mod 2 ^ 2) by (apply Z.mod_small; lia).
      rewrite Z.mod_pow2_bits_high by lia. apply andb_false_r.
Qed.

Lemma fold_shift_or_digits (chars : list Z) :
  forall key : Z,
    Forall (fun c => 0 <= c < 4) chars ->
    fold_left (fun k c => Z.lor (Z.shiftl k 2) c) chars key =
    key * 4 ^ Z.of_nat (List.length chars) + msb_first chars.
Proof.
  induction chars as [| c chars IH]; intros key Hall; cbn [fold_left msb_first List.length].
  - cbn. lia.
  - inversion Hall as [| c' chars' Hc Hrest]; subst.
    rewrite IH by assumption. rewrite shift_or_digit by assumption.
    rewrite Nat2Z.inj_succ, Z.pow_succ_r by lia. lia.
Qed.

Lemma msb_first_range (chars : list Z) :
  Forall (fun c => 0 <= c < 4) chars ->
  0 <= msb_first chars < 4 ^ Z.of_nat (List.length chars).
Proof.
  induction chars as [| c chars IH]; intros Hall; cbn [msb_first List.length].
  - cbn. lia.
  - inversion Hall as [| c' chars' Hc Hrest]; subst.
    specialize (IH Hrest).
    rewrite Nat2Z.inj_succ, Z.pow_succ_r by lia. nia.
Qed.

Lemma spec_key_msb_first (chars : list Z) :
  Forall (fun c => 0 <= c < 4) chars ->
  Z.of_nat (List.length chars) <= 16 ->
  wrap32 (spec_key chars) = msb_first chars.
Proof.
  intros Hall Hlen. unfold spec_key.
  rewrite fold_shift_or_digits by assumption.
  pose proof (msb_first_range chars Hall) as Hr.
  assert (4 ^ Z.of_nat (List.length chars) <= 4 ^ 16)
    by (apply Z.pow_le_mono_r; lia).
  apply wrap32_small. change (2 ^ 32) with (4 ^ 16). lia.
Qed.


End KeyFacts.

(** ** The seed search of one window *)

Section ProbeFacts.

Context `{Collaborators}.


Lemma vec_addr_in (v : vec_name) (size i : Z) (s : state) :
  0 <= i < size -> vec_addr v size i s = (Val tt, s).
Proof.
  intros Hi. unfold vec_addr.
  destruct (Z.leb_spec 0 i); [| lia]. destruct (Z.ltb_spec i size); [| lia].
  reflexivity.
Qed.

Lemma vec_addr_out (v : vec_name) (size i : Z) (s : state) :
  ~ 0 <= i < size -> vec_addr v size i s = (Halt (UB (OutOfRange v i)), s).
Proof.
  intros Hi. unfold vec_addr.
  destruct (Z.leb_spec 0 i); [| reflexivity].
  destruct (Z.ltb_spec i size); [lia | reflexivity].
Qed.


















End ProbeFacts.

(** ** The driver before and after the search loop *)

Section DriverFacts.

Context `{Collaborators}.

Ltac run_prefix :=
  unfold run, parallelTraversalJob, finish_read, bind, modify, gets, ret, emit, vec_get,
    stop; cbn [read readstats output trace upd_read upd_readstats enter log
                 set_read_to_count fst snd].

Lemma early_exit_stamped (g : Globals) (index : Index NodeElement) (rd : Read) :
  early_exit g (opts index) (stamped index rd) = early_exit g (opts index) rd.
Proof. reflexivity. Qed.

Lemma size_stamped (index : Index NodeElement) (rd : Read) :
  size (stamped index rd) = size rd.
Proof. reflexivity. Qed.

(** The driver on a read that meets the condition of lines 155-167. *)
Lemma early_exit_run
  (fuel : nat) (g : Globals) (index : Index NodeElement) (refs : References)
  (rd : Read) (rs : Readstats) (out : Output) :
  early_exit g (opts index) rd = true ->
  run fuel g index refs rd rs out = (Val tt, enter (stamped index rd) rs out).
Proof.
  intros Hexit. run_prefix.
  change (set_lastPart (part index) (set_lastIndex (index_num index) rd))
    with (stamped index rd).
  rewrite early_exit_stamped, Hexit. reflexivity.
Qed.

(** C1 (amended).  On the reverse strand the driver returns at once, having
    only recorded the index and part on the read: when a positive
    [num_alignments_gv] is configured and the read's countdown is below zero;
    and, when no positive [num_alignments_gv] is configured, when
    [num_best_hits_gv > 0], [min_lis_gv > 0] and the read's [max_SW_score]
    equals [num_best_hits_gv].  Nothing is searched, logged or counted. *)
Theorem reverse_strand_early_return
  (fuel : nat) (g : Globals) (index : Index NodeElement) (refs : References)
  (rd : Read) (rs : Readstats) (out : Output) :
  forward (opts index) = false ->
  (0 < num_alignments_gv g /\ num_alignments rd < 0) \/
  (num_alignments_gv g <= 0 /\ 0 < num_best_hits_gv g /\ 0 < min_lis_gv g /\
   max_SW_score rd = num_best_hits_gv g) ->
  run fuel g index refs rd rs out = (Val tt, enter (stamped index rd) rs out).
Proof.
  intros Hrev Hcond.
  assert (Hexit : early_exit g (opts index) rd = true).
  { unfold early_exit. rewrite Hrev. cbn [negb].
    destruct Hcond as [[Hn Hc] | (Hn & Hb & Hl & Hs)].
    - destruct (Z.gtb_spec (num_alignments_gv g) 0); [| lia].
      apply Z.ltb_lt. exact Hc.
    - destruct (Z.gtb_spec (num_alignments_gv g) 0); [lia |].
      rewrite Hs, Z.eqb_refl.
      destruct (Z.gtb_spec (num_best_hits_gv g) 0); [| lia].
      destruct (Z.gtb_spec (min_lis_gv g) 0); [| lia].
      reflexivity. }
  exact (early_exit_run fuel g index refs rd rs out Hexit).
Qed.

(** The driver on a read that is not left early and is shorter than the
    window. *)
Lemma too_short_run
  (fuel : nat) (g : Globals) (index : Index NodeElement) (refs : References)
  (rd : Read) (rs : Readstats) (out : Output) (lnw : Z) :
  early_exit g (opts index) rd = false ->
  zlookup (lnwin index) (index_num index) = Some lnw ->
  size rd < lnw ->
  run fuel g index refs rd rs out =
    (Val tt,
     log [Warn_too_short (read_id rd) lnw]
       (enter (set_isValid false (stamped index rd))
          (update_read_len (size rd) rs) out)).
Proof.
  intros Hexit Hlnw Hshort.
  run_prefix.
  change (set_lastPart (part index) (set_lastIndex (index_num index) rd))
    with (stamped index rd).
  rewrite early_exit_stamped, Hexit, Hlnw. cbn.
  rewrite size_stamped.
  destruct (Z.ltb_spec (size rd) lnw); [| lia].
  reflexivity.
Qed.

(** The driver on a read that is not left early and is long enough: the
    search and the closing lines run on the statistics already updated. *)
Lemma long_enough_run
  (fuel : nat) (g : Globals) (index : Index NodeElement) (refs : References)
  (rd : Read) (rs : Readstats) (out : Output) (lnw : Z) :
  early_exit g (opts index) rd = false ->
  zlookup (lnwin index) (index_num index) = Some lnw ->
  lnw <= size rd ->
  run fuel g index refs rd rs out =
    bind (search_read fuel index refs) (fun _ => finish_read g index)
      (enter (stamped index rd) (update_read_len (size rd) rs) out).
Proof.
  intros Hexit Hlnw Hlong.
  unfold run, parallelTraversalJob.
  unfold bind at 1 2 3 4 5 6. unfold modify, gets, vec_get, ret.
  cbn [read upd_read enter].
  change (set_lastPart (part index) (set_lastIndex (index_num index) rd))
    with (stamped index rd).
  rewrite early_exit_stamped, Hexit, Hlnw. cbn [upd_readstats set_read_to_count].
  rewrite size_stamped.
  destruct (Z.ltb_spec (size rd) lnw); [lia |].
  reflexivity.
Qed.

(** C2 (amended).  A read shorter than [lnwin] of the current index part that
    is not left by the reverse-strand early return has [isValid = false] when
    the driver returns, and its alignments are those it had on entry (none,
    if it had none); the driver returns normally, and the warning is all it
    does: no window is searched and the chainer is not called. *)
Theorem too_short_read_is_invalidated
  (fuel : nat) (g : Globals) (index : Index NodeElement) (refs : References)
  (rd : Read) (rs : Readstats) (out : Output) (lnw : Z) :
  early_exit g (opts index) rd = false ->
  zlookup (lnwin index) (index_num index) = Some lnw ->
  size rd < lnw ->
  let r := run fuel g index refs rd rs out in
  fst r = Val tt /\
  isValid (read (snd r)) = false /\
  alignments (read (snd r)) = alignments rd /\
  (alignments rd = [] -> alignments (read (snd r)) = []) /\
  trace (snd r) = [Warn_too_short (read_id rd) lnw].
Proof.
  intros Hexit Hlnw Hshort r. subst r.
  rewrite (too_short_run fuel g index refs rd rs out lnw Hexit Hlnw Hshort).
  cbn. auto.
Qed.

(** C10.  A read that is not left by the reverse-strand early return has the
    minimum and maximum read length updated from its length before the
    too-short test: a read shorter than [lnwin] is counted in them, and its
    rejection sets [isValid] and nothing else (beyond the index and part
    recorded on entry); a read that is long enough is searched with the
    statistics already updated. *)
Theorem read_length_counted_before_rejection
  (fuel : nat) (g : Globals) (index : Index NodeElement) (refs : References)
  (rd : Read) (rs : Readstats) (out : Output) (lnw : Z) :
  early_exit g (opts index) rd = false ->
  zlookup (lnwin index) (index_num index) = Some lnw ->
  let r := run fuel g index refs rd rs out in
  let rs' := update_read_len (size rd) rs in
  (min_read_len rs' = (if size rd <? min_read_len rs then wrap32 (size rd)
                        else min_read_len rs) /\
   max_read_len rs' = (if size rd >? max_read_len rs then wrap32 (size rd)
                       else max_read_len rs)) /\
  (size rd < lnw ->
     readstats (snd r) = rs' /\
     read (snd r) = set_isValid false (stamped index rd) /\
     alignments (read (snd r)) = alignments rd /\
     id_win_hits (read (snd r)) = id_win_hits rd /\
     hit (read (snd r)) = hit rd /\
     num_alignments (read (snd r)) = num_alignments rd) /\
  (lnw <= size rd ->
     r = bind (search_read fuel index refs) (fun _ => finish_read g index)
           (enter (stamped index rd) rs' out)).
Proof.
  intros Hexit Hlnw r rs'. subst r rs'.
  split; [| split].
  - unfold update_read_len.
    destruct (size rd <? min_read_len rs);
      cbn [max_read_len min_read_len set_min_read_len];
      destruct (size rd >? max_read_len rs);
      cbn [max_read_len min_read_len set_max_read_len set_min_read_len];
      split; reflexivity.
  - intros Hshort.
    rewrite (too_short_run fuel g index refs rd rs out lnw Hexit Hlnw Hshort).
    cbn. auto 7.
  - intros Hlong.
    exact (long_enough_run fuel g index refs rd rs out lnw Hexit Hlnw Hlong).
Qed.

(** Lines 371-381 on any state. *)
Lemma finish_read_spec (g : Globals) (index : Index NodeElement) (s : state) :
  let flip := negb (hit (read s)) && negb (forward (opts index))
              && (num_alignments_gv g >? -1) && de_novo_otu_gv g in
  let hd := if flip then false else hit_denovo (read s) in
  let counted := de_novo_otu_gv g && hd in
  finish_read g index s =
    (Val tt,
     upd_readstats (fun rs => if counted then incr_denovo rs else rs)
       (upd_read (set_hit_denovo hd) s)).
Proof.
  destruct s as [rd rs out ws p sr hits rtc tr].
  destruct rd as [rid sq isq hs als na msw h hd rh li lp iv].
  unfold finish_read, bind, gets, modify, ret.
  cbn [read hit hit_denovo upd_read set_hit_denovo].
  destruct h, (forward (opts index)), (num_alignments_gv g >? -1),
    (de_novo_otu_gv g), hd; reflexivity.
Qed.

(** C8 (amended).  After the search loop: if the read never hit, this was the
    reverse-strand pass, [num_alignments_gv > -1] and de novo clustering is
    on, [hit_denovo] is off when the driver returns, and in every other case
    it is as the search left it; and [total_reads_denovo_clustering] is
    incremented only when de novo clustering is on and [hit_denovo] is true
    at the return: otherwise it is as the search left it. *)
Theorem denovo_flag_and_count_after_search
  (fuel : nat) (g : Globals) (index : Index NodeElement) (refs : References)
  (rd : Read) (rs : Readstats) (out : Output) (lnw : Z) (s1 : state) :
  early_exit g (opts index) rd = false ->
  zlookup (lnwin index) (index_num index) = Some lnw ->
  lnw <= size rd ->
  search_read fuel index refs
    (enter (stamped index rd) (update_read_len (size rd) rs) out) = (Val tt, s1) ->
  let r := run fuel g index refs rd rs out in
  let flip := negb (hit (read s1)) && negb (forward (opts index))
              && (num_alignments_gv g >? -1) && de_novo_otu_gv g in
  fst r = Val tt /\
  hit_denovo (read (snd r)) = (if flip then false else hit_denovo (read s1)) /\
  (de_novo_otu_gv g && hit_denovo (read (snd r)) = false ->
   total_reads_denovo_clustering (readstats (snd r))
   = total_reads_denovo_clustering (readstats s1)).
Proof.
  intros Hexit Hlnw Hlong Hsearch r flip. subst r.
  rewrite (long_enough_run fuel g index refs rd rs out lnw Hexit Hlnw Hlong).
  unfold bind. rewrite Hsearch, finish_read_spec.
  fold flip. cbn [fst snd read readstats upd_read upd_readstats hit_denovo set_hit_denovo].
  split; [reflexivity |]. split; [reflexivity |].
  intros Hoff. rewrite Hoff. reflexivity.
Qed.

End DriverFacts.

(** ** Rules for the monad *)

Section MonadRules.

Context `{Collaborators}.

Lemma triple_ret {A : Type} (a : A) (P : state -> Prop) Q E :
  (forall s, P s -> Q a s) -> triple P (ret a) Q E.
Proof. intros HQ s Hs. exact (HQ s Hs). Qed.

Lemma triple_bind {A B : Type} (m : M A) (k : A -> M B) (P : state -> Prop) R Q E :
  triple P m R E -> (forall a, triple (R a) (k a) Q E) -> triple P (bind m k) Q E.
Proof.
  intros Hm Hk s Hs. unfold bind. specialize (Hm s Hs).
  destruct (m s) as [[a | h] s'].
  - exact (Hk a s' Hm).
  - exact Hm.
Qed.

Lemma triple_gets {A : Type} (f : state -> A) (P : state -> Prop) Q E :
  (forall s, P s -> Q (f s) s) -> triple P (gets f) Q E.
Proof. intros HQ s Hs. exact (HQ s Hs). Qed.

Lemma triple_modify (f : state -> state) (P : state -> Prop) Q E :
  (forall s, P s -> Q tt (f s)) -> triple P (modify f) Q E.
Proof. intros HQ s Hs. exact (HQ s Hs). Qed.

Lemma triple_stop {A : Type} (h : halt) (P : state -> Prop) (Q : A -> state -> Prop) E :
  (forall s, P s -> E h s) -> triple P (stop h) Q E.
Proof. intros HE s Hs. exact (HE s Hs). Qed.

Lemma triple_vec_get {A : Type} (v : vec_name) (l : list A) (i : Z)
  (P : state -> Prop) Q E :
  (forall a s, zlookup l i = Some a -> P s -> Q a s) ->
  (forall s, zlookup l i = None -> P s -> E (UB (OutOfRange v i)) s) ->
  triple P (vec_get v l i) Q E.
Proof.
  intros HQ HE s Hs. unfold vec_get.
  destruct (zlookup l i) as [a |] eqn:Hl.
  - exact (HQ a s eq_refl Hs).
  - exact (HE s eq_refl Hs).
Qed.

Lemma triple_conseq {A : Type} (m : M A) (P P' : state -> Prop)
  (Q Q' : A -> state -> Prop) (E E' : halt -> state -> Prop) :
  triple P m Q E ->
  (forall s, P' s -> P s) ->
  (forall a s, Q a s -> Q' a s) ->
  (forall h s, E h s -> E' h s) ->
  triple P' m Q' E'.
Proof.
  intros Hm HP HQ HE s Hs. specialize (Hm s (HP s Hs)).
  destruct (m s) as [[a | h] s']; auto.
Qed.

(** A pure fact of the precondition may be used to choose the proof. *)
Lemma triple_assume {A : Type} (m : M A) (F : Prop) (P : state -> Prop) Q E :
  (F -> triple P m Q E) -> triple (fun s => F /\ P s) m Q E.
Proof. intros Hm s [HF Hs]. exact (Hm HF s Hs). Qed.

(** Reading the state fixes it for the continuation. *)
Lemma triple_bind_gets {A B : Type} (f : state -> A) (k : A -> M B)
  (P : state -> Prop) Q E :
  (forall s0, P s0 -> triple (fun s => s = s0) (k (f s0)) Q E) ->
  triple P (bind (gets f) k) Q E.
Proof.
  intros Hk s Hs. unfold bind, gets. exact (Hk s Hs s eq_refl).
Qed.

(** Taking the address of an element: it exists in the continuation. *)
Lemma triple_bind_vec_addr {B : Type} (v : vec_name) (size i : Z) (k : M B)
  (P : state -> Prop) Q E :
  (forall s, P s -> ~ 0 <= i < size -> E (UB (OutOfRange v i)) s) ->
  (0 <= i < size -> triple P k Q E) ->
  triple P (bind (vec_addr v size i) (fun _ => k)) Q E.
Proof.
  intros HE Hk s Hs. unfold bind, vec_addr.
  destruct (Z.leb_spec 0 i) as [H0 | H0]; cbn [andb].
  - destruct (Z.ltb_spec i size) as [H1 | H1].
    + exact (Hk (conj H0 H1) s Hs).
    + apply (HE s Hs). lia.
  - apply (HE s Hs). lia.
Qed.

(** A returned value is passed on. *)
Lemma triple_bind_ret {A B : Type} (a : A) (k : A -> M B) (P : state -> Prop) Q E :
  triple P (k a) Q E -> triple P (bind (ret a) k) Q E.
Proof. intros Hk s Hs. exact (Hk s Hs). Qed.

End MonadRules.

(** ** The search loop *)

Section LoopFacts.

Context `{Collaborators}.

Variables (index : Index NodeElement) (refs : References).
Variables (pushes : bool) (lnw len : Z).

(** [lnw] is the window length of the current index, and the read is at
    least that long. *)
Hypothesis lnw_current : zlookup (lnwin index) (index_num index) = Some lnw.
Hypothesis long_enough : lnw <= len.

(** The chainer leaves the length of the read as it is. *)
Hypothesis chainer_keeps_size :
  forall rd i r rs out b m rtc,
    size (c_read (compute_lis_alignment rd i r rs out b m rtc)) = size rd.

(** When [pushes] is set: the traversal records its hits under the window
    offset it is given. *)
Hypothesis traversal_marks :
  pushes = true ->
  forall t lev d bw o acc hits rid w pw,
    Forall (fun h => win h = w) hits ->
    Forall (fun h => win h = w)
      (snd (traversetrie_align t lev d bw o acc hits rid w pw)).

Lemma ok_log (es : list event) (s : state) :
  ok_trace pushes lnw len s -> Forall (event_ok pushes lnw len) es -> ok_trace pushes lnw len (log es s).
Proof. intros Hs Hes. unfold ok_trace. cbn. apply Forall_app. auto. Qed.

Lemma inside_log (p ws : Z) (es : list event) (s : state) :
  in_pass pushes lnw len p ws s -> Forall (event_ok pushes lnw len) es -> in_pass pushes lnw len p ws (log es s).
Proof.
  intros (Hok & Hsz & Hp & Hws) Hes.
  split; [apply ok_log; assumption |]. cbn. auto.
Qed.

Lemma inside_halted (p ws : Z) (h : halt) (s : state) :
  in_pass pushes lnw len p ws s -> h <> OutOfFuel -> (stopped pushes lnw len) h s.
Proof. intros (Hok & _) Hh. split; assumption. Qed.

Lemma marked_nil (w : Z) : marked pushes w [].
Proof. intros _. constructor. Qed.

Lemma marked_traverse t lev d bw o acc hits rid w pw :
  marked pushes w hits ->
  marked pushes w (snd (traversetrie_align t lev d bw o acc hits rid w pw)).
Proof. intros Hm Hp. apply traversal_marks; [exact Hp | exact (Hm Hp)]. Qed.

Lemma pushes_ok (w : Z) (hs : list id_win) :
  in_bounds lnw len w -> marked pushes w hs ->
  Forall (event_ok pushes lnw len) (map Push_hit hs).
Proof.
  intros Hw Hm. apply Forall_map. unfold marked in Hm.
  destruct pushes eqn:Hp.
  - specialize (Hm eq_refl). eapply Forall_impl; [| exact Hm].
    intros h Hh. cbn. rewrite Hh. exact Hw.
  - apply Forall_forall. intros h _. exact I.
Qed.

Lemma subsearch_1a_inside (bvs off w pw nbv p ws : Z) :
  in_bounds lnw len w ->
  triple (in_pass pushes lnw len p ws) (subsearch_1a index bvs off w pw nbv)
    (fun a s => marked pushes w (snd a) /\ in_pass pushes lnw len p ws s) (stopped pushes lnw len).
Proof.
  intros Hw. unfold subsearch_1a.
  apply triple_bind_gets. intros s0 Hs0.
  do 2 (apply triple_bind_vec_addr;
        [intros s Hs _; subst s; eapply inside_halted; [exact Hs0 | discriminate]
        | intros _]).
  destruct (build_key (isequence (read s0)) w (Z.to_nat pw) 0) as [keyf |].
  2:{ apply triple_stop. intros s Hs; subst s. eapply inside_halted; [exact Hs0 | discriminate]. }
  eapply triple_bind.
  { apply triple_vec_get with (Q := fun _ s => s = s0).
    - intros a s _ Hs. exact Hs.
    - intros s _ Hs; subst s. eapply inside_halted; [exact Hs0 | discriminate]. }
  intros kf.
  destruct (trie_F kf) as [t |].
  2:{ apply triple_ret. intros s Hs; subst s. split; [apply marked_nil | exact Hs0]. }
  destruct (count kf >? minoccur).
  2:{ apply triple_ret. intros s Hs; subst s. split; [apply marked_nil | exact Hs0]. }
  do 2 (apply triple_bind_vec_addr;
        [intros s Hs _; subst s; eapply inside_halted; [exact Hs0 | discriminate]
        | intros _]).
  eapply triple_bind.
  { apply triple_modify with (Q := fun _ s => in_pass pushes lnw len p ws s).
    intros s Hs; subst s. apply inside_log; [exact Hs0 |].
    constructor; [exact Hw | constructor]. }
  intros u. apply triple_ret. intros s Hs.
  split; [| exact Hs]. apply marked_traverse, marked_nil.
Qed.

Lemma subsearch_1b_inside (bvs off w pw nbv p ws : Z) (accept : bool)
  (id_hits : list id_win) :
  in_bounds lnw len w -> marked pushes w id_hits ->
  triple (in_pass pushes lnw len p ws) (subsearch_1b index bvs off w pw nbv accept id_hits)
    (fun b s => marked pushes w (snd b) /\ in_pass pushes lnw len p ws s) (stopped pushes lnw len).
Proof.
  intros Hw Hm. unfold subsearch_1b.
  destruct (negb accept).
  2:{ apply triple_ret. intros s Hs. split; assumption. }
  apply triple_bind_gets. intros s0 Hs0.
  do 2 (apply triple_bind_vec_addr;
        [intros s Hs _; subst s; eapply inside_halted; [exact Hs0 | discriminate]
        | intros _]).
  destruct (build_key (isequence (read s0)) (wrap32 (w + pw)) (Z.to_nat pw) 0) as [keyr |].
  2:{ apply triple_stop. intros s Hs; subst s. eapply inside_halted; [exact Hs0 | discriminate]. }
  eapply triple_bind.
  { apply triple_vec_get with (Q := fun _ s => s = s0).
    - intros a s _ Hs. exact Hs.
    - intros s _ Hs; subst s. eapply inside_halted; [exact Hs0 | discriminate]. }
  intros kr.
  destruct (trie_R kr) as [t |].
  2:{ apply triple_ret. intros s Hs; subst s. split; assumption. }
  destruct (count kr >? minoccur).
  2:{ apply triple_ret. intros s Hs; subst s. split; assumption. }
  do 2 (apply triple_bind_vec_addr;
        [intros s Hs _; subst s; eapply inside_halted; [exact Hs0 | discriminate]
        | intros _]).
  eapply triple_bind.
  { apply triple_modify with (Q := fun _ s => in_pass pushes lnw len p ws s).
    intros s Hs; subst s. apply inside_log; [exact Hs0 |].
    constructor; [exact Hw | constructor]. }
  intros u. apply triple_ret. intros s Hs.
  split; [| exact Hs]. apply marked_traverse, Hm.
Qed.

Lemma record_hits_inside (w p ws : Z) (hs : list id_win) :
  in_bounds lnw len w -> marked pushes w hs ->
  triple (in_pass pushes lnw len p ws) (record_hits hs) (fun _ s => in_pass pushes lnw len p ws s) (stopped pushes lnw len).
Proof.
  intros Hw Hm. unfold record_hits.
  destruct hs as [| h hs'] eqn:Hhs.
  { apply triple_ret. auto. }
  rewrite <- Hhs in *. clear Hhs.
  eapply triple_bind.
  { apply triple_modify with (Q := fun _ s => in_pass pushes lnw len p ws s).
    intros s Hs. apply inside_log; [exact Hs |]. apply pushes_ok with w; assumption. }
  intros u. apply triple_modify.
  intros s (Hok & Hsz & Hp & Hws). repeat split; assumption.
Qed.

Lemma probe_window_inside (bvs off w p ws : Z) :
  in_bounds lnw len w ->
  triple (in_pass pushes lnw len p ws) (probe_window index bvs off w) (fun _ s => in_pass pushes lnw len p ws s) (stopped pushes lnw len).
Proof.
  intros Hw. unfold probe_window.
  eapply triple_bind.
  { apply triple_vec_get with (Q := fun _ s => in_pass pushes lnw len p ws s).
    - intros a s _ Hs. exact Hs.
    - intros s _ Hs. eapply inside_halted; [exact Hs | discriminate]. }
  intros pw. eapply triple_bind.
  { apply triple_vec_get with (Q := fun _ s => in_pass pushes lnw len p ws s).
    - intros a s _ Hs. exact Hs.
    - intros s _ Hs. eapply inside_halted; [exact Hs | discriminate]. }
  intros nbv. eapply triple_bind.
  { apply subsearch_1a_inside. exact Hw. }
  intros a. apply triple_assume. intros Ha.
  eapply triple_bind.
  { apply subsearch_1b_inside; [exact Hw | exact Ha]. }
  intros b. apply triple_assume. intros Hb.
  apply record_hits_inside with w; assumption.
Qed.

Lemma visit_window_inside (bvs off w p ws : Z) :
  in_bounds lnw len w ->
  triple (in_pass pushes lnw len p ws) (visit_window index bvs off w)
    (fun _ s => in_pass pushes lnw len p ws s) (stopped pushes lnw len).
Proof.
  intros Hw. unfold visit_window.
  apply triple_bind_gets. intros s0 Hs0.
  eapply triple_bind.
  { apply triple_vec_get with (Q := fun _ s => s = s0).
    - intros a s _ Hs. exact Hs.
    - intros s _ Hs; subst s. eapply inside_halted; [exact Hs0 | discriminate]. }
  intros b. destruct b.
  { apply triple_ret. intros s Hs; subst s. exact Hs0. }
  eapply triple_bind.
  { apply triple_modify with (Q := fun _ s => in_pass pushes lnw len p ws s).
    intros s Hs; subst s. exact Hs0. }
  intros u. eapply triple_bind.
  { apply triple_modify with (Q := fun _ s => in_pass pushes lnw len p ws s).
    intros s Hs. apply inside_log; [exact Hs |].
    constructor; [exact Hw | constructor]. }
  intros u'. apply probe_window_inside. exact Hw.
Qed.

(** *** Pass control *)

(** One [gets] or [modify] at the head of a run that is given as an equation. *)
Ltac step_gets Hrun := unfold bind at 1 in Hrun; unfold gets at 1 in Hrun.
Ltac step_modify Hrun := unfold bind at 1 in Hrun; unfold modify at 1 in Hrun.

Lemma stride_run (i : Z) (s : state) :
  stride index i s =
    match zlookup (skiplengths (opts index)) (index_num index) with
    | None => (Halt (UB (OutOfRange V_skiplengths (index_num index))), s)
    | Some row =>
        match zlookup row i with
        | Some v => (Val v, log [Stride_read i] s)
        | None => (Halt (UB (OutOfRange V_strides i)), log [Stride_read i] s)
        end
    end.
Proof.
  unfold stride, bind, vec_get, emit, modify, ret, stop.
  destruct (zlookup (skiplengths (opts index)) (index_num index)) as [row |];
    [| reflexivity].
  destruct (zlookup row i); reflexivity.
Qed.

(** What [stride] does, whichever way it ends. *)
Lemma stride_cases (i : Z) (s : state) :
  (exists v, zlookup (strides index) i = Some v /\
             stride index i s = (Val v, log [Stride_read i] s)) \/
  (exists f s', stride index i s = (Halt (UB f), s') /\
                (s' = s \/ s' = log [Stride_read i] s)).
Proof.
  rewrite stride_run. unfold strides.
  destruct (zlookup (skiplengths (opts index)) (index_num index)) as [row |]; cbn.
  - destruct (zlookup row i) as [v |].
    + left. exists v. auto.
    + right. eauto.
  - right. eauto.
Qed.

Lemma reads_strides_refl (s : state) : reads_strides s s.
Proof.
  repeat split. exists []. cbn. rewrite app_nil_r. reflexivity.
Qed.

Lemma reads_strides_trans (s0 s1 s2 : state) :
  reads_strides s0 s1 -> reads_strides s1 s2 -> reads_strides s0 s2.
Proof.
  intros (Hr & Hst & Ho & Hw & Hs & ixs & Ht) (Hr' & Hst' & Ho' & Hw' & Hs' & ixs' & Ht').
  repeat split; try congruence.
  exists (ixs ++ ixs'). rewrite Ht', Ht, map_app, app_assoc. reflexivity.
Qed.

Lemma reads_strides_log (i : Z) (s : state) : reads_strides s (log [Stride_read i] s).
Proof. repeat split. exists [i]. reflexivity. Qed.

Lemma reads_strides_pass (p : Z) (s : state) : reads_strides s (set_pass_n p s).
Proof. repeat split. exists []. cbn. rewrite app_nil_r. reflexivity. Qed.

(** The loop of lines 357-358, from any pass number. *)
Lemma skip_ahead_spec (fuel : nat) :
  forall (s s' : state) (r : res unit),
    0 <= pass_n s -> 0 < Z.of_nat fuel -> 3 - pass_n s < Z.of_nat fuel ->
    skip_ahead fuel index s = (r, s') ->
    reads_strides s s' /\
    r <> Halt OutOfFuel /\
    (r = Val tt ->
     pass_n s <= pass_n s' /\
     pass_n s' <= Z.max 3 (pass_n s) /\
     collapsed (strides index) (pass_n s) (pass_n s') /\
     (pass_n s' < 3 ->
      exists a b, zlookup (strides index) (pass_n s') = Some a /\
                  zlookup (strides index) (pass_n s' + 1) = Some b /\ a <> b) /\
     (pass_n s < 3 -> 2 <= pass_n s' -> is_Some (zlookup (strides index) 3))).
Proof.
  induction fuel as [| fuel IH]; intros s s' r Hp Hpos Hfuel Hrun; [lia |].
  cbn [skip_ahead] in Hrun. step_gets Hrun.
  destruct (Z.ltb_spec (pass_n s) 3) as [Hlt | Hge].
  2:{ unfold ret in Hrun. inversion Hrun; subst r s'.
      split; [apply reads_strides_refl |]. split; [discriminate |].
      intros _. split; [lia |]. split; [lia |].
      split; [intros i Hi; lia |]. split; intros; lia. }
  unfold bind at 1 in Hrun.
  destruct (stride_cases (pass_n s) s) as [(a & Ha & Hs1) | (f & s1 & Hs1 & Hcase)];
    rewrite Hs1 in Hrun.
  2:{ inversion Hrun; subst r s'. split.
      - destruct Hcase as [-> | ->]; [apply reads_strides_refl | apply reads_strides_log].
      - split; discriminate. }
  rewrite (wrap32_small (pass_n s + 1)) in Hrun by lia.
  unfold bind at 1 in Hrun.
  destruct (stride_cases (pass_n s + 1) (log [Stride_read (pass_n s)] s))
    as [(b & Hb & Hs2) | (f & s2 & Hs2 & Hcase)]; rewrite Hs2 in Hrun.
  2:{ inversion Hrun; subst r s'. split.
      - destruct Hcase as [-> | ->].
        + apply reads_strides_log.
        + eapply reads_strides_trans; apply reads_strides_log.
      - split; discriminate. }
  assert (Hlogs : reads_strides s
            (log [Stride_read (pass_n s + 1)] (log [Stride_read (pass_n s)] s)))
    by (eapply reads_strides_trans; apply reads_strides_log).
  destruct (Z.eqb_spec a b) as [Hab | Hab].
  - unfold bind, modify in Hrun.
    match type of Hrun with skip_ahead fuel index ?st = _ => set (s3 := st) in * end.
    assert (Hp3 : pass_n s3 = pass_n s + 1) by reflexivity.
    destruct (IH s3 s' r) as (Hfr & Hnf & Hval); [lia | lia | lia | exact Hrun |].
    split.
    { eapply reads_strides_trans; [| exact Hfr].
      eapply reads_strides_trans; [exact Hlogs | apply reads_strides_pass]. }
    split; [exact Hnf |].
    intros Hv. destruct (Hval Hv) as (Hle & Hmax & Hcol & Hne & H3).
    rewrite Hp3 in *.
    split; [lia |]. split; [lia |].
    split.
    { intros i Hi. destruct (Z.eq_dec i (pass_n s)) as [-> | Hni].
      - rewrite Ha, Hb, Hab. reflexivity.
      - apply Hcol. lia. }
    split; [exact Hne |].
    intros _ H2. destruct (Z.ltb_spec (pass_n s + 1) 3) as [Hl | Hg].
    + apply H3; [exact Hl | exact H2].
    + assert (pass_n s = 2) as E by lia. rewrite E in Hb. change (2 + 1) with 3 in Hb.
      rewrite Hb. eauto.
  - unfold ret in Hrun. inversion Hrun; subst r s'. cbn [log pass_n].
    split; [exact Hlogs |]. split; [discriminate |].
    intros _. split; [lia |]. split; [lia |].
    split; [intros i Hi; lia |].
    split.
    + intros _. exists a, b. auto.
    + intros _ H2. assert (pass_n s = 2) as E by lia. rewrite E in Hb. change (2 + 1) with 3 in Hb.
      rewrite Hb. eauto.
Qed.

(** Lines 350-363 when the chainer has left [search] true. *)
Lemma advance_pass_spec (s s' : state) (r : res unit) :
  advance_pass index s = (r, s') ->
  search s = true -> 0 <= pass_n s <= 2 ->
  read s' = read s /\ readstats s' = readstats s /\ output s' = output s /\
  (exists ixs : list Z, trace s' = trace s ++ map Stride_read ixs) /\
  (0 <= windowshift s < 2 ^ 32 -> 0 <= windowshift s' < 2 ^ 32) /\
  r <> Halt OutOfFuel /\
  (r = Val tt ->
   (pass_n s = 2 ->
    search s' = false /\ pass_n s' = 2 /\ windowshift s' = windowshift s) /\
   (pass_n s < 2 -> advanced (strides index) (pass_n s) s')).
Proof.
  intros Hrun Hsearch Hp.
  unfold advance_pass in Hrun. step_gets Hrun.
  rewrite Hsearch in Hrun. step_gets Hrun.
  destruct (Z.eqb_spec (pass_n s) 2) as [H2 | H2].
  { unfold modify in Hrun. inversion Hrun; subst r s'. cbn.
    repeat split; try assumption; try discriminate; try lia.
    exists []. cbn. rewrite app_nil_r. reflexivity. }
  unfold bind at 1 in Hrun.
  destruct (skip_ahead 4 index s) as [r1 s1] eqn:Hsk.
  apply skip_ahead_spec in Hsk; [| lia | lia | lia].
  destruct Hsk as ((Hr & Hst & Ho & Hw & Hs & ixs & Ht) & Hnf & Hval).
  destruct r1 as [[] | h].
  2:{ inversion Hrun; subst r s'.
      repeat split; try assumption; try discriminate; try lia; eauto. }
  destruct (Hval eq_refl) as (Hle & Hmax & Hcol & Hne & H3).
  step_gets Hrun.
  step_modify Hrun.
  rewrite (wrap32_small (pass_n s1 + 1)) in Hrun by lia.
  destruct (Z.gtb_spec (pass_n s1 + 1) 2) as [Hgt | Hle2].
  { unfold modify in Hrun. inversion Hrun; subst r s'. cbn.
    split; [exact Hr |]. split; [exact Hst |]. split; [exact Ho |].
    split; [eauto |]. split; [lia |]. split; [discriminate |].
    intros _. split; [lia |]. intros Hlt.
    unfold advanced. cbn.
    split; [lia |].
    split; [replace (pass_n s1 + 1 - 1) with (pass_n s1) by lia; exact Hcol |].
    split; [lia |].
    intros _. split; [reflexivity |]. apply H3; lia. }
  unfold bind at 1 in Hrun.
  destruct (stride_cases (pass_n s1 + 1) (set_pass_n (pass_n s1 + 1) s1))
    as [(v & Hv & Hs2) | (f & s2 & Hs2 & Hcase)]; rewrite Hs2 in Hrun.
  2:{ inversion Hrun; subst r s'.
      split; [destruct Hcase as [-> | ->]; exact Hr |].
      split; [destruct Hcase as [-> | ->]; exact Hst |].
      split; [destruct Hcase as [-> | ->]; exact Ho |].
      split.
      { destruct Hcase as [-> | ->]; cbn.
        - eauto.
        - exists (ixs ++ [pass_n s1 + 1]).
          rewrite Ht, map_app, app_assoc. reflexivity. }
      split; [destruct Hcase as [-> | ->]; cbn; lia |].
      split; discriminate. }
  unfold modify in Hrun. inversion Hrun; subst r s'. cbn.
  split; [exact Hr |]. split; [exact Hst |]. split; [exact Ho |].
  split.
  { exists (ixs ++ [pass_n s1 + 1]). rewrite Ht, map_app, app_assoc. reflexivity. }
  split; [intros _; apply wrap32_range |]. split; [discriminate |].
  intros _. split; [lia |]. intros Hlt.
  unfold advanced. cbn.
  split; [lia |].
  split; [replace (pass_n s1 + 1 - 1) with (pass_n s1) by lia; exact Hcol |].
  split; [| lia].
  intros _. split; [congruence |].
  exists v. split; [exact Hv |]. split; [reflexivity |].
  replace (pass_n s1 + 1 - 1) with (pass_n s1) by lia.
  destruct Hne as (a & b & Ha & Hb & Hab); [lia |].
  rewrite Ha. rewrite Hb in Hv. congruence.
Qed.

Lemma advance_pass_idle (s : state) :
  search s = false -> advance_pass index s = (Val tt, s).
Proof.
  intros Hs. unfold advance_pass, bind, gets. rewrite Hs. reflexivity.
Qed.

Lemma check_score_run (max_sw : Z) (s : state) :
  let c := compute_lis_alignment (read s) index refs (readstats s) (output s)
             (search s) max_sw (read_to_count s) in
  check_score index refs max_sw s =
    advance_pass index
      (log [Chain (pass_n s) (windowshift s) (c_search c)] (set_chained c s)).
Proof. reflexivity. Qed.

Lemma ok_strides (s s' : state) (ixs : list Z) :
  ok_trace pushes lnw len s -> trace s' = trace s ++ map Stride_read ixs ->
  ok_trace pushes lnw len s'.
Proof.
  intros Hok Ht. unfold ok_trace. rewrite Ht. apply Forall_app. split; [exact Hok |].
  apply Forall_map. apply Forall_forall. intros i _. exact I.
Qed.

(** The end of a pass: the chainer and the step to the next pass. *)
Lemma check_score_after (max_sw p ws : Z) :
  0 <= p <= 2 -> 0 <= ws < 2 ^ 32 ->
  triple (in_pass pushes lnw len p ws) (check_score index refs max_sw)
    (fun _ s' => at_loop_head pushes lnw len s' /\ progress p s')
    (stopped pushes lnw len).
Proof.
  intros Hp Hws s (Hok & Hsz & Hpn & Hwsn).
  pose proof (check_score_run max_sw s) as Hrun. cbn zeta in Hrun. rewrite Hrun. clear Hrun.
  set (c := compute_lis_alignment (read s) index refs (readstats s) (output s)
              (search s) max_sw (read_to_count s)).
  set (s2 := log [Chain (pass_n s) (windowshift s) (c_search c)] (set_chained c s)).
  assert (Hok2 : ok_trace pushes lnw len s2).
  { apply ok_log; [exact Hok |]. constructor; [exact I | constructor]. }
  assert (Hsz2 : size (read s2) = len).
  { cbn. unfold c. rewrite chainer_keeps_size. exact Hsz. }
  assert (Hpn2 : pass_n s2 = p) by exact Hpn.
  assert (Hws2 : windowshift s2 = ws) by exact Hwsn.
  destruct (search s2) eqn:Hsearch.
  2:{ rewrite (advance_pass_idle s2 Hsearch).
      split; [| left; exact Hsearch].
      split; [exact Hok2 |]. split; [exact Hsz2 |]. split; [lia |].
      rewrite Hsearch. discriminate. }
  destruct (advance_pass index s2) as [r s'] eqn:Hadv.
  destruct (advance_pass_spec s2 s' r Hadv Hsearch) as
    (Hr & _ & _ & (ixs & Ht) & Hwb & Hnf & Hval); [lia |].
  assert (Hok' : ok_trace pushes lnw len s') by (eapply ok_strides; eassumption).
  destruct r as [[] | h];
    [| split; [exact Hok' | intros E; apply Hnf; rewrite E; reflexivity]].
  destruct (Hval eq_refl) as [H2 Hlt].
  assert (Hsz' : size (read s') = len) by (rewrite Hr; exact Hsz2).
  destruct (Z.eq_dec p 2) as [E2 | N2].
  - destruct H2 as (Hs' & _ & _); [lia |].
    split; [| left; exact Hs'].
    split; [exact Hok' |]. split; [exact Hsz' |]. split; [apply Hwb; lia |].
    rewrite Hs'. discriminate.
  - destruct Hlt as (Hrange & _ & Hin & Hout); [lia |].
    rewrite Hpn2 in Hrange.
    destruct (Z.le_gt_cases (pass_n s') 2) as [Hle | Hgt].
    + destruct (Hin Hle) as (Hs' & _).
      split; [| right; split; [exact Hs' | lia]].
      split; [exact Hok' |]. split; [exact Hsz' |]. split; [apply Hwb; lia |].
      intros _. lia.
    + destruct Hout as (Hs' & _); [lia |].
      split; [| left; exact Hs'].
      split; [exact Hok' |]. split; [exact Hsz' |]. split; [apply Hwb; lia |].
      rewrite Hs'. discriminate.
Qed.

(** *** The window count *)

Lemma wrap64_le (z : Z) : 0 <= z -> wrap64 z <= z.
Proof. intros Hz. unfold wrap64. apply Z.mod_le; lia. Qed.

Lemma wrap64_nonneg (z : Z) : 0 <= wrap64 z.
Proof. unfold wrap64. apply Z.mod_pos_bound. lia. Qed.

(** The last of [numwin] windows at stride [ws] lies on the read. *)
Lemma numwin_last_window (n l ws : Z) :
  0 < ws -> l <= n ->
  (numwin_of n l ws - 1) * ws + l <= n.
Proof.
  intros Hws Hl. unfold numwin_of.
  set (d := n - l + ws).
  assert (Hd : 0 <= d) by lia.
  pose proof (wrap64_le d Hd) as H64. pose proof (wrap64_nonneg d) as H64'.
  assert (Hq : 0 <= wrap64 d / ws) by (apply Z.div_pos; lia).
  pose proof (wrap32_le (wrap64 d / ws) Hq) as H32.
  pose proof (Z.mul_div_le (wrap64 d) ws Hws) as Hmul.
  nia.
Qed.

(** A read that is long enough and shorter than 2^32 - 1 has a window. *)
Lemma numwin_positive (n l ws : Z) :
  0 < ws < 2 ^ 32 -> 0 <= l <= n -> n < 2 ^ 32 - 1 ->
  1 <= numwin_of n l ws.
Proof.
  intros Hws Hl Hn. unfold numwin_of.
  set (d := n - l + ws).
  assert (Hd : 0 <= d < 2 ^ 64) by lia.
  unfold wrap64. rewrite (Z.mod_small d) by exact Hd.
  assert (Hlow : 1 <= d / ws).
  { apply Z.div_le_lower_bound; lia. }
  assert (Hup : d / ws < 2 ^ 32).
  { apply Z.div_lt_upper_bound; [lia |]. nia. }
  rewrite wrap32_small by lia. exact Hlow.
Qed.

(** *** The window loop *)

Lemma windows_after (numwin max_sw bvs off p ws : Z) (n : nat) :
  0 <= p <= 2 -> 0 <= ws < 2 ^ 32 -> numwin < 2 ^ 32 ->
  forall win_num win_index : Z,
    0 <= win_num < numwin ->
    numwin - win_num <= Z.of_nat n ->
    0 <= win_index ->
    win_index + (numwin - 1 - win_num) * ws + lnw <= len ->
    triple (in_pass pushes lnw len p ws)
      (windows n index refs numwin max_sw bvs off win_num win_index)
      (fun _ s' => at_loop_head pushes lnw len s' /\ progress p s')
      (stopped pushes lnw len).
Proof.
  intros Hp Hws Hnw.
  induction n as [| n IH]; intros win_num win_index Hnum Hfuel Hwi Hlast; [lia |].
  cbn [windows].
  destruct (Z.ltb_spec win_num numwin) as [_ | Hge]; [| lia].
  eapply triple_bind.
  { apply visit_window_inside. split; [exact Hwi | nia]. }
  intros u. rewrite (wrap32_small (numwin - 1)) by lia.
  destruct (Z.eqb_spec win_num (numwin - 1)) as [Hlastw | Hmore].
  { apply check_score_after; assumption. }
  apply triple_bind_gets. intros s0 Hs0.
  assert (Hws0 : windowshift s0 = ws) by (destruct Hs0 as (_ & _ & _ & E); exact E).
  rewrite Hws0. rewrite (wrap32_small (win_num + 1)) by lia.
  eapply triple_conseq.
  - apply (IH (win_num + 1) (wrap32 (win_index + ws))).
    + lia.
    + lia.
    + apply wrap32_range.
    + pose proof (wrap32_le (win_index + ws)). nia.
  - intros s Hs; subst s. exact Hs0.
  - auto.
  - auto.
Qed.

(** *** The pass loop *)

(** The pass loop keeps the trace in bounds; given fuel for the passes that
    are left, and a read shorter than 2^32 - 1, it does not run out of fuel,
    and when it returns the search is over. *)
Lemma passes_spec (max_sw bvs off : Z) (fuel : nat) :
  forall (s s' : state) (r : res unit),
    at_loop_head pushes lnw len s ->
    passes fuel index refs max_sw bvs off s = (r, s') ->
    ok_trace pushes lnw len s' /\
    (r = Val tt -> search s' = false) /\
    (0 < Z.of_nat fuel -> (search s = true -> 3 - pass_n s < Z.of_nat fuel) ->
     0 <= lnw -> len < 2 ^ 32 - 1 -> r <> Halt OutOfFuel).
Proof.
  induction fuel as [| fuel IH]; intros s s' r Hhead Hrun.
  { cbn in Hrun. inversion Hrun; subst r s'.
    destruct Hhead as (Hok & _). split; [exact Hok |].
    split; [discriminate | intros; lia]. }
  destruct Hhead as (Hok & Hsz & Hws & Hpn).
  cbn [passes] in Hrun. step_gets Hrun.
  destruct (search s) eqn:Hsearch.
  2:{ unfold ret in Hrun. inversion Hrun; subst r s'.
      split; [exact Hok |]. split; [intros _; exact Hsearch | discriminate]. }
  specialize (Hpn eq_refl).
  step_gets Hrun.
  step_gets Hrun.
  unfold bind at 1 in Hrun. unfold vec_get at 1 in Hrun.
  rewrite lnw_current in Hrun. unfold ret at 1 in Hrun.
  destruct (Z.eqb_spec (windowshift s) 0) as [Hz | Hnz].
  { unfold stop in Hrun. inversion Hrun; subst r s'.
    split; [exact Hok |]. split; discriminate. }
  rewrite Hsz in Hrun.
  set (numwin := numwin_of len lnw (windowshift s)) in *.
  assert (Hnw : 0 <= numwin < 2 ^ 32) by apply wrap32_range.
  unfold bind at 1 in Hrun.
  destruct (Z.eq_dec numwin 0) as [Hzero | Hpos].
  - (* no window: the pass changes nothing *)
    rewrite Hzero in Hrun. cbn [Z.to_nat windows Z.ltb Z.compare] in Hrun.
    unfold ret at 1 in Hrun.
    destruct (IH s s' r) as (Hok' & Hdone & Hfuel);
      [repeat split; (assumption || lia || (intros _; lia)) | exact Hrun |].
    split; [exact Hok' |]. split; [exact Hdone |].
    intros _ _ Hl Hsmall. exfalso.
    pose proof (numwin_positive len lnw (windowshift s)) as Hone.
    fold numwin in Hone. lia.
  - pose proof (windows_after numwin max_sw bvs off (pass_n s) (windowshift s)
                  (S (Z.to_nat numwin))) as Hwin.
    specialize (Hwin ltac:(lia) ltac:(lia) ltac:(lia) 0 0
                  ltac:(lia) ltac:(lia) ltac:(lia)).
    assert (Hlast : 0 + (numwin - 1 - 0) * windowshift s + lnw <= len).
    { pose proof (numwin_last_window len lnw (windowshift s)) as Hl.
      fold numwin in Hl. lia. }
    specialize (Hwin Hlast s ltac:(repeat split; assumption)).
    destruct (windows (S (Z.to_nat numwin)) index refs numwin max_sw bvs off 0 0 s)
      as [[[] | h] s1].
    + destruct Hwin as [Hhead1 Hprog].
      destruct (IH s1 s' r Hhead1 Hrun) as (Hok' & Hdone & Hfuel).
      split; [exact Hok' |]. split; [exact Hdone |].
      intros Hpos' Hmeasure Hl Hsmall.
      specialize (Hmeasure eq_refl).
      apply Hfuel; try assumption; [lia |].
      intros Hs1. destruct Hprog as [Hoff | [_ Hlt]]; [congruence | lia].
    + inversion Hrun; subst r s'. destruct Hwin as [Hok' Hh].
      split; [exact Hok' |]. split; [discriminate |].
      intros _ _ _ _ E. inversion E. contradiction.
Qed.

(** *** The search of a read and the whole driver *)

Lemma search_read_spec (fuel : nat) (s s' : state) (r : res unit) :
  ok_trace pushes lnw len s -> size (read s) = len ->
  search_read fuel index refs s = (r, s') ->
  ok_trace pushes lnw len s' /\
  (r = Val tt -> search s' = false) /\
  ((4 <= fuel)%nat -> 0 <= lnw -> len < 2 ^ 32 - 1 -> r <> Halt OutOfFuel).
Proof.
  intros Hok Hsz Hrun.
  unfold search_read in Hrun. step_gets Hrun.
  unfold bind at 1 in Hrun.
  destruct (stride_cases 0 s) as [(v & Hv & Hs1) | (f & s1 & Hs1 & Hcase)];
    rewrite Hs1 in Hrun.
  2:{ inversion Hrun; subst r s'. split.
      - destruct Hcase as [-> | ->]; [exact Hok |].
        apply ok_log; [exact Hok | constructor; [exact I | constructor]].
      - split; discriminate. }
  step_modify Hrun.
  step_modify Hrun.
  step_modify Hrun.
  unfold bind at 1 in Hrun. unfold vec_get at 1 in Hrun.
  assert (Hok1 : ok_trace pushes lnw len (log [Stride_read 0] s))
    by (apply ok_log; [exact Hok | constructor; [exact I | constructor]]).
  destruct (zlookup (partialwin index) (index_num index)) as [pw |].
  2:{ unfold stop in Hrun. inversion Hrun; subst r s'.
      split; [exact Hok1 |]. split; discriminate. }
  unfold ret at 1 in Hrun. step_modify Hrun.
  match type of Hrun with passes _ _ _ _ _ _ ?st = _ => set (s4 := st) in * end.
  assert (Hhead : at_loop_head pushes lnw len s4).
  { split; [exact Hok1 |]. split; [exact Hsz |].
    split; [apply wrap32_range |]. intros _. cbn. lia. }
  destruct (passes_spec _ _ _ fuel s4 s' r Hhead Hrun) as (Hok' & Hdone & Hfuel).
  split; [exact Hok' |]. split; [exact Hdone |].
  intros H4 Hl Hsmall. apply Hfuel; try assumption; [lia |].
  intros _. cbn. lia.
Qed.

(** The driver on a read of [len] characters that is not left early. *)
Lemma run_search_spec (fuel : nat) (g : Globals) (rd : Read) (rs : Readstats)
  (out : Output) (r : res unit) (s' : state) :
  size rd = len -> early_exit g (opts index) rd = false ->
  run fuel g index refs rd rs out = (r, s') ->
  ok_trace pushes lnw len s' /\
  ((4 <= fuel)%nat -> 0 <= lnw -> len < 2 ^ 32 - 1 -> r <> Halt OutOfFuel).
Proof.
  intros Hsz Hexit Hrun.
  rewrite (long_enough_run fuel g index refs rd rs out lnw Hexit lnw_current) in Hrun
    by (rewrite Hsz; exact long_enough).
  unfold bind in Hrun.
  destruct (search_read fuel index refs
              (enter (stamped index rd) (update_read_len (size rd) rs) out))
    as [r1 s1] eqn:Hsearch.
  apply search_read_spec in Hsearch; [| constructor | exact Hsz].
  destruct Hsearch as (Hok1 & _ & Hfuel).
  destruct r1 as [[] | h].
  - rewrite finish_read_spec in Hrun. inversion Hrun; subst r s'.
    split; [exact Hok1 | discriminate].
  - inversion Hrun; subst r s'. split; [exact Hok1 | exact Hfuel].
Qed.

End LoopFacts.

(** ** The skip-ahead loop, step by step *)

Section StrideFacts.

Context `{Collaborators}.

(** [stride] when the strides of the index are [row]. *)
Lemma stride_at (index : Index NodeElement) (row : list Z) (i : Z) (s : state) :
  zlookup (skiplengths (opts index)) (index_num index) = Some row ->
  stride index i s =
    match zlookup row i with
    | Some v => (Val v, log [Stride_read i] s)
    | None => (Halt (UB (OutOfRange V_strides i)), log [Stride_read i] s)
    end.
Proof. intros Hrow. rewrite stride_run, Hrow. reflexivity. Qed.

(** One evaluation of the guard of line 357 with [pass_n < 3]. *)
Lemma skip_ahead_step (index : Index NodeElement) (row : list Z) (fuel : nat)
  (p a : Z) (s : state) :
  zlookup (skiplengths (opts index)) (index_num index) = Some row ->
  pass_n s = p -> 0 <= p < 3 -> zlookup row p = Some a ->
  skip_ahead (S fuel) index s =
    match zlookup row (p + 1) with
    | Some b =>
        if a =? b
        then skip_ahead fuel index
               (set_pass_n (p + 1) (log [Stride_read (p + 1)] (log [Stride_read p] s)))
        else (Val tt, log [Stride_read (p + 1)] (log [Stride_read p] s))
    | None =>
        (Halt (UB (OutOfRange V_strides (p + 1))),
         log [Stride_read (p + 1)] (log [Stride_read p] s))
    end.
Proof.
  intros Hrow Hp Hrange Ha.
  cbn [skip_ahead]. unfold bind at 1. unfold gets at 1. rewrite Hp.
  destruct (Z.ltb_spec p 3) as [_ | Hge]; [| lia].
  unfold bind at 1. rewrite (stride_at index row p s Hrow), Ha.
  unfold bind at 1. rewrite (wrap32_small (p + 1)) by lia.
  rewrite (stride_at index row (p + 1) _ Hrow).
  destruct (zlookup row (p + 1)) as [b |]; [| reflexivity].
  destruct (a =? b); reflexivity.
Qed.

(** Three strides whose last two are equal: the advance from pass 1, or from
    pass 0 when all three are equal, reads a fourth stride. *)
Lemma last_two_strides_equal_read_a_fourth
  (index : Index NodeElement) (a b : Z) (s : state) :
  zlookup (skiplengths (opts index)) (index_num index) = Some [a; b; b] ->
  a <= b ->
  search s = true ->
  pass_n s = 1 \/ (pass_n s = 0 /\ a = b) ->
  zlookup [a; b; b] 3 = None /\
  fst (advance_pass index s) = Halt (UB (OutOfRange V_strides 3)) /\
  In (Stride_read 3) (trace (snd (advance_pass index s))).
Proof.
  intros Hrow _ Hsearch Hp. split; [reflexivity |].
  assert (Hone : forall s1 : state, pass_n s1 = 1 ->
            skip_ahead 3 index s1 =
              (Halt (UB (OutOfRange V_strides 3)),
               log [Stride_read 3]
                 (log [Stride_read 2]
                    (set_pass_n 2 (log [Stride_read 2] (log [Stride_read 1] s1)))))).
  { intros s1 H1.
    rewrite (skip_ahead_step index [a; b; b] 2 1 b s1 Hrow H1 ltac:(lia) eq_refl).
    change (zlookup [a; b; b] (1 + 1)) with (Some b). cbv beta iota. rewrite Z.eqb_refl.
    erewrite (skip_ahead_step index [a; b; b] 1 2 b);
      [reflexivity | exact Hrow | reflexivity | lia | reflexivity]. }
  assert (Hskip : exists s2, skip_ahead 4 index s = (Halt (UB (OutOfRange V_strides 3)), s2)
                             /\ In (Stride_read 3) (trace s2)).
  { destruct Hp as [H1 | [H0 Hab]].
    - rewrite (skip_ahead_step index [a; b; b] 3 1 b s Hrow H1 ltac:(lia) eq_refl).
      change (zlookup [a; b; b] (1 + 1)) with (Some b). cbv beta iota. rewrite Z.eqb_refl.
      erewrite (skip_ahead_step index [a; b; b] 2 2 b);
        [| exact Hrow | reflexivity | lia | reflexivity].
      eexists. split; [reflexivity |]. cbn. apply in_or_app. right. left. reflexivity.
    - subst a.
      rewrite (skip_ahead_step index [b; b; b] 3 0 b s Hrow H0 ltac:(lia) eq_refl).
      change (zlookup [b; b; b] (0 + 1)) with (Some b). cbv beta iota. rewrite Z.eqb_refl.
      rewrite Hone by reflexivity.
      eexists. split; [reflexivity |]. cbn. apply in_or_app. right. left. reflexivity. }
  destruct Hskip as (s2 & Hrun & Hin).
  assert (Hadv : advance_pass index s = (Halt (UB (OutOfRange V_strides 3)), s2)).
  { unfold advance_pass. unfold bind at 1. unfold gets at 1. rewrite Hsearch.
    unfold bind at 1. unfold gets at 1.
    destruct (Z.eqb_spec (pass_n s) 2) as [E | _]; [lia |].
    unfold bind at 1. rewrite Hrun. reflexivity. }
  rewrite Hadv. split; [reflexivity | exact Hin].
Qed.

End StrideFacts.

(** ** The driver on a well-formed index and read

    With a window of two half-windows of at most 16 characters, bit vectors
    that have the elements the calls take the addresses of, a lookup table
    of [4 ^ partialwin] entries, three nonzero strides of which the last two
    differ, and a read of nucleotides shorter than 2^32 - 1, no operation of
    the driver is undefined and the driver returns. *)

Section SafeFacts.

Context `{Collaborators}.

Variables (index : Index NodeElement) (refs : References).
Variables (lnw pw nbv len s0 s1 s2 : Z).

Hypothesis lnw_current : zlookup (lnwin index) (index_num index) = Some lnw.
Hypothesis pw_current : zlookup (partialwin index) (index_num index) = Some pw.
Hypothesis nbv_current : zlookup (numbvs index) (index_num index) = Some nbv.
Hypothesis strides_current :
  zlookup (skiplengths (opts index)) (index_num index) = Some [s0; s1; s2].
Hypothesis window_halves : lnw = 2 * pw.
Hypothesis half_range : 1 <= pw <= 16.
Hypothesis bit_windows : bit_windows_fit pw.
Hypothesis table_size : Z.of_nat (List.length (lookup_tbl index)) = 4 ^ pw.
Hypothesis strides_nonzero : wrap32 s0 <> 0 /\ wrap32 s1 <> 0 /\ wrap32 s2 <> 0.
Hypothesis last_strides_differ : s1 <> s2.
Hypothesis chainer_keeps_sequences :
  forall rd i r rs out b m rtc,
    sequence (c_read (compute_lis_alignment rd i r rs out b m rtc)) = sequence rd /\
    isequence (c_read (compute_lis_alignment rd i r rs out b m rtc)) = isequence rd.
Hypothesis long_enough : lnw <= len.
Hypothesis read_small : len < 2 ^ 32 - 1.

(** The key of a half-window of nucleotides indexes the lookup table. *)
Lemma key_in_table (iseq : list Z) (start : Z) :
  Forall digit iseq -> 0 <= start ->
  start + pw <= Z.of_nat (List.length iseq) ->
  exists key kf,
    build_key iseq start (Z.to_nat pw) 0 = Some key /\
    zlookup (lookup_tbl index) key = Some kf.
Proof.
  intros Hdig Hstart Hlen.
  rewrite build_key_spec by lia.
  set (hw := half_window iseq start pw).
  assert (Hhw : Forall (fun c => 0 <= c < 4) hw).
  { unfold hw, half_window. apply Forall_take, Forall_drop. exact Hdig. }
  assert (Hl : Z.of_nat (List.length hw) = pw) by (apply half_window_length; lia).
  rewrite spec_key_msb_first by (assumption || lia).
  pose proof (msb_first_range hw Hhw) as Hr. rewrite Hl in Hr.
  destruct (lookup_lt_is_Some_2 (lookup_tbl index) (Z.to_nat (msb_first hw))) as [kf Hkf];
    [lia |].
  exists (msb_first hw), kf. split; [reflexivity |].
  unfold zlookup. destruct (Z.ltb_spec (msb_first hw) 0); [lia | exact Hkf].
Qed.

Lemma subsearch_1a_safe (bvs off w p ws : Z) :
  4 < bvs -> 0 <= off < bvs ->
  in_bounds lnw len w ->
  triple (safe_in_pass len p ws) (subsearch_1a index bvs off w pw nbv)
    (fun _ s => safe_in_pass len p ws s) never.
Proof.
  intros Hbvs Hoff [Hw0 Hw]. unfold subsearch_1a.
  apply triple_bind_gets. intros st Hst.
  do 2 (apply triple_bind_vec_addr; [intros s _ Hout; lia | intros _]).
  destruct Hst as ((Hsz & Hlen & Hdig & Hhits) & Hp & Hws).
  destruct (key_in_table (isequence (read st)) w Hdig Hw0 ltac:(lia))
    as (key & kf & Hkey & Hkf).
  rewrite Hkey.
  assert (Hsafe : safe_in_pass len p ws st) by (repeat split; assumption).
  eapply triple_bind.
  { apply triple_vec_get with (Q := fun a s => a = kf /\ s = st).
    - intros a s Ha Hs. split; congruence.
    - intros s Hnone _. congruence. }
  intros a. apply triple_assume. intros ->.
  destruct (trie_F kf) as [t |].
  2:{ apply triple_ret. intros s Hs; subst s. exact Hsafe. }
  destruct (count kf >? minoccur).
  2:{ apply triple_ret. intros s Hs; subst s. exact Hsafe. }
  do 2 (apply triple_bind_vec_addr; [intros s _ Hout; lia | intros _]).
  eapply triple_bind.
  { apply triple_modify with (Q := fun _ s => safe_in_pass len p ws s).
    intros s Hs; subst s. exact Hsafe. }
  intros u. apply triple_ret. auto.
Qed.

Lemma subsearch_1b_safe (bvs off w p ws : Z) (accept : bool) (id_hits : list id_win) :
  4 < bvs -> 0 <= off < bvs ->
  in_bounds lnw len w ->
  triple (safe_in_pass len p ws) (subsearch_1b index bvs off w pw nbv accept id_hits)
    (fun _ s => safe_in_pass len p ws s) never.
Proof.
  intros Hbvs Hoff [Hw0 Hw]. unfold subsearch_1b.
  destruct (negb accept).
  2:{ apply triple_ret. auto. }
  apply triple_bind_gets. intros st Hst.
  do 2 (apply triple_bind_vec_addr; [intros s _ Hout; lia | intros _]).
  destruct Hst as ((Hsz & Hlen & Hdig & Hhits) & Hp & Hws).
  rewrite (wrap32_small (w + pw)) by lia.
  destruct (key_in_table (isequence (read st)) (w + pw) Hdig ltac:(lia) ltac:(lia))
    as (key & kr & Hkey & Hkr).
  rewrite Hkey.
  assert (Hsafe : safe_in_pass len p ws st) by (repeat split; assumption).
  eapply triple_bind.
  { apply triple_vec_get with (Q := fun a s => a = kr /\ s = st).
    - intros a s Ha Hs. split; congruence.
    - intros s Hnone _. congruence. }
  intros a. apply triple_assume. intros ->.
  destruct (trie_R kr) as [t |].
  2:{ apply triple_ret. intros s Hs; subst s. exact Hsafe. }
  destruct (count kr >? minoccur).
  2:{ apply triple_ret. intros s Hs; subst s. exact Hsafe. }
  do 2 (apply triple_bind_vec_addr; [intros s _ Hout; lia | intros _]).
  eapply triple_bind.
  { apply triple_modify with (Q := fun _ s => safe_in_pass len p ws s).
    intros s Hs; subst s. exact Hsafe. }
  intros u. apply triple_ret. auto.
Qed.

Lemma record_hits_safe (p ws : Z) (hs : list id_win) :
  triple (safe_in_pass len p ws) (record_hits hs) (fun _ s => safe_in_pass len p ws s) never.
Proof.
  unfold record_hits. destruct hs as [| h hs'].
  { apply triple_ret. auto. }
  eapply triple_bind.
  { apply triple_modify with (Q := fun _ s => safe_in_pass len p ws s). auto. }
  intros u. apply triple_modify. auto.
Qed.

Lemma probe_window_safe (bvs off w p ws : Z) :
  4 < bvs -> 0 <= off < bvs ->
  in_bounds lnw len w ->
  triple (safe_in_pass len p ws) (probe_window index bvs off w)
    (fun _ s => safe_in_pass len p ws s) never.
Proof.
  intros Hbvs Hoff Hw. unfold probe_window, vec_get. rewrite pw_current, nbv_current.
  apply triple_bind_ret. apply triple_bind_ret.
  eapply triple_bind; [apply subsearch_1a_safe; assumption |]. intros a.
  eapply triple_bind; [apply subsearch_1b_safe; assumption |]. intros b.
  apply record_hits_safe.
Qed.

Lemma visit_window_safe (bvs off w p ws : Z) :
  4 < bvs -> 0 <= off < bvs ->
  in_bounds lnw len w ->
  triple (safe_in_pass len p ws) (visit_window index bvs off w)
    (fun _ s => safe_in_pass len p ws s) never.
Proof.
  intros Hbvs Hoff Hw. unfold visit_window.
  apply triple_bind_gets. intros st Hst.
  assert (Hhits : Z.of_nat (List.length (read_index_hits st)) = len)
    by (destruct Hst as ((_ & _ & _ & E) & _); exact E).
  destruct Hw as [Hw0 Hw].
  destruct (lookup_lt_is_Some_2 (read_index_hits st) (Z.to_nat w)) as [b Hb]; [lia |].
  unfold vec_get, zlookup. destruct (Z.ltb_spec w 0) as [Hneg | _]; [lia |].
  rewrite Hb. apply triple_bind_ret.
  destruct b.
  { apply triple_ret. intros s Hs; subst s. exact Hst. }
  eapply triple_bind.
  { apply triple_modify with (Q := fun _ s => safe_in_pass len p ws s).
    intros s Hs; subst s.
    destruct Hst as ((Hsz & Hlen & Hdig & Hh) & Hp & Hws).
    repeat split; try assumption. cbn. rewrite length_insert. exact Hh. }
  intros u. eapply triple_bind.
  { apply triple_modify with (Q := fun _ s => safe_in_pass len p ws s). auto. }
  intros u'. apply probe_window_safe; [exact Hbvs | exact Hoff | split; assumption].
Qed.

(** Lines 350-363 on three strides of which the last two differ. *)
Lemma advance_pass_safe (s : state) :
  search s = true -> 0 <= pass_n s <= 2 ->
  exists s' : state,
    advance_pass index s = (Val tt, s') /\
    read s' = read s /\ read_index_hits s' = read_index_hits s /\
    (search s' = false /\ windowshift s' = windowshift s \/
     search s' = true /\ pass_n s < pass_n s' <= 2 /\ 0 < windowshift s' < 2 ^ 32).
Proof.
  intros Hsearch Hp.
  destruct strides_nonzero as (Hn0 & Hn1 & Hn2).
  pose proof (wrap32_range s1) as Hr1. pose proof (wrap32_range s2) as Hr2.
  unfold advance_pass. unfold bind at 1. unfold gets at 1. rewrite Hsearch.
  unfold bind at 1. unfold gets at 1.
  destruct (Z.eqb_spec (pass_n s) 2) as [E2 | N2].
  { eexists. split; [reflexivity |]. cbn. auto. }
  assert (Hcases : pass_n s = 0 \/ pass_n s = 1) by lia.
  (* the skip-ahead loop stops at pass 0 or at pass 1 *)
  assert (Hskip : exists s3 : state,
             skip_ahead 4 index s = (Val tt, s3) /\
             read s3 = read s /\ read_index_hits s3 = read_index_hits s /\
             search s3 = true /\ pass_n s <= pass_n s3 <= 1).
  { destruct Hcases as [H0 | H1].
    - rewrite (skip_ahead_step index [s0; s1; s2] 3 0 s0 s strides_current H0
                 ltac:(lia) eq_refl).
      change (zlookup [s0; s1; s2] (0 + 1)) with (Some s1). cbv beta iota.
      destruct (s0 =? s1).
      + erewrite (skip_ahead_step index [s0; s1; s2] 2 1 s1);
          [| exact strides_current | reflexivity | lia | reflexivity].
        change (zlookup [s0; s1; s2] (1 + 1)) with (Some s2). cbv beta iota.
        destruct (Z.eqb_spec s1 s2) as [E | _]; [contradiction |].
        eexists. split; [reflexivity |]. cbn. rewrite H0. repeat split; (assumption || lia).
      + eexists. split; [reflexivity |]. cbn. rewrite H0. repeat split; (assumption || lia).
    - rewrite (skip_ahead_step index [s0; s1; s2] 3 1 s1 s strides_current H1
                 ltac:(lia) eq_refl).
      change (zlookup [s0; s1; s2] (1 + 1)) with (Some s2). cbv beta iota.
      destruct (Z.eqb_spec s1 s2) as [E | _]; [contradiction |].
      eexists. split; [reflexivity |]. cbn. rewrite H1. repeat split; (assumption || lia). }
  destruct Hskip as (s3 & Hrun & Hr & Hh & Hs3 & Hp3).
  unfold bind at 1. rewrite Hrun.
  unfold bind at 1. unfold gets at 1. unfold bind at 1. unfold modify at 1.
  rewrite (wrap32_small (pass_n s3 + 1)) by lia.
  destruct (Z.gtb_spec (pass_n s3 + 1) 2) as [Hgt | _]; [lia |].
  unfold bind at 1.
  rewrite (stride_at index [s0; s1; s2] _ _ strides_current).
  assert (Hq : pass_n s3 = 0 \/ pass_n s3 = 1) by lia.
  destruct Hq as [E | E]; rewrite E.
  - change (zlookup [s0; s1; s2] (0 + 1)) with (Some s1). cbv beta iota.
    eexists. split; [reflexivity |]. cbn.
    split; [exact Hr |]. split; [exact Hh |]. right.
    split; [exact Hs3 |]. split; lia.
  - change (zlookup [s0; s1; s2] (1 + 1)) with (Some s2). cbv beta iota.
    eexists. split; [reflexivity |]. cbn.
    split; [exact Hr |]. split; [exact Hh |]. right.
    split; [exact Hs3 |]. split; lia.
Qed.

Lemma check_score_safe (max_sw p ws : Z) :
  0 <= p <= 2 -> 0 < ws < 2 ^ 32 ->
  triple (safe_in_pass len p ws) (check_score index refs max_sw)
    (fun _ s' => safe_at_loop_head len s' /\ progress p s') never.
Proof.
  intros Hp Hws s ((Hsz & Hlen & Hdig & Hhits) & Hpn & Hwsn).
  pose proof (check_score_run index refs max_sw s) as Hrun. cbn zeta in Hrun.
  rewrite Hrun. clear Hrun.
  set (c := compute_lis_alignment (read s) index refs (readstats s) (output s)
              (search s) max_sw (read_to_count s)).
  set (st2 := log [Chain (pass_n s) (windowshift s) (c_search c)] (set_chained c s)).
  destruct (chainer_keeps_sequences (read s) index refs (readstats s) (output s)
              (search s) max_sw (read_to_count s)) as [Hseq Hiseq].
  fold c in Hseq, Hiseq.
  assert (Hwf2 : well_formed len st2).
  { unfold well_formed, size. cbn. rewrite Hseq, Hiseq. repeat split; assumption. }
  destruct (search st2) eqn:Hsearch.
  2:{ rewrite (advance_pass_idle index st2 Hsearch).
      split; [| left; exact Hsearch].
      split; [exact Hwf2 |]. split; [cbn; lia |]. rewrite Hsearch. discriminate. }
  destruct (advance_pass_safe st2 Hsearch) as (s' & Hadv & Hr & Hh & Hcases);
    [cbn; lia |].
  rewrite Hadv.
  assert (Hwf' : well_formed len s').
  { destruct Hwf2 as (A & B & C & D). unfold well_formed, size. rewrite Hr, Hh.
    repeat split; assumption. }
  destruct Hcases as [[Hoff Hsame] | (Hon & Hlt & Hstride)].
  - split; [| left; exact Hoff].
    split; [exact Hwf' |]. split; [rewrite Hsame; cbn; lia |].
    rewrite Hoff. discriminate.
  - assert (Hp2 : pass_n st2 = p) by exact Hpn.
    split; [| right; split; [exact Hon | lia]].
    split; [exact Hwf' |]. split; [exact Hstride |]. intros _. lia.
Qed.

Lemma windows_safe (numwin max_sw bvs off p ws : Z) (n : nat) :
  4 < bvs -> 0 <= off < bvs ->
  0 <= p <= 2 -> 0 < ws < 2 ^ 32 -> numwin < 2 ^ 32 ->
  forall win_num win_index : Z,
    0 <= win_num < numwin ->
    numwin - win_num <= Z.of_nat n ->
    0 <= win_index ->
    win_index + (numwin - 1 - win_num) * ws + lnw <= len ->
    triple (safe_in_pass len p ws)
      (windows n index refs numwin max_sw bvs off win_num win_index)
      (fun _ s' => safe_at_loop_head len s' /\ progress p s') never.
Proof.
  intros Hbvs Hoff Hp Hws Hnw.
  induction n as [| n IH]; intros win_num win_index Hnum Hfuel Hwi Hlast; [lia |].
  cbn [windows].
  destruct (Z.ltb_spec win_num numwin) as [_ | Hge]; [| lia].
  eapply triple_bind.
  { apply visit_window_safe; [exact Hbvs | exact Hoff | split; [exact Hwi | nia]]. }
  intros u. rewrite (wrap32_small (numwin - 1)) by lia.
  destruct (Z.eqb_spec win_num (numwin - 1)) as [Hlastw | Hmore].
  { apply check_score_safe; assumption. }
  apply triple_bind_gets. intros st Hst.
  assert (Hws0 : windowshift st = ws) by (destruct Hst as (_ & _ & E); exact E).
  rewrite Hws0. rewrite (wrap32_small (win_num + 1)) by lia.
  eapply triple_conseq.
  - apply (IH (win_num + 1) (wrap32 (win_index + ws))).
    + lia.
    + lia.
    + apply wrap32_range.
    + pose proof (wrap32_le (win_index + ws)). nia.
  - intros s Hs; subst s. exact Hst.
  - auto.
  - auto.
Qed.

(** Given fuel for the passes that are left, the pass loop returns. *)
Lemma passes_safe (max_sw bvs off : Z) (fuel : nat) :
  4 < bvs -> 0 <= off < bvs ->
  forall s : state,
    safe_at_loop_head len s ->
    0 < Z.of_nat fuel -> (search s = true -> 3 - pass_n s < Z.of_nat fuel) ->
    exists s' : state,
      passes fuel index refs max_sw bvs off s = (Val tt, s') /\ search s' = false.
Proof.
  intros Hbvs Hoff.
  induction fuel as [| fuel IH]; intros s (Hwf & Hws & Hpn) Hpos Hmeasure; [lia |].
  cbn [passes]. unfold bind at 1. unfold gets at 1.
  destruct (search s) eqn:Hsearch.
  2:{ exists s. split; [reflexivity | exact Hsearch]. }
  specialize (Hpn eq_refl). specialize (Hmeasure eq_refl).
  unfold bind at 1. unfold gets at 1. unfold bind at 1. unfold gets at 1.
  unfold bind at 1. unfold vec_get at 1. rewrite lnw_current. unfold ret at 1.
  destruct (Z.eqb_spec (windowshift s) 0) as [Hz | _]; [lia |].
  assert (Hsz : size (read s) = len) by (destruct Hwf as (E & _); exact E).
  rewrite Hsz.
  set (numwin := numwin_of len lnw (windowshift s)).
  assert (Hnw : 0 <= numwin < 2 ^ 32) by apply wrap32_range.
  assert (Hone : 1 <= numwin) by (apply numwin_positive; lia).
  assert (Hlast : 0 + (numwin - 1 - 0) * windowshift s + lnw <= len).
  { pose proof (numwin_last_window len lnw (windowshift s)) as Hl.
    fold numwin in Hl. lia. }
  pose proof (windows_safe numwin max_sw bvs off (pass_n s) (windowshift s)
                (S (Z.to_nat numwin)) Hbvs Hoff ltac:(lia) ltac:(lia) ltac:(lia) 0 0
                ltac:(lia) ltac:(lia) ltac:(lia) Hlast s
                ltac:(split; [exact Hwf | split; reflexivity])) as Hwin.
  unfold bind at 1.
  destruct (windows (S (Z.to_nat numwin)) index refs numwin max_sw bvs off 0 0 s)
    as [[[] | h] st1]; [| destruct Hwin].
  destruct Hwin as [Hhead Hprog].
  apply IH; [exact Hhead | lia |].
  intros Hst1. destruct Hprog as [Hdone | [_ Hlt]]; [congruence | lia].
Qed.

(** The search of a well-formed read returns. *)
Lemma search_read_safe (fuel : nat) (s : state) :
  (4 <= fuel)%nat ->
  size (read s) = len ->
  Z.of_nat (List.length (isequence (read s))) = len ->
  Forall digit (isequence (read s)) ->
  exists s' : state, search_read fuel index refs s = (Val tt, s').
Proof.
  intros Hfuel Hsz Hlen Hdig.
  destruct strides_nonzero as (Hn0 & _).
  pose proof (wrap32_range s0) as Hr0.
  unfold search_read. unfold bind at 1. unfold gets at 1.
  unfold bind at 1. rewrite (stride_at index [s0; s1; s2] 0 s strides_current).
  change (zlookup [s0; s1; s2] 0) with (Some s0). cbv beta iota.
  unfold bind at 1. unfold modify at 1.
  unfold bind at 1. unfold modify at 1.
  unfold bind at 1. unfold modify at 1.
  unfold bind at 1. unfold vec_get at 1. rewrite pw_current. unfold ret at 1.
  unfold bind at 1. unfold modify at 1.
  destruct bit_windows as [Hbvs Hoff].
  match goal with |- context [passes fuel index refs ?m ?b ?o ?st] =>
    destruct (passes_safe m b o fuel Hbvs
                (conj (proj1 (wrap32_range _)) Hoff) st) as (s' & Hrun & _) end.
  - split; [| split; [cbn; lia | intros _; cbn; lia]].
    unfold well_formed, size. cbn. fold (size (read s)).
    rewrite length_replicate. repeat split; (assumption || lia).
  - lia.
  - intros _. cbn. lia.
  - exists s'. exact Hrun.
Qed.

(** The driver on a well-formed index and read returns. *)
Lemma run_returns (fuel : nat) (g : Globals) (rd : Read) (rs : Readstats) (out : Output) :
  (4 <= fuel)%nat ->
  size rd = len ->
  Z.of_nat (List.length (isequence rd)) = len ->
  Forall digit (isequence rd) ->
  fst (run fuel g index refs rd rs out) = Val tt.
Proof.
  intros Hfuel Hsz Hlen Hdig.
  destruct (early_exit g (opts index) rd) eqn:Hexit.
  { rewrite (early_exit_run fuel g index refs rd rs out Hexit). reflexivity. }
  rewrite (long_enough_run fuel g index refs rd rs out lnw Hexit lnw_current)
    by (rewrite Hsz; exact long_enough).
  unfold bind.
  destruct (search_read_safe fuel
              (enter (stamped index rd) (update_read_len (size rd) rs) out)
              Hfuel Hsz Hlen Hdig) as (s' & Hrun).
  rewrite Hrun, finish_read_spec. reflexivity.
Qed.

End SafeFacts.

(** ** The driver as a whole *)

Section RunFacts.

Context `{Collaborators}.

Lemma ok_trace_in (pushes : bool) (lnw len : Z) (s : state) (e : event) :
  ok_trace pushes lnw len s -> In e (trace s) -> event_ok pushes lnw len e.
Proof.
  intros Hok Hin. unfold ok_trace in Hok.
  rewrite Forall_forall in Hok. apply Hok. exact Hin.
Qed.

(** The trace of a run on a read that is long enough is in bounds. *)
Lemma run_trace_ok
  (pushes : bool) (fuel : nat) (g : Globals) (index : Index NodeElement)
  (refs : References) (rd : Read) (rs : Readstats) (out : Output) (lnw : Z) :
  zlookup (lnwin index) (index_num index) = Some lnw ->
  lnw <= size rd ->
  (forall rd' i r rs' out' b m rtc,
      size (c_read (compute_lis_alignment rd' i r rs' out' b m rtc)) = size rd') ->
  (pushes = true ->
   forall t lev d bw o acc hits rid w pw,
     Forall (fun h => win h = w) hits ->
     Forall (fun h => win h = w)
       (snd (traversetrie_align t lev d bw o acc hits rid w pw))) ->
  ok_trace pushes lnw (size rd) (snd (run fuel g index refs rd rs out)).
Proof.
  intros Hlnw Hlong Hkeep Hmark.
  destruct (early_exit g (opts index) rd) eqn:Hexit.
  - rewrite (early_exit_run fuel g index refs rd rs out Hexit). constructor.
  - destruct (run fuel g index refs rd rs out) as [r s'] eqn:Hrun.
    exact (proj1 (run_search_spec index refs pushes lnw (size rd) Hlnw Hlong Hkeep Hmark
                    fuel g rd rs out r s' eq_refl Hexit Hrun)).
Qed.

(** C3.  On a read at least [lnwin] long, whatever the strides, every
    window the search loop searches or traverses a trie for starts at an
    offset [win_index] with [win_index + lnwin] within the encoded sequence,
    and so does the offset of every hit appended to [read.id_win_hits] (the
    traversal recording its hits under the offset it is given); the window
    count [numwin] of a pass puts the last window on the read. *)
Theorem probed_windows_lie_on_the_read
  (fuel : nat) (g : Globals) (index : Index NodeElement) (refs : References)
  (rd : Read) (rs : Readstats) (out : Output) (lnw : Z) :
  zlookup (lnwin index) (index_num index) = Some lnw ->
  lnw <= size rd ->
  Z.of_nat (List.length (isequence rd)) = size rd ->
  (forall rd' i r rs' out' b m rtc,
      size (c_read (compute_lis_alignment rd' i r rs' out' b m rtc)) = size rd') ->
  let tr := trace (snd (run fuel g index refs rd rs out)) in
  let n := Z.of_nat (List.length (isequence rd)) in
  (forall w, In (Search_window w) tr -> 0 <= w /\ w + lnw <= n) /\
  (forall k w, In (Traverse_F k w) tr \/ In (Traverse_R k w) tr ->
               0 <= w /\ w + lnw <= n) /\
  ((forall t lev d bw o acc hits rid w pw,
       Forall (fun h => win h = w) hits ->
       Forall (fun h => win h = w)
         (snd (traversetrie_align t lev d bw o acc hits rid w pw))) ->
   forall h, In (Push_hit h) tr -> 0 <= win h /\ win h + lnw <= n) /\
  (forall ws, 0 < ws -> (numwin_of (size rd) lnw ws - 1) * ws + lnw <= n).
Proof.
  intros Hlnw Hlong Henc Hkeep tr n. subst tr n. rewrite Henc.
  assert (Hfree : ok_trace false lnw (size rd) (snd (run fuel g index refs rd rs out))).
  { apply run_trace_ok; try assumption. discriminate. }
  split; [| split; [| split]].
  - intros w Hin. exact (ok_trace_in _ _ _ _ _ Hfree Hin).
  - intros k w [Hin | Hin]; exact (ok_trace_in _ _ _ _ _ Hfree Hin).
  - intros Hmark h Hin.
    assert (Hall : ok_trace true lnw (size rd) (snd (run fuel g index refs rd rs out))).
    { apply run_trace_ok; try assumption. intros _. exact Hmark. }
    exact (ok_trace_in _ _ _ _ _ Hall Hin).
  - intros ws Hws. apply numwin_last_window; assumption.
Qed.

(** The driver does not run out of fuel with four units or more. *)
Lemma run_has_fuel
  (fuel : nat) (g : Globals) (index : Index NodeElement) (refs : References)
  (rd : Read) (rs : Readstats) (out : Output) (lnw : Z) :
  zlookup (lnwin index) (index_num index) = Some lnw ->
  0 <= lnw -> size rd < 2 ^ 32 - 1 ->
  (forall rd' i r rs' out' b m rtc,
      size (c_read (compute_lis_alignment rd' i r rs' out' b m rtc)) = size rd') ->
  (4 <= fuel)%nat ->
  fst (run fuel g index refs rd rs out) <> Halt OutOfFuel.
Proof.
  intros Hlnw Hl Hsmall Hkeep Hfuel.
  destruct (early_exit g (opts index) rd) eqn:Hexit.
  { rewrite (early_exit_run fuel g index refs rd rs out Hexit). discriminate. }
  destruct (Z.lt_ge_cases (size rd) lnw) as [Hshort | Hlong].
  { rewrite (too_short_run fuel g index refs rd rs out lnw Hexit Hlnw Hshort).
    discriminate. }
  destruct (run fuel g index refs rd rs out) as [r s'] eqn:Hrun.
  assert (Hnone : false = true ->
            forall t lev d bw o acc hits rid w pw,
              Forall (fun h => win h = w) hits ->
              Forall (fun h => win h = w)
                (snd (traversetrie_align t lev d bw o acc hits rid w pw)))
    by discriminate.
  exact (proj2 (run_search_spec index refs false lnw (size rd) Hlnw Hlong Hkeep Hnone
                  fuel g rd rs out r s' eq_refl Hexit Hrun) Hfuel Hl Hsmall).
Qed.

(** On a searchable index and read the driver returns. *)
Lemma run_on_searchable
  (fuel : nat) (g : Globals) (index : Index NodeElement) (refs : References)
  (rd : Read) (rs : Readstats) (out : Output) (lnw pw nbv s0 s1 s2 : Z) :
  searchable_index index lnw pw nbv s0 s1 s2 -> searchable_read rd ->
  chainer_keeps_read -> (4 <= fuel)%nat ->
  fst (run fuel g index refs rd rs out) = Val tt.
Proof.
  intros (Hlnw & Hpw & Hnbv & Hrow & Hhalves & Hrange & Htbl & Hnz & Hdiff & Hbits)
    (Hsmall & Henc & Hdig) Hkeep Hfuel.
  destruct (early_exit g (opts index) rd) eqn:Hexit.
  { rewrite (early_exit_run fuel g index refs rd rs out Hexit). reflexivity. }
  destruct (Z.lt_ge_cases (size rd) lnw) as [Hshort | Hlong].
  { rewrite (too_short_run fuel g index refs rd rs out lnw Hexit Hlnw Hshort).
    reflexivity. }
  exact (run_returns index refs lnw pw nbv (size rd) s0 s1 s2 Hlnw Hpw Hnbv Hrow
           Hhalves Hrange Hbits Htbl Hnz Hdiff Hkeep Hlong Hsmall fuel g rd rs out
           Hfuel eq_refl Henc Hdig).
Qed.

(** The end of a pass, from the state the chainer is called in. *)
Lemma check_score_step
  (index : Index NodeElement) (refs : References) (max_sw : Z) (s s' : state) :
  check_score index refs max_sw s = (Val tt, s') ->
  0 <= pass_n s <= 2 ->
  let c := compute_lis_alignment (read s) index refs (readstats s) (output s)
             (search s) max_sw (read_to_count s) in
  (c_search c = false ->
   search s' = false /\ pass_n s' = pass_n s /\ windowshift s' = windowshift s) /\
  (c_search c = true -> pass_n s = 2 -> search s' = false) /\
  (c_search c = true -> pass_n s < 2 -> advanced (strides index) (pass_n s) s').
Proof.
  intros Hrun Hp c.
  pose proof (check_score_run index refs max_sw s) as Heq. cbn zeta in Heq.
  fold c in Heq. rewrite Heq in Hrun. clear Heq.
  set (s2 := log [Chain (pass_n s) (windowshift s) (c_search c)] (set_chained c s)) in *.
  split; [| split].
  - intros Hc. rewrite (advance_pass_idle index s2 Hc) in Hrun.
    inversion Hrun; subst s'. cbn. auto.
  - intros Hc H2.
    destruct (advance_pass_spec index s2 s' (Val tt) Hrun Hc Hp)
      as (_ & _ & _ & _ & _ & _ & Hval).
    destruct (Hval eq_refl) as [Hlast _]. destruct (Hlast H2) as [Hs _]. exact Hs.
  - intros Hc Hlt.
    destruct (advance_pass_spec index s2 s' (Val tt) Hrun Hc Hp)
      as (_ & _ & _ & _ & _ & _ & Hval).
    destruct (Hval eq_refl) as [_ Hadv]. exact (Hadv Hlt).
Qed.

End RunFacts.

(** ** [format_forward], the FASTQ branch and the terminator *)

Section FormatMoreFacts.

Variable nt_table : list Z.

(** The FASTQ loop appends the translation of every byte before the first
    end of line. *)
Lemma format_fastq_copies (pre : list Z) :
  forall (t : Z) (rest out acc : list Z),
    line_end t = true ->
    Forall (fun c => line_end c = false) pre ->
    Forall2 (fun c x => zlookup nt_table c = Some x) pre out ->
    format_fastq nt_table (pre ++ t :: rest) acc = Val (acc ++ out ++ [nl]).
Proof.
  induction pre as [| c pre IH]; intros t rest out acc Ht Hpre Hout.
  - inversion Hout; subst. simpl.
    unfold line_end in Ht. apply orb_true_iff in Ht.
    destruct Ht as [-> | ->]; [reflexivity | rewrite andb_false_r; reflexivity].
  - inversion Hout as [| c' x pre' out' Hc Hrest]; subst.
    inversion Hpre as [| c' pre' Hn Hpre']; subst.
    simpl. unfold line_end in Hn. apply orb_false_iff in Hn.
    destruct Hn as [-> ->]. simpl.
    unfold translate. rewrite Hc.
    rewrite (IH t rest out' (acc ++ [x]) Ht Hpre' Hrest).
    rewrite <- app_assoc. reflexivity.
Qed.

(** X1.  With a file signature other than [>], [format_forward] writes the
    [nt_table] translation of every byte before the first newline or
    carriage return, NUL and [>] included, and then a newline. *)
Theorem format_forward_fastq_copies_the_line
  (filesig : Z) (pre : list Z) (t : Z) (rest out : list Z) :
  filesig <> gt ->
  line_end t = true ->
  Forall (fun c => line_end c = false) pre ->
  Forall2 (fun c x => zlookup nt_table c = Some x) pre out ->
  format_forward nt_table (pre ++ t :: rest) filesig = Val (out ++ [nl]) /\
  List.length out = List.length pre.
Proof.
  intros Hsig Ht Hpre Hout. split.
  - unfold format_forward.
    destruct (Z.eqb_spec filesig gt) as [E | _]; [contradiction |].
    exact (format_fastq_copies pre t rest out [] Ht Hpre Hout).
  - symmetry. eapply Forall2_length; exact Hout.
Qed.

(** What a returned value of either loop tells about the memory read. *)
Lemma format_fasta_returns (mem : list Z) :
  forall acc out : list Z,
    format_fasta nt_table mem acc = Val out ->
    exists (pre : list Z) (t : Z) (rest codes : list Z),
      mem = pre ++ t :: rest /\ terminator gt t = true /\
      Forall (fun c => terminator gt c = false) pre /\
      Forall2 (fun c x => zlookup nt_table c = Some x) pre codes /\
      out = acc ++ codes ++ [nl].
Proof.
  induction mem as [| c mem IH]; intros acc out Hrun; [discriminate |].
  cbn [format_fasta] in Hrun.
  destruct (negb (c =? nul) && negb (c =? gt)) eqn:Hc.
  - rewrite fasta_guard_true in Hrun. unfold translate in Hrun.
    destruct (zlookup nt_table c) as [x |] eqn:Hx; [| discriminate].
    destruct (IH _ _ Hrun) as (pre & t & rest & codes & -> & Ht & Hpre & Hcodes & ->).
    exists (c :: pre), t, rest, (x :: codes).
    split; [reflexivity |]. split; [exact Ht |].
    split.
    + constructor; [| exact Hpre].
      unfold terminator. rewrite Z.eqb_refl.
      rewrite <- negb_orb in Hc. apply negb_true_iff in Hc. exact Hc.
    + split; [constructor; assumption |].
      rewrite <- app_assoc. reflexivity.
  - inversion Hrun; subst out.
    exists [], c, mem, [].
    split; [reflexivity |]. split.
    + unfold terminator. rewrite Z.eqb_refl.
      rewrite <- negb_orb in Hc. apply negb_false_iff in Hc. exact Hc.
    + split; [constructor |]. split; [constructor | reflexivity].
Qed.

Lemma format_fastq_returns (mem : list Z) :
  forall acc out : list Z,
    format_fastq nt_table mem acc = Val out ->
    exists (pre : list Z) (t : Z) (rest codes : list Z),
      mem = pre ++ t :: rest /\ line_end t = true /\
      Forall (fun c => line_end c = false) pre /\
      Forall2 (fun c x => zlookup nt_table c = Some x) pre codes /\
      out = acc ++ codes ++ [nl].
Proof.
  induction mem as [| c mem IH]; intros acc out Hrun; [discriminate |].
  cbn [format_fastq] in Hrun.
  destruct (negb (c =? nl) && negb (c =? cr)) eqn:Hc.
  - unfold translate in Hrun.
    destruct (zlookup nt_table c) as [x |] eqn:Hx; [| discriminate].
    destruct (IH _ _ Hrun) as (pre & t & rest & codes & -> & Ht & Hpre & Hcodes & ->).
    exists (c :: pre), t, rest, (x :: codes).
    split; [reflexivity |]. split; [exact Ht |].
    split.
    + constructor; [| exact Hpre].
      unfold line_end.
      rewrite <- negb_orb in Hc. apply negb_true_iff in Hc. exact Hc.
    + split; [constructor; assumption |].
      rewrite <- app_assoc. reflexivity.
  - inversion Hrun; subst out.
    exists [], c, mem, [].
    split; [reflexivity |]. split.
    + unfold line_end.
      rewrite <- negb_orb in Hc. apply negb_false_iff in Hc. exact Hc.
    + split; [constructor |]. split; [constructor | reflexivity].
Qed.

(** Either loop on memory that holds no terminator: it stops at the first
    byte that does not index [nt_table], and, when every byte does, at the
    end of the memory. *)
Lemma format_fasta_no_terminator (mem : list Z) :
  forall acc : list Z,
    Forall (fun c => terminator gt c = false) mem ->
    format_fasta nt_table mem acc =
      Halt (UB (match List.find (untranslatable nt_table) mem with
                | Some c => OutOfRange V_nt_table c
                | None => OutOfRange V_read_seq 0
                end)).
Proof.
  induction mem as [| c mem IH]; intros acc Hno; [reflexivity |].
  inversion Hno as [| c' mem' Hc Hrest]; subst.
  cbn [format_fasta List.find].
  unfold terminator in Hc. rewrite Z.eqb_refl in Hc.
  rewrite <- negb_orb, Hc. cbn [negb]. rewrite fasta_guard_true.
  unfold translate, untranslatable.
  destruct (zlookup nt_table c) as [x |]; [| reflexivity].
  apply IH. exact Hrest.
Qed.

Lemma format_fastq_no_terminator (mem : list Z) :
  forall acc : list Z,
    Forall (fun c => line_end c = false) mem ->
    format_fastq nt_table mem acc =
      Halt (UB (match List.find (untranslatable nt_table) mem with
                | Some c => OutOfRange V_nt_table c
                | None => OutOfRange V_read_seq 0
                end)).
Proof.
  induction mem as [| c mem IH]; intros acc Hno; [reflexivity |].
  inversion Hno as [| c' mem' Hc Hrest]; subst.
  cbn [format_fastq List.find].
  unfold line_end in Hc. rewrite <- negb_orb, Hc. cbn [negb].
  unfold translate, untranslatable.
  destruct (zlookup nt_table c) as [x |]; [| reflexivity].
  apply IH. exact Hrest.
Qed.

(** X2.  [format_forward] returns only when the memory from [read_seq] on
    holds a terminator (NUL or [>] for FASTA, newline or carriage return
    otherwise) and every byte before the first one indexes [nt_table]; what
    it has then written is the translation of those bytes and a newline.
    On memory without a terminator it does not return: it reads [nt_table]
    outside its bounds at the first byte that does not index it, and, when
    every byte indexes it, reads past the end of the memory. *)
Theorem format_forward_returns_only_at_a_terminator (mem : list Z) (filesig : Z) :
  (forall out : list Z,
      format_forward nt_table mem filesig = Val out ->
      exists (pre : list Z) (t : Z) (rest codes : list Z),
        mem = pre ++ t :: rest /\ terminator filesig t = true /\
        Forall (fun c => terminator filesig c = false) pre /\
        Forall2 (fun c x => zlookup nt_table c = Some x) pre codes /\
        out = codes ++ [nl] /\
        List.length out = S (List.length pre)) /\
  (Forall (fun c => terminator filesig c = false) mem ->
   format_forward nt_table mem filesig =
     Halt (UB (match List.find (untranslatable nt_table) mem with
               | Some c => OutOfRange V_nt_table c
               | None => OutOfRange V_read_seq 0
               end))).
Proof.
  assert (Hterm : filesig <> gt -> forall c, terminator filesig c = line_end c).
  { intros Hsig c. unfold terminator.
    destruct (Z.eqb_spec filesig gt); [contradiction | reflexivity]. }
  split.
  - unfold format_forward. intros out Hrun.
    destruct (Z.eqb_spec filesig gt) as [-> | Hsig].
    + destruct (format_fasta_returns mem [] out Hrun)
        as (pre & t & rest & codes & Hmem & Ht & Hpre & Hcodes & Hout).
      exists pre, t, rest, codes.
      split; [exact Hmem |]. split; [exact Ht |]. split; [exact Hpre |].
      split; [exact Hcodes |]. split; [exact Hout |].
      pose proof (Forall2_length Hcodes) as Hlen.
      rewrite Hout, !length_app, Hlen. cbn. lia.
    + destruct (format_fastq_returns mem [] out Hrun)
        as (pre & t & rest & codes & Hmem & Ht & Hpre & Hcodes & Hout).
      exists pre, t, rest, codes.
      split; [exact Hmem |]. split; [rewrite (Hterm Hsig); exact Ht |].
      split.
      { eapply Forall_impl; [| exact Hpre]. intros c Hc. rewrite (Hterm Hsig). exact Hc. }
      split; [exact Hcodes |]. split; [exact Hout |].
      pose proof (Forall2_length Hcodes) as Hlen.
      rewrite Hout, !length_app, Hlen. cbn. lia.
  - unfold format_forward. intros Hno.
    destruct (Z.eqb_spec filesig gt) as [-> | Hsig].
    + apply format_fasta_no_terminator. exact Hno.
    + apply format_fastq_no_terminator.
      eapply Forall_impl; [| exact Hno]. intros c Hc. rewrite <- (Hterm Hsig). exact Hc.
Qed.

End FormatMoreFacts.

(** ** [format_rev] *)

Section FormatRevFacts.

Lemma rc_lookup_in_table (c : Z) : 0 <= c < 128 -> rc_lookup c = inr (rc_code c).
Proof.
  intros Hc. unfold rc_lookup, rc_code, zlookup.
  destruct (Z.ltb_spec c 0) as [Hneg | _]; [lia |].
  destruct (rc_table !! Z.to_nat c) as [t |] eqn:Ht; [reflexivity |].
  apply lookup_ge_None in Ht. change (List.length rc_table) with 128%nat in Ht. lia.
Qed.

Lemma rc_lookup_outside (c : Z) :
  c < 0 \/ 128 <= c -> rc_lookup c = inl (Rc_table_index c).
Proof.
  intros Hc. unfold rc_lookup, zlookup.
  destruct (Z.ltb_spec c 0) as [Hneg | Hpos]; [reflexivity |].
  destruct (rc_table !! Z.to_nat c) as [t |] eqn:Ht; [| reflexivity].
  apply lookup_lt_Some in Ht. change (List.length rc_table) with 128%nat in Ht. lia.
Qed.

(** Every entry of [rc_table] is a code from 0 to 4. *)
Lemma rc_code_range (c : Z) : 0 <= rc_code c <= 4.
Proof.
  unfold rc_code, zlookup.
  destruct (Z.ltb_spec c 0) as [Hneg | Hpos]; [cbn; lia |].
  destruct (rc_table !! Z.to_nat c) as [t |] eqn:Ht; [| cbn; lia].
  cbn [default].
  assert (Hall : Forall (fun t => 0 <= t <= 4) rc_table).
  { unfold rc_table. repeat (constructor; [lia |]). constructor. }
  rewrite Forall_forall in Hall. apply Hall.
  apply list_elem_of_In. eapply list_elem_of_lookup_2. exact Ht.
Qed.

Lemma lookup_after (pre : list Z) (c : Z) (post : list Z) (n : nat) :
  n = List.length pre -> (pre ++ c :: post) !! n = Some c.
Proof. intros ->. apply list_lookup_middle. reflexivity. Qed.

(** The bytes of [body] that are no ends of line. *)
Lemma keep_snoc (body : list Z) (c : Z) :
  List.filter (fun c => negb (line_end c)) (body ++ [c]) =
  List.filter (fun c => negb (line_end c)) body ++ (if line_end c then [] else [c]).
Proof.
  rewrite List.filter_app. cbn. destruct (line_end c); reflexivity.
Qed.

(** The FASTA loop from the last byte of [body] down to [first]. *)
Lemma rev_fasta_run (pre : list Z) (first : Z) (body : list Z) :
  forall (post acc : list Z),
    0 <= first < 128 ->
    Forall (fun c => 0 <= c < 128) body ->
    rev_fasta (pre ++ first :: body ++ post) (List.length pre)
      (List.length pre + List.length body) acc =
    inr (acc ++ map rc_code (rev (List.filter (fun c => negb (line_end c)) body))
             ++ [rc_code first; nl]).
Proof.
  induction body as [| c body IH] using rev_ind; intros post acc Hfirst Hbody.
  - cbn [List.length]. rewrite Nat.add_0_r.
    destruct (List.length pre) as [| n] eqn:Hn.
    + cbn [rev_fasta]. rewrite Nat.eqb_refl.
      rewrite (lookup_after pre first ([] ++ post) 0 (eq_sym Hn)).
      rewrite (rc_lookup_in_table first Hfirst). reflexivity.
    + cbn [rev_fasta]. rewrite Nat.eqb_refl.
      rewrite (lookup_after pre first ([] ++ post) (S n) (eq_sym Hn)).
      rewrite (rc_lookup_in_table first Hfirst). reflexivity.
  - apply Forall_app in Hbody. destruct Hbody as [Hbody Hc].
    inversion Hc as [| c' l' Hc' _]; subst.
    rewrite length_app. cbn [List.length].
    replace (List.length pre + (List.length body + 1))%nat
      with (S (List.length pre + List.length body)) by lia.
    cbn [rev_fasta].
    destruct (Nat.eqb_spec (S (List.length pre + List.length body)) (List.length pre))
      as [E | _]; [lia |].
    assert (Hmem : pre ++ first :: (body ++ [c]) ++ post =
                   (pre ++ first :: body) ++ c :: post).
    { rewrite <- !app_assoc. reflexivity. }
    rewrite Hmem.
    rewrite (lookup_after (pre ++ first :: body) c post)
      by (rewrite length_app; cbn; lia).
    rewrite <- Hmem.
    assert (Hmem' : pre ++ first :: (body ++ [c]) ++ post =
                    pre ++ first :: body ++ (c :: post)).
    { rewrite <- app_assoc. reflexivity. }
    rewrite Hmem'. rewrite keep_snoc.
    unfold line_end at 2.
    destruct ((c =? nl) || (c =? cr)) eqn:Hend.
    + rewrite <- negb_orb, Hend. cbn [negb].
      rewrite (IH (c :: post) acc Hfirst Hbody). rewrite app_nil_r. reflexivity.
    + rewrite <- negb_orb, Hend. cbn [negb].
      rewrite (rc_lookup_in_table c Hc').
      rewrite (IH (c :: post) (acc ++ [rc_code c]) Hfirst Hbody).
      rewrite rev_app_distr. cbn [rev app map].
      rewrite <- !app_assoc. reflexivity.
Qed.

(** The FASTQ loop from the last byte of [body] down to the end of line
    before it. *)
Lemma rev_fastq_run (pre : list Z) (t : Z) (body : list Z) :
  forall (post acc : list Z),
    line_end t = true ->
    Forall (fun c => line_end c = false /\ 0 <= c < 128) body ->
    rev_fastq (pre ++ t :: body ++ post) (List.length pre + List.length body) acc =
    inr (acc ++ map rc_code (rev body) ++ [nl]).
Proof.
  induction body as [| c body IH] using rev_ind; intros post acc Ht Hbody.
  - cbn [List.length]. rewrite Nat.add_0_r.
    assert (Hl : (pre ++ t :: [] ++ post) !! List.length pre = Some t)
      by (apply lookup_after; reflexivity).
    unfold line_end in Ht.
    destruct (List.length pre) as [| n]; cbn [rev_fastq]; rewrite Hl;
      rewrite <- negb_orb, Ht; reflexivity.
  - apply Forall_app in Hbody. destruct Hbody as [Hbody Hc].
    inversion Hc as [| c' l' [Hend Hc'] _]; subst.
    rewrite length_app. cbn [List.length].
    replace (List.length pre + (List.length body + 1))%nat
      with (S (List.length pre + List.length body)) by lia.
    cbn [rev_fastq].
    assert (Hmem : pre ++ t :: (body ++ [c]) ++ post =
                   (pre ++ t :: body) ++ c :: post).
    { rewrite <- !app_assoc. reflexivity. }
    rewrite Hmem.
    rewrite (lookup_after (pre ++ t :: body) c post)
      by (rewrite length_app; cbn; lia).
    rewrite <- Hmem.
    assert (Hmem' : pre ++ t :: (body ++ [c]) ++ post =
                    pre ++ t :: body ++ (c :: post)).
    { rewrite <- app_assoc. reflexivity. }
    rewrite Hmem'.
    unfold line_end in Hend. rewrite <- negb_orb, Hend. cbn [negb].
    rewrite (rc_lookup_in_table c Hc').
    rewrite (IH (c :: post) (acc ++ [rc_code c]) Ht Hbody).
    rewrite rev_app_distr. cbn [rev app map].
    rewrite <- !app_assoc. reflexivity.
Qed.

(** X3.  For a FASTA read, [format_rev] walks from [end_read] down to
    [start_read]: it writes the [rc_table] code of every byte after
    [start_read] that is no newline or carriage return, last byte first, then
    the code of the byte at [start_read] whatever that byte is, and a newline.
    Every byte written before the newline is a code from 0 to 4. *)
Theorem format_rev_fasta_reverses_the_read
  (pre : list Z) (first : Z) (body post : list Z) :
  Forall (fun c => 0 <= c < 128) (first :: body) ->
  format_rev (pre ++ first :: body ++ post) (List.length pre)
    (List.length pre + List.length body) gt =
    inr (map rc_code (rev (List.filter (fun c => negb (line_end c)) body))
         ++ [rc_code first; nl]) /\
  Forall (fun x => 0 <= x <= 4)
    (map rc_code (rev (List.filter (fun c => negb (line_end c)) body))
     ++ [rc_code first]).
Proof.
  intros Hall. inversion Hall as [| c l Hfirst Hbody]; subst.
  split.
  - unfold format_rev. rewrite Z.eqb_refl.
    exact (rev_fasta_run pre first body post [] Hfirst Hbody).
  - apply Forall_app. split.
    + apply Forall_map. apply Forall_forall. intros c _. apply rc_code_range.
    + constructor; [apply rc_code_range | constructor].
Qed.

(** X4.  For a FASTQ read, [format_rev] ignores [start_read]: it walks from
    [end_read] down to the nearest newline or carriage return and writes the
    [rc_table] codes of the bytes passed, last byte first, and a newline. *)
Theorem format_rev_fastq_reverses_the_line
  (filesig : Z) (start_read : nat) (pre : list Z) (t : Z) (body post : list Z) :
  filesig <> gt ->
  line_end t = true ->
  Forall (fun c => line_end c = false /\ 0 <= c < 128) body ->
  format_rev (pre ++ t :: body ++ post) start_read
    (List.length pre + List.length body) filesig =
    inr (map rc_code (rev body) ++ [nl]).
Proof.
  intros Hsig Ht Hbody. unfold format_rev.
  destruct (Z.eqb_spec filesig gt) as [E | _]; [contradiction |].
  exact (rev_fastq_run pre t body post [] Ht Hbody).
Qed.

(** The FASTA loop entered with [end_read] before [start_read]. *)
Lemma outside_rc_lookup (c : Z) :
  rc_lookup c = if outside_rc_table c then inl (Rc_table_index c) else inr (rc_code c).
Proof.
  unfold rc_lookup, outside_rc_table, rc_code.
  destruct (zlookup rc_table c); reflexivity.
Qed.

Lemma line_end_in_table (c : Z) : line_end c = true -> outside_rc_table c = false.
Proof.
  unfold line_end, nl, cr. intros Hc. apply orb_true_iff in Hc.
  destruct Hc as [Hc | Hc]; apply Z.eqb_eq in Hc; subst c; reflexivity.
Qed.

(** The bytes of the buffer from offset [end_read] down to its first one. *)
Lemma backwards_step (mem : list Z) (e : nat) (c : Z) :
  mem !! S e = Some c ->
  rev (take (S (S e)) mem) = c :: rev (take (S e) mem).
Proof.
  intros Hc. rewrite (take_S_r mem (S e) c Hc), rev_app_distr. reflexivity.
Qed.

Lemma backwards_first (mem : list Z) (c : Z) :
  mem !! 0%nat = Some c -> rev (take 1 mem) = [c].
Proof.
  intros Hc. destruct mem as [| x mem]; [discriminate |].
  cbn in Hc. injection Hc as ->. reflexivity.
Qed.

(** The FASTA loop from an offset before [start_read]. *)
Lemma rev_fasta_below (mem : list Z) (start_read : nat) (end_read : nat) :
  forall acc : list Z,
    (end_read < start_read)%nat ->
    (end_read < List.length mem)%nat ->
    rev_fasta mem start_read end_read acc =
      inl (match List.find outside_rc_table (rev (take (S end_read) mem)) with
           | Some c => Rc_table_index c
           | None => Read_index (-1)
           end).
Proof.
  induction end_read as [| e IH]; intros acc Hlt Hin.
  - cbn [rev_fasta].
    destruct (Nat.eqb_spec 0 start_read) as [E | _]; [lia |].
    destruct (lookup_lt_is_Some_2 mem 0 Hin) as [c Hc].
    rewrite Hc, (backwards_first mem c Hc). cbn [List.find].
    destruct (negb (c =? nl) && negb (c =? cr)) eqn:Hend.
    + rewrite outside_rc_lookup. destruct (outside_rc_table c); reflexivity.
    + rewrite line_end_in_table; [reflexivity |].
      unfold line_end. rewrite <- negb_orb in Hend. apply negb_false_iff in Hend. exact Hend.
  - cbn [rev_fasta].
    destruct (Nat.eqb_spec (S e) start_read) as [E | _]; [lia |].
    destruct (lookup_lt_is_Some_2 mem (S e) Hin) as [c Hc].
    rewrite Hc, (backwards_step mem e c Hc). cbn [List.find].
    destruct (negb (c =? nl) && negb (c =? cr)) eqn:Hend.
    + rewrite outside_rc_lookup. destruct (outside_rc_table c); [reflexivity |].
      apply IH; lia.
    + rewrite line_end_in_table.
      * apply IH; lia.
      * unfold line_end. rewrite <- negb_orb in Hend. apply negb_false_iff in Hend.
        exact Hend.
Qed.

(** The FASTQ loop on a buffer without an end of line up to [end_read]. *)
Lemma rev_fastq_no_line_end (mem : list Z) (end_read : nat) :
  forall acc : list Z,
    Forall (fun c => line_end c = false) (take (S end_read) mem) ->
    (end_read < List.length mem)%nat ->
    rev_fastq mem end_read acc =
      inl (match List.find outside_rc_table (rev (take (S end_read) mem)) with
           | Some c => Rc_table_index c
           | None => Read_index (-1)
           end).
Proof.
  induction end_read as [| e IH]; intros acc Hno Hin.
  - cbn [rev_fastq].
    destruct (lookup_lt_is_Some_2 mem 0 Hin) as [c Hc].
    rewrite Hc. rewrite (backwards_first mem c Hc).
    assert (Hend : line_end c = false).
    { destruct mem as [| x mem]; [discriminate |].
      cbn in Hc. injection Hc as ->. inversion Hno; assumption. }
    unfold line_end in Hend. rewrite <- negb_orb, Hend. cbn [negb List.find].
    rewrite outside_rc_lookup. destruct (outside_rc_table c); reflexivity.
  - cbn [rev_fastq].
    destruct (lookup_lt_is_Some_2 mem (S e) Hin) as [c Hc].
    rewrite Hc, (backwards_step mem e c Hc). cbn [List.find].
    rewrite (take_S_r mem (S e) c Hc) in Hno. apply Forall_app in Hno.
    destruct Hno as [Hbefore Hlast].
    assert (Hend : line_end c = false) by (inversion Hlast; assumption).
    unfold line_end in Hend. rewrite <- negb_orb, Hend. cbn [negb].
    rewrite outside_rc_lookup. destruct (outside_rc_table c); [reflexivity |].
    apply IH; [exact Hbefore | lia].
Qed.

Lemma rev_outside_table (mem : list Z) (start_read end_read : nat) (filesig c : Z) :
  mem !! end_read = Some c -> c < 0 \/ 128 <= c ->
  format_rev mem start_read end_read filesig = inl (Rc_table_index c).
Proof.
  intros Hc Hout.
  assert (Hend : negb (c =? nl) && negb (c =? cr) = true).
  { unfold nl, cr. destruct Hout as [Hneg | Hbig].
    - destruct (Z.eqb_spec c 10); [lia |]. destruct (Z.eqb_spec c 13); [lia | reflexivity].
    - destruct (Z.eqb_spec c 10); [lia |]. destruct (Z.eqb_spec c 13); [lia | reflexivity]. }
  unfold format_rev. destruct (filesig =? gt).
  - destruct end_read as [| e]; cbn [rev_fasta];
      match goal with |- context [Nat.eqb ?a ?b] => destruct (Nat.eqb a b) end;
      rewrite Hc, ?Hend, (rc_lookup_outside c Hout); reflexivity.
  - destruct end_read as [| e]; cbn [rev_fastq];
      rewrite Hc, Hend, (rc_lookup_outside c Hout); reflexivity.
Qed.

(** X5.  [format_rev] does not return when its loop has no place to stop:
    for a FASTA read whose [end_read] lies before [start_read], and for a
    FASTQ read with no newline or carriage return at or before [end_read],
    [end_read] lying in the buffer, it goes backwards through the buffer
    until it reads [rc_table] with a byte outside 0..127 or, when it meets
    none, reads the buffer at offset -1, before its first byte.  And a byte
    outside 0..127 at [end_read] is an access outside [rc_table], whatever
    the other arguments. *)
Theorem format_rev_walks_off_the_buffer
  (mem : list Z) (start_read end_read : nat) (filesig : Z) :
  ((if filesig =? gt then (end_read < start_read)%nat
    else Forall (fun c => line_end c = false) (take (S end_read) mem)) ->
   (end_read < List.length mem)%nat ->
   format_rev mem start_read end_read filesig =
     inl (match List.find outside_rc_table (rev (take (S end_read) mem)) with
          | Some c => Rc_table_index c
          | None => Read_index (-1)
          end)) /\
  (forall c : Z, mem !! end_read = Some c -> c < 0 \/ 128 <= c ->
     format_rev mem start_read end_read filesig = inl (Rc_table_index c)).
Proof.
  split.
  - unfold format_rev. destruct (filesig =? gt); intros Hno Hin.
    + apply rev_fasta_below; assumption.
    + apply rev_fastq_no_line_end; assumption.
  - intros c. apply rev_outside_table.
Qed.

End FormatRevFacts.

(** ** [format_forward] and [format_rev] together *)

Section ReverseComplementFacts.

Variable nt_table : list Z.

(** The bytes that [rc_table] maps to a nucleotide are letters: none is an
    end of line, NUL or [>]. *)
Lemma rc_nucleotide (c y : Z) :
  zlookup rc_table c = Some y -> y < 4 ->
  line_end c = false /\ c <> nul /\ c <> gt /\ 0 <= c < 128.
Proof.
  intros Hc Hy.
  assert (Hrange : 0 <= c < 128).
  { unfold zlookup in Hc. destruct (Z.ltb_spec c 0) as [Hneg | Hpos]; [discriminate |].
    apply lookup_lt_Some in Hc. change (List.length rc_table) with 128%nat in Hc. lia. }
  assert (Hall : forallb (fun c => match zlookup rc_table c with
                                   | Some y => implb (y <? 4)
                                                 (negb (line_end c) && negb (c =? nul)
                                                  && negb (c =? gt))
                                   | None => true
                                   end) (seqZ 0 128) = true)
    by (vm_compute; reflexivity).
  rewrite forallb_forall in Hall.
  specialize (Hall c). rewrite Hc in Hall.
  destruct (Z.ltb_spec y 4) as [_ | Hge]; [| lia]. cbn [implb] in Hall.
  assert (Hin : In c (seqZ 0 128)).
  { apply list_elem_of_In. apply elem_of_seqZ. lia. }
  specialize (Hall Hin).
  apply andb_true_iff in Hall. destruct Hall as [Hall Hgt].
  apply andb_true_iff in Hall. destruct Hall as [Hend Hnul].
  apply negb_true_iff in Hend, Hnul, Hgt.
  split; [exact Hend |].
  split; [intros E; rewrite E, Z.eqb_refl in Hnul; discriminate |].
  split; [intros E; rewrite E, Z.eqb_refl in Hgt; discriminate | exact Hrange].
Qed.

Lemma complement_of_range (x : Z) : 0 <= x < 4 -> 0 <= complement_of x < 4.
Proof.
  intros Hx.
  assert (x = 0 \/ x = 1 \/ x = 2 \/ x = 3) as [-> | [-> | [-> | ->]]] by lia.
  - change (complement_of 0) with 3. lia.
  - change (complement_of 1) with 2. lia.
  - change (complement_of 2) with 1. lia.
  - change (complement_of 3) with 0. lia.
Qed.

Hypothesis agree : tables_agree nt_table.

(** A byte encoded as a nucleotide. *)
Lemma encoded_nucleotide (c x : Z) :
  zlookup nt_table c = Some x -> 0 <= x < 4 ->
  rc_code c = complement_of x /\
  line_end c = false /\ c <> nul /\ c <> gt /\ 0 <= c < 128.
Proof.
  intros Hc Hx. pose proof (agree c x Hc Hx) as Hrc.
  split; [unfold rc_code; rewrite Hrc; reflexivity |].
  apply (rc_nucleotide c (complement_of x) Hrc).
  pose proof (complement_of_range x Hx). lia.
Qed.

Lemma encoded_read (body fw : list Z) :
  Forall2 (fun c x => zlookup nt_table c = Some x /\ 0 <= x < 4) body fw ->
  map rc_code body = map complement_of fw /\
  Forall (fun c => line_end c = false /\ 0 <= c < 128) body /\
  Forall (fun c => c <> nul /\ c <> gt) body /\
  Forall2 (fun c x => zlookup nt_table c = Some x) body fw.
Proof.
  induction 1 as [| c x body fw [Hc Hx] Hrest (IHm & IHl & IHt & IHf)].
  - repeat split; constructor.
  - destruct (encoded_nucleotide c x Hc Hx) as (Hrc & Hend & Hnul & Hgt & Hrange).
    split; [cbn; rewrite Hrc, IHm; reflexivity |].
    split; [constructor; [split; assumption | exact IHl] |].
    split; [constructor; [split; assumption | exact IHt] |].
    constructor; assumption.
Qed.

(** X6.  On a read of nucleotides, without an end of line inside,
    [format_rev] writes the reverse complement of what [format_forward]
    writes: the codes of [format_forward] in reverse order, each replaced by
    its [complement].  For FASTQ the byte before the read is an end of
    line. *)
Theorem format_rev_complements_format_forward
  (filesig : Z) (pre body : list Z) (t : Z) (rest fw : list Z) :
  body <> [] ->
  Forall2 (fun c x => zlookup nt_table c = Some x /\ 0 <= x < 4) body fw ->
  terminator filesig t = true ->
  (filesig <> gt -> exists pre' u, pre = pre' ++ [u] /\ line_end u = true) ->
  format_forward nt_table (body ++ t :: rest) filesig = Val (fw ++ [nl]) /\
  format_rev (pre ++ body ++ t :: rest) (List.length pre)
    (List.length pre + List.length body - 1) filesig =
    inr (map complement_of (rev fw) ++ [nl]).
Proof.
  intros Hne Henc Ht Hbefore.
  destruct (encoded_read body fw Henc) as (Hmap & Hline & Hterm & Hfw).
  assert (Hrev : map rc_code (rev body) = map complement_of (rev fw)).
  { rewrite !map_rev, Hmap. reflexivity. }
  unfold format_forward, format_rev, terminator in *.
  destruct (Z.eqb_spec filesig gt) as [-> | Hsig].
  - split.
    + apply (format_fasta_copies nt_table body t rest fw []); [| exact Hterm | exact Hfw].
      apply orb_true_iff in Ht. destruct Ht as [E | E]; apply Z.eqb_eq in E; auto.
    + destruct body as [| first body]; [contradiction |].
      inversion Hline as [| c l [_ Hfirst] Hbody]; subst.
      cbn [List.length].
      replace (List.length pre + S (List.length body) - 1)%nat
        with (List.length pre + List.length body)%nat by lia.
      change (pre ++ (first :: body) ++ t :: rest)
        with (pre ++ first :: body ++ t :: rest).
      rewrite (rev_fasta_run pre first body (t :: rest) [] Hfirst).
      2:{ eapply Forall_impl; [| exact Hbody]. intros c [_ Hc]. exact Hc. }
      assert (Hkeep : List.filter (fun c => negb (line_end c)) body = body).
      { clear - Hbody. induction body as [| c body IH]; [reflexivity |].
        inversion Hbody as [| c' l' [Hc _] Hrest]; subst.
        cbn. rewrite Hc. cbn. rewrite (IH Hrest). reflexivity. }
      rewrite Hkeep. rewrite <- Hrev. cbn [rev app].
      rewrite map_app. cbn [map app]. rewrite <- app_assoc. reflexivity.
  - split.
    + apply (format_fastq_copies nt_table body t rest fw []); [exact Ht | | exact Hfw].
      eapply Forall_impl; [| exact Hline]. intros c [Hc _]. exact Hc.
    + destruct (Hbefore Hsig) as (pre' & u & -> & Hu).
      rewrite length_app. cbn [List.length].
      assert (Hlen : (List.length body <> 0)%nat) by (destruct body; [contradiction | discriminate]).
      replace (List.length pre' + 1 + List.length body - 1)%nat
        with (List.length pre' + List.length body)%nat by lia.
      rewrite <- app_assoc. cbn [app].
      rewrite (rev_fastq_run pre' u body (t :: rest) [] Hu Hline).
      rewrite Hrev. reflexivity.
Qed.

End ReverseComplementFacts.

(** ** Keys of windows with a character that is no nucleotide *)

Section InvalidCharacterFacts.

Context `{Collaborators}.

(** In the key, the code 4 sets the low bit of the character before it. *)
Lemma key_step_four (key a : Z) :
  key_step (key_step key a) 4 = key_step (key_step key (Z.lor a 1)) 0.
Proof.
  unfold key_step. rewrite !wrap32_land.
  change 4 with (Z.shiftl 1 2).
  apply Z.bits_inj'. intros i Hi.
  rewrite !Z.lor_spec, !Z.land_spec.
  destruct (Z.ltb_spec i 2) as [Hlt | Hge].
  - rewrite !Z.shiftl_spec_low by lia. rewrite Z.bits_0. reflexivity.
  - rewrite !Z.shiftl_spec by lia.
    rewrite !Z.lor_spec, !Z.land_spec, !Z.lor_spec, Z.bits_0.
    destruct (Z.ltb_spec i 32) as [Hlt | Hge32].
    + rewrite !Z.ones_spec_low by lia. rewrite !andb_true_r, orb_false_r.
      rewrite <- !orb_assoc. reflexivity.
    + rewrite (Z.ones_spec_high 32 i) by lia. rewrite !andb_false_r. reflexivity.
Qed.

Lemma fold_key_step_four (l1 l2 : list Z) (a key : Z) :
  fold_left key_step (l1 ++ a :: 4 :: l2) key =
  fold_left key_step (l1 ++ Z.lor a 1 :: 0 :: l2) key.
Proof.
  rewrite !fold_left_app. cbn [fold_left]. rewrite key_step_four. reflexivity.
Qed.

(** X7.  The key loop does not treat the code 4 of a character that is no
    nucleotide apart: inside a half-window, a 4 after the character [a] gives
    the key that [a] with its low bit set, followed by 0, gives.  A window
    with such a character is looked up as another window of nucleotides. *)
Theorem invalid_character_aliases_a_seed
  (iseq iseq' : list Z) (w pw : Z) (l1 l2 : list Z) (a : Z) :
  0 <= w -> 0 <= pw ->
  w + pw <= Z.of_nat (List.length iseq) ->
  w + pw <= Z.of_nat (List.length iseq') ->
  half_window iseq w pw = l1 ++ a :: 4 :: l2 ->
  half_window iseq' w pw = l1 ++ Z.lor a 1 :: 0 :: l2 ->
  build_key iseq w (Z.to_nat pw) 0 = build_key iseq' w (Z.to_nat pw) 0 /\
  is_Some (build_key iseq w (Z.to_nat pw) 0).
Proof.
  intros Hw Hpw Hlen Hlen' Hhw Hhw'.
  rewrite !build_key_fold by lia.
  unfold half_window in Hhw, Hhw'. rewrite Hhw, Hhw'.
  rewrite fold_key_step_four. split; [reflexivity | eauto].
Qed.

(** The key of a half-window that begins with the code 4. *)
Lemma key_of_invalid_first (rest : list Z) :
  Forall digit rest ->
  Z.of_nat (List.length rest) < 15 ->
  fold_left key_step (4 :: rest) 0 =
    4 ^ Z.of_nat (S (List.length rest)) + msb_first rest /\
  4 ^ Z.of_nat (S (List.length rest)) <= fold_left key_step (4 :: rest) 0.
Proof.
  intros Hd Hlen.
  assert (Hkey : fold_left key_step (4 :: rest) 0 =
                 4 ^ Z.of_nat (S (List.length rest)) + msb_first rest).
  { change 0 with (wrap32 0) at 1.
    rewrite fold_key_step_wrap. cbn [fold_left].
    change (Z.lor (Z.shiftl 0 2) 4) with 4.
    rewrite fold_shift_or_digits by exact Hd.
    pose proof (msb_first_range rest Hd) as Hr.
    rewrite Nat2Z.inj_succ, Z.pow_succ_r by lia.
    assert (4 ^ Z.of_nat (List.length rest) <= 4 ^ 14)
      by (apply Z.pow_le_mono_r; lia).
    rewrite wrap32_small; [lia |].
    change (2 ^ 32) with (16 * 4 ^ 14). lia. }
  split; [exact Hkey |].
  rewrite Hkey. pose proof (msb_first_range rest Hd). lia.
Qed.

(** X8.  A window whose first character has the code 4, the rest of its
    left half being nucleotides, has a key of [4 ^ partialwin] or more, for a
    half-window of at most 15 characters: with a lookup table of no more than
    [4 ^ partialwin] entries, subsearch 1a reads [lookup_tbl] outside its
    bounds.  It gets there when the bit vector has the elements 0 and 4,
    whose addresses line 232 takes first; with a shorter bit vector it has
    stopped at the first of the two that is missing. *)
Theorem invalid_first_character_overflows_the_table
  (index : Index NodeElement) (bvs off w pw nbv : Z) (rest : list Z) (s : state) :
  0 <= w -> 1 <= pw <= 15 ->
  w + pw <= Z.of_nat (List.length (isequence (read s))) ->
  half_window (isequence (read s)) w pw = 4 :: rest ->
  Forall digit rest ->
  Z.of_nat (List.length (lookup_tbl index)) <= 4 ^ pw ->
  exists key : Z,
    build_key (isequence (read s)) w (Z.to_nat pw) 0 = Some key /\
    key = 4 ^ pw + msb_first rest /\
    4 ^ pw <= key /\
    subsearch_1a index bvs off w pw nbv s =
      (Halt (UB (if 4 <? bvs then OutOfRange V_lookup_tbl key
                 else OutOfRange V_vbitwindowsf (if 0 <? bvs then 4 else 0))), s).
Proof.
  intros Hw Hpw Hlen Hhw Hd Htbl.
  assert (Hn : Z.of_nat (S (List.length rest)) = pw).
  { pose proof (half_window_length (isequence (read s)) w pw Hw ltac:(lia) Hlen) as Hl.
    rewrite Hhw in Hl. exact Hl. }
  destruct (key_of_invalid_first rest Hd ltac:(lia)) as [Hkey Hbig].
  rewrite Hn in Hkey, Hbig.
  exists (fold_left key_step (4 :: rest) 0).
  assert (Hbuild : build_key (isequence (read s)) w (Z.to_nat pw) 0 =
                   Some (fold_left key_step (4 :: rest) 0)).
  { rewrite build_key_fold by lia. unfold half_window in Hhw. rewrite Hhw. reflexivity. }
  split; [exact Hbuild |]. split; [exact Hkey |]. split; [exact Hbig |].
  assert (Hnone : zlookup (lookup_tbl index) (fold_left key_step (4 :: rest) 0) = None).
  { unfold zlookup. destruct (Z.ltb_spec (fold_left key_step (4 :: rest) 0) 0); [reflexivity |].
    apply lookup_ge_None. lia. }
  unfold subsearch_1a, bind, gets.
  destruct (Z.ltb_spec 4 bvs) as [Hfour | Hfour].
  - rewrite !vec_addr_in by lia. unfold vec_get, stop. rewrite Hbuild, Hnone. reflexivity.
  - destruct (Z.ltb_spec 0 bvs) as [Hzero | Hzero].
    + rewrite vec_addr_in by lia. rewrite vec_addr_out by lia. reflexivity.
    + rewrite vec_addr_out by lia. reflexivity.
Qed.

End InvalidCharacterFacts.

(** ** A stride of zero *)

Section ZeroStrideFacts.

Context `{Collaborators}.

(** X10.  When the first stride of the index is zero as a 32-bit number,
    the driver divides by zero in the window count of lines 211-213: a read
    that is long enough and is not left early has its length counted and the
    stride read, and no window is searched. *)
Theorem zero_stride_divides_by_zero
  (fuel : nat) (g : Globals) (index : Index NodeElement) (refs : References)
  (rd : Read) (rs : Readstats) (out : Output) (lnw pw v : Z) :
  early_exit g (opts index) rd = false ->
  zlookup (lnwin index) (index_num index) = Some lnw ->
  lnw <= size rd ->
  zlookup (partialwin index) (index_num index) = Some pw ->
  zlookup (strides index) 0 = Some v ->
  wrap32 v = 0 ->
  fst (run (S fuel) g index refs rd rs out) = Halt (UB DivisionByZero) /\
  trace (snd (run (S fuel) g index refs rd rs out)) = [Stride_read 0] /\
  readstats (snd (run (S fuel) g index refs rd rs out)) = update_read_len (size rd) rs /\
  read (snd (run (S fuel) g index refs rd rs out)) = stamped index rd.
Proof.
  intros Hexit Hlnw Hlong Hpw Hv Hzero.
  destruct (run (S fuel) g index refs rd rs out) as [r s'] eqn:Hrun. cbn [fst snd].
  rewrite (long_enough_run (S fuel) g index refs rd rs out lnw Hexit Hlnw Hlong) in Hrun.
  set (s0 := enter (stamped index rd) (update_read_len (size rd) rs) out) in *.
  unfold bind at 1 in Hrun. unfold search_read in Hrun.
  unfold bind at 1 in Hrun. unfold gets at 1 in Hrun. unfold bind at 1 in Hrun.
  destruct (stride_cases index 0 s0) as [(v' & Hv' & E) | (f & sf & E & Hcase)].
  2:{ rewrite stride_run in E. unfold strides in Hv.
      destruct (zlookup (skiplengths (opts index)) (index_num index)) as [row |];
        [| discriminate Hv].
      change (zlookup row 0 = Some v) in Hv. rewrite Hv in E. discriminate E. }
  rewrite E in Hrun. rewrite Hv in Hv'. injection Hv' as <-.
  unfold bind at 1 in Hrun. unfold modify at 1 in Hrun.
  unfold bind at 1 in Hrun. unfold modify at 1 in Hrun.
  unfold bind at 1 in Hrun. unfold modify at 1 in Hrun.
  unfold bind at 1 in Hrun. unfold vec_get at 1 in Hrun.
  rewrite Hpw in Hrun.
  unfold ret at 1 in Hrun. unfold bind at 1 in Hrun. unfold modify at 1 in Hrun.
  cbn [passes] in Hrun.
  unfold bind at 1 in Hrun. unfold gets at 1 in Hrun.
  cbn [search set_search] in Hrun.
  unfold bind at 1 in Hrun. unfold gets at 1 in Hrun.
  unfold bind at 1 in Hrun. unfold gets at 1 in Hrun.
  unfold bind at 1 in Hrun. unfold vec_get at 1 in Hrun.
  rewrite Hlnw in Hrun. unfold ret at 1 in Hrun.
  cbn [windowshift set_search set_pass_n set_read_index_hits set_windowshift] in Hrun.
  rewrite Hzero in Hrun. cbn [Z.eqb] in Hrun. unfold stop in Hrun.
  inversion Hrun; subst r s'. cbn. auto.
Qed.

End ZeroStrideFacts.

(** ** Half-windows of two and three characters *)

Section ShortHalfWindowFacts.

Context `{Collaborators}.

(** The first window of a run on an index whose half-window is too short
    for the bit vector. *)
Lemma first_visit_overruns (index : Index NodeElement) (pw nbv off : Z) (s : state) :
  zlookup (partialwin index) (index_num index) = Some pw ->
  zlookup (numbvs index) (index_num index) = Some nbv ->
  zlookup (read_index_hits s) 0 = Some false ->
  pw = 2 \/ pw = 3 ->
  visit_window index (wrap32 (Z.shiftl (wrap32 (pw - 2)) 2)) off 0 s =
    (Halt (UB (OutOfRange V_vbitwindowsf (if pw =? 2 then 0 else 4))),
     log [Search_window 0]
       (set_read_index_hits (<[0%nat := true]> (read_index_hits s)) s)).
Proof.
  intros Hpw Hnbv Hbit Hshort.
  unfold visit_window. unfold bind at 1. unfold gets at 1.
  unfold bind at 1. unfold vec_get at 1. rewrite Hbit. unfold ret at 1.
  unfold bind at 1. unfold modify at 1. unfold bind at 1. unfold emit, modify at 1.
  cbn [negb]. change (Z.to_nat 0) with 0%nat.
  unfold probe_window. unfold bind at 1. unfold vec_get at 1. rewrite Hpw. unfold ret at 1.
  unfold bind at 1. unfold vec_get at 1. rewrite Hnbv. unfold ret at 1.
  unfold bind at 1. unfold subsearch_1a. unfold bind at 1. unfold gets at 1.
  destruct Hshort as [-> | ->].
  - unfold bind at 1. rewrite vec_addr_out by (vm_compute; intros [_ Hlt]; discriminate Hlt).
    reflexivity.
  - unfold bind at 1. rewrite vec_addr_in by (vm_compute; split; [discriminate | reflexivity]).
    unfold bind at 1. rewrite vec_addr_out by (vm_compute; intros [_ Hlt]; discriminate Hlt).
    reflexivity.
Qed.

(** X21.  With a half-window of two or three characters the bit vector of
    line 229 has no element ([partialwin = 2]) or four ([partialwin = 3]),
    and the call of line 232 takes the addresses of its elements 0 and 4:
    a run that reaches the search of its first window, on a read that is not
    left early and is long enough, stops there on an access outside the bit
    vector, with the window marked and no trie traversed. *)
Theorem short_half_window_overruns_the_bit_vector
  (fuel : nat) (g : Globals) (index : Index NodeElement) (refs : References)
  (rd : Read) (rs : Readstats) (out : Output) (lnw pw nbv v : Z) :
  early_exit g (opts index) rd = false ->
  zlookup (lnwin index) (index_num index) = Some lnw ->
  0 <= lnw <= size rd ->
  0 < size rd < 2 ^ 32 - 1 ->
  zlookup (partialwin index) (index_num index) = Some pw ->
  zlookup (numbvs index) (index_num index) = Some nbv ->
  zlookup (strides index) 0 = Some v ->
  wrap32 v <> 0 ->
  pw = 2 \/ pw = 3 ->
  fst (run (S fuel) g index refs rd rs out)
  = Halt (UB (OutOfRange V_vbitwindowsf (if pw =? 2 then 0 else 4))) /\
  trace (snd (run (S fuel) g index refs rd rs out)) = [Stride_read 0; Search_window 0] /\
  read (snd (run (S fuel) g index refs rd rs out)) = stamped index rd.
Proof.
  intros Hexit Hlnw Hlong Hsize Hpw Hnbv Hv Hnz Hshort.
  destruct (run (S fuel) g index refs rd rs out) as [r s'] eqn:Hrun. cbn [fst snd].
  rewrite (long_enough_run (S fuel) g index refs rd rs out lnw Hexit Hlnw ltac:(lia)) in Hrun.
  set (s0 := enter (stamped index rd) (update_read_len (size rd) rs) out) in *.
  unfold bind at 1 in Hrun. unfold search_read in Hrun.
  unfold bind at 1 in Hrun. unfold gets at 1 in Hrun. unfold bind at 1 in Hrun.
  destruct (stride_cases index 0 s0) as [(v' & Hv' & E) | (f & sf & E & Hcase)].
  2:{ rewrite stride_run in E. unfold strides in Hv.
      destruct (zlookup (skiplengths (opts index)) (index_num index)) as [row |];
        [| discriminate Hv].
      change (zlookup row 0 = Some v) in Hv. rewrite Hv in E. discriminate E. }
  rewrite E in Hrun. rewrite Hv in Hv'. injection Hv' as <-.
  unfold bind at 1 in Hrun. unfold modify at 1 in Hrun.
  unfold bind at 1 in Hrun. unfold modify at 1 in Hrun.
  unfold bind at 1 in Hrun. unfold modify at 1 in Hrun.
  unfold bind at 1 in Hrun. unfold vec_get at 1 in Hrun.
  rewrite Hpw in Hrun.
  unfold ret at 1 in Hrun. unfold bind at 1 in Hrun. unfold modify at 1 in Hrun.
  cbn [passes] in Hrun.
  unfold bind at 1 in Hrun. unfold gets at 1 in Hrun.
  cbn [search set_search] in Hrun.
  unfold bind at 1 in Hrun. unfold gets at 1 in Hrun.
  unfold bind at 1 in Hrun. unfold gets at 1 in Hrun.
  unfold bind at 1 in Hrun. unfold vec_get at 1 in Hrun.
  rewrite Hlnw in Hrun. unfold ret at 1 in Hrun.
  cbn [windowshift set_search set_pass_n set_read_index_hits set_windowshift
       read log] in Hrun.
  destruct (Z.eqb_spec (wrap32 v) 0) as [Hz | _]; [contradiction |].
  fold (stamped index rd) in Hrun.
  assert (Hsz : size (read s0) = size rd) by apply size_stamped.
  rewrite Hsz in Hrun.
  pose proof (wrap32_range v) as Hws.
  pose proof (numwin_positive (size rd) lnw (wrap32 v) ltac:(lia) Hlong ltac:(lia)) as Hnum.
  set (numwin := numwin_of (size rd) lnw (wrap32 v)) in *.
  unfold bind at 1 in Hrun. cbn [windows] in Hrun.
  destruct (Z.ltb_spec 0 numwin) as [_ | Hno]; [| lia].
  unfold bind at 1 in Hrun.
  match type of Hrun with
  | context [visit_window index ?b ?o 0 ?st] =>
      rewrite (first_visit_overruns index pw nbv o st Hpw Hnbv) in Hrun
  end.
  - inversion Hrun; subst r s'. cbn. auto.
  - cbn [read_index_hits set_search set_pass_n set_read_index_hits].
    unfold zlookup. cbn [Z.ltb Z.compare].
    change (Z.to_nat 0) with 0%nat.
    destruct (Z.to_nat (size rd)) as [| n] eqn:Hn; [lia | reflexivity].
  - exact Hshort.
Qed.

End ShortHalfWindowFacts.

(** ** What each step of the search loop changes *)

Section StepFacts.

Context `{Collaborators}.

Variables (index : Index NodeElement) (refs : References).

Lemma searched_app (tr es : list event) :
  searched (tr ++ es) = searched tr ++ searched es.
Proof. apply flat_map_app. Qed.

Lemma chained_passes_app (tr es : list event) :
  chained_passes (tr ++ es) = chained_passes tr ++ chained_passes es.
Proof. apply flat_map_app. Qed.

Lemma pushed_app (tr es : list event) :
  pushed (tr ++ es) = pushed tr ++ pushed es.
Proof. apply flat_map_app. Qed.

Lemma stride_reads_silent (ixs : list Z) :
  searched (map Stride_read ixs) = [] /\ chained_passes (map Stride_read ixs) = [] /\
  pushed (map Stride_read ixs) = [].
Proof. induction ixs as [| i ixs (IHs & IHc & IHp)]; cbn; auto. Qed.

Lemma window_events_silent (doF doR : bool) (keyf keyr w : Z) (hs : list id_win) :
  searched (window_events doF doR keyf keyr w hs) = [] /\
  chained_passes (window_events doF doR keyf keyr w hs) = [] /\
  pushed (window_events doF doR keyf keyr w hs) = hs.
Proof.
  assert (Hp : searched (map Push_hit hs) = [] /\ chained_passes (map Push_hit hs) = []
               /\ pushed (map Push_hit hs) = hs).
  { induction hs as [| h hs (IHs & IHc & IHp)]; [auto |].
    cbn. split; [exact IHs |]. split; [exact IHc |]. f_equal. exact IHp. }
  destruct Hp as (Hs & Hc & Hp).
  unfold window_events, searched, chained_passes, pushed in *.
  rewrite !flat_map_app, Hs, Hc, Hp.
  destruct doF, doR; cbn; auto.
Qed.

Lemma logged_refl (s : state) : logged [] s s.
Proof.
  repeat (split; [reflexivity |]). rewrite app_nil_r. reflexivity.
Qed.

Lemma logged_log (es : list event) (s : state) : logged es s (log es s).
Proof. repeat (split; [reflexivity |]). reflexivity. Qed.

Lemma logged_trans (es es' : list event) (s0 s1 s2 : state) :
  logged es s0 s1 -> logged es' s1 s2 -> logged (es ++ es') s0 s2.
Proof.
  intros (Hr & Hst & Ho & Hw & Hp & Hs & Hh & Hc & Ht)
         (Hr' & Hst' & Ho' & Hw' & Hp' & Hs' & Hh' & Hc' & Ht').
  repeat (split; [congruence |]).
  rewrite Ht', Ht, app_assoc. reflexivity.
Qed.

Lemma subsearch_1a_logged (bvs off w pw nbv : Z) (s s' : state)
  (r : res (bool * list id_win)) :
  subsearch_1a index bvs off w pw nbv s = (r, s') ->
  exists (doF : bool) (keyf : Z),
    logged (if doF then [Traverse_F keyf w] else []) s s'.
Proof.
  unfold subsearch_1a, bind, gets, vec_get, vec_addr, emit, modify, ret, stop.
  destruct ((0 <=? 0) && (0 <? bvs));
    [| intros E; inversion E; exists false, 0; apply logged_refl].
  destruct ((0 <=? 4) && (4 <? bvs));
    [| intros E; inversion E; exists false, 0; apply logged_refl].
  destruct (build_key (isequence (read s)) w (Z.to_nat pw) 0) as [keyf |];
    [| intros E; inversion E; exists false, 0; apply logged_refl].
  destruct (zlookup (lookup_tbl index) keyf) as [kf |];
    [| intros E; inversion E; exists false, 0; apply logged_refl].
  destruct (trie_F kf) as [t |];
    [| intros E; inversion E; exists false, 0; apply logged_refl].
  destruct (count kf >? minoccur);
    [| intros E; inversion E; exists false, 0; apply logged_refl].
  destruct ((0 <=? off) && (off <? bvs)); intros E; inversion E.
  - exists true, keyf. apply logged_log.
  - exists false, 0. apply logged_refl.
Qed.

Lemma subsearch_1b_logged (bvs off w pw nbv : Z) (accept : bool)
  (id_hits : list id_win) (s s' : state) (r : res (bool * list id_win)) :
  subsearch_1b index bvs off w pw nbv accept id_hits s = (r, s') ->
  exists (doR : bool) (keyr : Z),
    logged (if doR then [Traverse_R keyr w] else []) s s'.
Proof.
  unfold subsearch_1b, bind, gets, vec_get, vec_addr, emit, modify, ret, stop.
  destruct (negb accept); [| intros E; inversion E; exists false, 0; apply logged_refl].
  destruct ((0 <=? 0) && (0 <? bvs));
    [| intros E; inversion E; exists false, 0; apply logged_refl].
  destruct ((0 <=? 4) && (4 <? bvs));
    [| intros E; inversion E; exists false, 0; apply logged_refl].
  destruct (build_key (isequence (read s)) (wrap32 (w + pw)) (Z.to_nat pw) 0) as [keyr |];
    [| intros E; inversion E; exists false, 0; apply logged_refl].
  destruct (zlookup (lookup_tbl index) keyr) as [kr |];
    [| intros E; inversion E; exists false, 0; apply logged_refl].
  destruct (trie_R kr) as [t |];
    [| intros E; inversion E; exists false, 0; apply logged_refl].
  destruct (count kr >? minoccur);
    [| intros E; inversion E; exists false, 0; apply logged_refl].
  destruct ((0 <=? off) && (off <? bvs)); intros E; inversion E.
  - exists true, keyr. apply logged_log.
  - exists false, 0. apply logged_refl.
Qed.

(** The seed search of a window: at most one traversal of each trie is
    logged, then the hits, which are appended to the read. *)
Lemma probe_window_effect (bvs off w : Z) (s s' : state) (r : res unit) :
  probe_window index bvs off w s = (r, s') ->
  readstats s' = readstats s /\ output s' = output s /\
  windowshift s' = windowshift s /\ pass_n s' = pass_n s /\ search s' = search s /\
  read_to_count s' = read_to_count s /\ read_index_hits s' = read_index_hits s /\
  exists (doF doR : bool) (keyf keyr : Z) (hs : list id_win),
    trace s' = trace s ++ window_events doF doR keyf keyr w hs /\
    read s' = recorded hs (read s).
Proof.
  assert (Hstay : forall (doF doR : bool) (keyf keyr : Z) (s1 : state),
            logged ((if doF then [Traverse_F keyf w] else []) ++
                    (if doR then [Traverse_R keyr w] else [])) s s1 ->
            readstats s1 = readstats s /\ output s1 = output s /\
            windowshift s1 = windowshift s /\ pass_n s1 = pass_n s /\
            search s1 = search s /\
            read_to_count s1 = read_to_count s /\ read_index_hits s1 = read_index_hits s /\
            exists (doF doR : bool) (keyf keyr : Z) (hs : list id_win),
              trace s1 = trace s ++ window_events doF doR keyf keyr w hs /\
              read s1 = recorded hs (read s)).
  { intros doF doR keyf keyr s1 (Hr & Hst & Ho & Hw & Hp & Hs & Hh & Hc & Ht).
    repeat (split; [assumption |]).
    exists doF, doR, keyf, keyr, []. split; [| exact Hr].
    rewrite Ht. unfold window_events. cbn [map]. rewrite app_nil_r. reflexivity. }
  pose proof (Hstay false false 0 0 s (logged_refl s)) as Hidle.
  unfold probe_window.
  unfold bind at 1. unfold vec_get at 1.
  destruct (zlookup (partialwin index) (index_num index)) as [pw |];
    [| intros E; inversion E; subst; exact Hidle].
  unfold ret at 1. unfold bind at 1. unfold vec_get at 1.
  destruct (zlookup (numbvs index) (index_num index)) as [nbv |];
    [| intros E; inversion E; subst; exact Hidle].
  unfold ret at 1. unfold bind at 1.
  destruct (subsearch_1a index bvs off w pw nbv s) as [ra sa] eqn:Ha.
  apply subsearch_1a_logged in Ha. destruct Ha as (doF & keyf & Ha).
  destruct ra as [a | h].
  2:{ intros E; inversion E; subst. apply (Hstay doF false keyf 0).
      cbn [app]. rewrite app_nil_r. exact Ha. }
  unfold bind at 1.
  destruct (subsearch_1b index bvs off w pw nbv (fst a) (snd a) sa) as [rb sb] eqn:Hb.
  apply subsearch_1b_logged in Hb. destruct Hb as (doR & keyr & Hb).
  pose proof (logged_trans _ _ _ _ _ Ha Hb) as Hab.
  destruct rb as [b | h]; [| intros E; inversion E; subst; exact (Hstay _ _ _ _ _ Hab)].
  unfold record_hits.
  destruct (snd b) as [| h hs] eqn:Hhits.
  { unfold ret. intros E; inversion E; subst. exact (Hstay _ _ _ _ _ Hab). }
  unfold bind, modify. intros E; inversion E; subst r s'. clear E.
  destruct Hab as (Hr & Hst & Ho & Hw & Hp & Hs & Hh & Hc & Ht).
  cbn [readstats output windowshift pass_n search read_to_count read_index_hits read
       trace upd_read log].
  repeat (split; [assumption |]).
  exists doF, doR, keyf, keyr, (h :: hs). split.
  - rewrite Ht. unfold window_events. rewrite <- !app_assoc. reflexivity.
  - rewrite Hr. reflexivity.
Qed.

(** The visit of a window, whichever way it ends. *)
Lemma visit_window_effect (bvs off w : Z) (s s' : state) (r : res unit) :
  visit_window index bvs off w s = (r, s') -> window_visited w r s s'.
Proof.
  unfold visit_window. unfold bind at 1. unfold gets at 1.
  unfold bind at 1. unfold vec_get at 1.
  destruct (zlookup (read_index_hits s) w) as [b |] eqn:Hb.
  2:{ unfold stop. intros E; inversion E; subst.
      repeat (split; [reflexivity |]).
      left. repeat (split; [reflexivity |]). discriminate. }
  unfold ret at 1. destruct b.
  { unfold ret. intros E; inversion E; subst.
    repeat (split; [reflexivity |]).
    left. repeat (split; [reflexivity |]). intros _; exact Hb. }
  unfold bind at 1. unfold modify at 1. unfold bind at 1. unfold emit, modify at 1.
  intros Hrun. apply probe_window_effect in Hrun.
  cbn [readstats output windowshift pass_n search read_to_count read_index_hits read
       trace set_read_index_hits log negb] in Hrun.
  destruct Hrun as (Hst & Ho & Hw & Hp & Hs & Hc & Hh & doF & doR & keyf & keyr & hs & Ht & Hr).
  repeat (split; [assumption |]).
  right. split; [exact Hb |]. split; [exact Hh |].
  exists doF, doR, keyf, keyr, hs. split; [| exact Hr].
  rewrite Ht, <- app_assoc. reflexivity.
Qed.

(** What a visit leaves of the read, and of the windows searched and the
    calls of the chainer in the trace. *)
Lemma visit_window_summary (bvs off w : Z) (s s' : state) (r : res unit) :
  visit_window index bvs off w s = (r, s') ->
  windowshift s' = windowshift s /\ pass_n s' = pass_n s /\ search s' = search s /\
  chained_passes (trace s') = chained_passes (trace s) /\
  (exists hs : list id_win,
      read s' = recorded hs (read s) /\ pushed (trace s') = pushed (trace s) ++ hs) /\
  ((read_index_hits s' = read_index_hits s /\ searched (trace s') = searched (trace s) /\
    (r = Val tt -> zlookup (read_index_hits s) w = Some true)) \/
   (zlookup (read_index_hits s) w = Some false /\
    read_index_hits s' = <[Z.to_nat w := true]> (read_index_hits s) /\
    searched (trace s') = searched (trace s) ++ [w])).
Proof.
  intros Hrun. apply visit_window_effect in Hrun.
  destruct Hrun as (_ & _ & Hw & Hp & Hs & _ & Hcase).
  split; [exact Hw |]. split; [exact Hp |]. split; [exact Hs |].
  destruct Hcase as [(Hr & Hh & Ht & Hm) | (Hb & Hh & doF & doR & kf & kr & hs & Ht & Hr)].
  - rewrite Ht. split; [reflexivity |].
    split; [exists []; rewrite app_nil_r; auto |].
    left. auto.
  - destruct (window_events_silent doF doR kf kr w hs) as (Es & Ec & Ep).
    rewrite Ht.
    change (trace s ++ Search_window w :: window_events doF doR kf kr w hs)
      with (trace s ++ [Search_window w] ++ window_events doF doR kf kr w hs).
    unfold chained_passes, pushed, searched in *.
    rewrite !flat_map_app, Es, Ec, Ep. cbn [flat_map app]. rewrite app_nil_r.
    split; [reflexivity |]. split; [exists hs; auto |].
    right. auto.
Qed.

Lemma pass_control_refl (s : state) : pass_control s s.
Proof.
  repeat (split; [reflexivity |]). exists []. cbn. rewrite app_nil_r. reflexivity.
Qed.

Lemma pass_control_trans (s0 s1 s2 : state) :
  pass_control s0 s1 -> pass_control s1 s2 -> pass_control s0 s2.
Proof.
  intros (Hr & Hst & Ho & Hh & Hc & ixs & Ht) (Hr' & Hst' & Ho' & Hh' & Hc' & ixs' & Ht').
  repeat (split; [congruence |]).
  exists (ixs ++ ixs'). rewrite Ht', Ht, map_app, app_assoc. reflexivity.
Qed.

Lemma pass_control_log (i : Z) (s : state) : pass_control s (log [Stride_read i] s).
Proof. repeat (split; [reflexivity |]). exists [i]. reflexivity. Qed.

Lemma stride_control (i : Z) (s s' : state) (r : res Z) :
  stride index i s = (r, s') -> pass_control s s'.
Proof.
  intros Hrun.
  destruct (stride_cases index i s) as [(v & _ & E) | (f & s1 & E & Hcase)];
    rewrite E in Hrun; inversion Hrun; subst.
  - apply pass_control_log.
  - destruct Hcase as [-> | ->]; [apply pass_control_refl | apply pass_control_log].
Qed.

Lemma pass_control_set_pass (p : Z) (s : state) : pass_control s (set_pass_n p s).
Proof. repeat (split; [reflexivity |]). exists []. cbn. rewrite app_nil_r. reflexivity. Qed.

Lemma pass_control_set_search (b : bool) (s : state) : pass_control s (set_search b s).
Proof. repeat (split; [reflexivity |]). exists []. cbn. rewrite app_nil_r. reflexivity. Qed.

Lemma pass_control_set_windowshift (v : Z) (s : state) :
  pass_control s (set_windowshift v s).
Proof. repeat (split; [reflexivity |]). exists []. cbn. rewrite app_nil_r. reflexivity. Qed.

Lemma skip_ahead_control (fuel : nat) :
  forall (s s' : state) (r : res unit),
    skip_ahead fuel index s = (r, s') -> pass_control s s'.
Proof.
  induction fuel as [| fuel IH]; intros s s' r Hrun.
  { cbn in Hrun. inversion Hrun; subst. apply pass_control_refl. }
  cbn [skip_ahead] in Hrun. unfold bind at 1 in Hrun. unfold gets at 1 in Hrun.
  destruct (pass_n s <? 3).
  2:{ inversion Hrun; subst. apply pass_control_refl. }
  unfold bind at 1 in Hrun.
  destruct (stride index (pass_n s) s) as [ra sa] eqn:Ha.
  apply stride_control in Ha.
  destruct ra as [a | h]; [| inversion Hrun; subst; exact Ha].
  unfold bind at 1 in Hrun.
  destruct (stride index (wrap32 (pass_n s + 1)) sa) as [rb sb] eqn:Hb.
  apply stride_control in Hb.
  pose proof (pass_control_trans _ _ _ Ha Hb) as Hab.
  destruct rb as [b | h]; [| inversion Hrun; subst; exact Hab].
  destruct (a =? b).
  - unfold bind, modify in Hrun. apply IH in Hrun.
    eapply pass_control_trans; [| exact Hrun].
    eapply pass_control_trans; [exact Hab | apply pass_control_set_pass].
  - inversion Hrun; subst. exact Hab.
Qed.

Lemma advance_pass_control (s s' : state) (r : res unit) :
  advance_pass index s = (r, s') -> pass_control s s'.
Proof.
  unfold advance_pass. unfold bind at 1. unfold gets at 1.
  destruct (search s); [| intros E; inversion E; subst; apply pass_control_refl].
  unfold bind at 1. unfold gets at 1.
  destruct (pass_n s =? 2).
  { unfold modify. intros E; inversion E; subst. apply pass_control_set_search. }
  unfold bind at 1.
  destruct (skip_ahead 4 index s) as [r1 s1] eqn:Hsk.
  apply skip_ahead_control in Hsk.
  destruct r1 as [[] | h]; [| intros E; inversion E; subst; exact Hsk].
  unfold bind at 1. unfold gets at 1. unfold bind at 1. unfold modify at 1.
  destruct (wrap32 (pass_n s1 + 1) >? 2).
  { unfold modify. intros E; inversion E; subst.
    eapply pass_control_trans; [exact Hsk |].
    eapply pass_control_trans; [apply pass_control_set_pass | apply pass_control_set_search]. }
  unfold bind at 1.
  destruct (stride index (wrap32 (pass_n s1 + 1)) (set_pass_n (wrap32 (pass_n s1 + 1)) s1))
    as [rv sv] eqn:Hv.
  apply stride_control in Hv.
  assert (Hsv : pass_control s sv).
  { eapply pass_control_trans; [exact Hsk |].
    eapply pass_control_trans; [apply pass_control_set_pass | exact Hv]. }
  destruct rv as [v | h]; [| intros E; inversion E; subst; exact Hsv].
  unfold modify. intros E; inversion E; subst.
  eapply pass_control_trans; [exact Hsv | apply pass_control_set_windowshift].
Qed.

(** The end of a pass, whichever way it ends: the chainer's results are
    written back, its call is logged with the pass number and the stride of
    the pass, and the pass control runs. *)
Lemma check_score_effect (max_sw : Z) (s s' : state) (r : res unit) :
  check_score index refs max_sw s = (r, s') ->
  let c := compute_lis_alignment (read s) index refs (readstats s) (output s)
             (search s) max_sw (read_to_count s) in
  read s' = c_read c /\ readstats s' = c_readstats c /\ output s' = c_output c /\
  read_index_hits s' = read_index_hits s /\
  (exists ixs : list Z,
     trace s' = trace s ++ Chain (pass_n s) (windowshift s) (c_search c)
                             :: map Stride_read ixs) /\
  (r = Val tt -> search s' = true -> 0 <= pass_n s <= 2 ->
   pass_n s < pass_n s' <= 2 /\
   exists v, zlookup (strides index) (pass_n s') = Some v /\
             windowshift s' = wrap32 v).
Proof.
  intros Hrun c.
  pose proof (check_score_run index refs max_sw s) as Heq. cbn zeta in Heq.
  fold c in Heq. rewrite Heq in Hrun. clear Heq.
  set (s2 := log [Chain (pass_n s) (windowshift s) (c_search c)] (set_chained c s)) in *.
  pose proof (advance_pass_control s2 s' r Hrun) as (Hr & Hst & Ho & Hh & _ & ixs & Ht).
  split; [exact Hr |]. split; [exact Hst |]. split; [exact Ho |].
  split; [exact Hh |].
  split.
  { exists ixs. rewrite Ht. cbn [trace s2 log set_chained].
    rewrite <- app_assoc. reflexivity. }
  intros Hval Hsearch Hp.
  destruct (search s2) eqn:Hs2.
  2:{ rewrite (advance_pass_idle index s2 Hs2) in Hrun. inversion Hrun; subst s'.
      congruence. }
  destruct (advance_pass_spec index s2 s' r Hrun Hs2 Hp)
    as (_ & _ & _ & _ & _ & _ & Hadv).
  destruct (Hadv Hval) as [H2 Hlt].
  change (pass_n s2) with (pass_n s) in *.
  destruct (Z.eq_dec (pass_n s) 2) as [E2 | N2].
  { destruct (H2 E2) as (Hoff & _). congruence. }
  destruct Hlt as (Hrange & _ & Hin & Hout); [lia |].
  destruct (Z.le_gt_cases (pass_n s') 2) as [Hle | Hgt].
  - destruct (Hin Hle) as (_ & v & Hv & Hws & _).
    split; [lia |]. exists v. auto.
  - destruct (Hout ltac:(lia)) as (Hoff & _). congruence.
Qed.

End StepFacts.

(** ** Invariants of the search loop *)

Section LoopRules.

Context `{Collaborators}.

Variables (index : Index NodeElement) (refs : References).

(** [P] holds at the head of a pass and between the windows of a pass, [J]
    in the state of a halt. *)
Variables (P J : state -> Prop).

Hypothesis halted_anywhere : forall s, P s -> J s.

Hypothesis visit_keeps :
  forall (bvs off w : Z) (s s' : state) (r : res unit),
    P s -> search s = true ->
    visit_window index bvs off w s = (r, s') -> outcome P J r s'.

Hypothesis check_keeps :
  forall (max_sw : Z) (s s' : state) (r : res unit),
    P s -> search s = true ->
    check_score index refs max_sw s = (r, s') -> outcome P J r s'.

(** The window loop keeps what the visit of a window and the end of a pass
    keep. *)
Lemma windows_rule (n : nat) (numwin max_sw bvs off : Z) :
  forall (win_num win_index : Z) (s s' : state) (r : res unit),
    P s -> search s = true ->
    windows n index refs numwin max_sw bvs off win_num win_index s = (r, s') ->
    outcome P J r s'.
Proof.
  induction n as [| n IH]; intros win_num win_index s s' r HP Hsearch Hrun.
  { cbn in Hrun. inversion Hrun; subst. apply halted_anywhere. exact HP. }
  cbn [windows] in Hrun.
  destruct (win_num <? numwin).
  2:{ inversion Hrun; subst. exact HP. }
  unfold bind at 1 in Hrun.
  destruct (visit_window index bvs off win_index s) as [rv sv] eqn:Hvisit.
  pose proof (visit_keeps _ _ _ _ _ _ HP Hsearch Hvisit) as Hsv.
  apply visit_window_effect in Hvisit.
  destruct Hvisit as (_ & _ & _ & _ & Hs & _).
  destruct rv as [[] | h]; [| inversion Hrun; subst; exact Hsv].
  cbn [outcome] in Hsv. rewrite Hsearch in Hs.
  destruct (win_num =? wrap32 (numwin - 1)).
  - exact (check_keeps _ _ _ _ Hsv Hs Hrun).
  - unfold bind at 1 in Hrun. unfold gets at 1 in Hrun.
    exact (IH _ _ _ _ _ Hsv Hs Hrun).
Qed.

(** The pass loop keeps what each of its window loops keeps. *)
Lemma passes_rule (fuel : nat) (max_sw bvs off : Z) :
  (forall (lnw : Z) (s s' : state) (r : res unit),
      P s -> search s = true ->
      zlookup (lnwin index) (index_num index) = Some lnw ->
      windowshift s <> 0 ->
      windows (S (Z.to_nat (numwin_of (size (read s)) lnw (windowshift s))))
        index refs (numwin_of (size (read s)) lnw (windowshift s))
        max_sw bvs off 0 0 s = (r, s') ->
      outcome P J r s') ->
  forall (s s' : state) (r : res unit),
    P s -> passes fuel index refs max_sw bvs off s = (r, s') -> outcome P J r s'.
Proof.
  intros Hwindows.
  induction fuel as [| fuel IH]; intros s s' r HP Hrun.
  { cbn in Hrun. inversion Hrun; subst. apply halted_anywhere. exact HP. }
  cbn [passes] in Hrun. unfold bind at 1 in Hrun. unfold gets at 1 in Hrun.
  destruct (search s) eqn:Hsearch.
  2:{ inversion Hrun; subst. exact HP. }
  unfold bind at 1 in Hrun. unfold gets at 1 in Hrun.
  unfold bind at 1 in Hrun. unfold gets at 1 in Hrun.
  unfold bind at 1 in Hrun. unfold vec_get at 1 in Hrun.
  destruct (zlookup (lnwin index) (index_num index)) as [lnw |] eqn:Hlnw.
  2:{ inversion Hrun; subst. apply halted_anywhere. exact HP. }
  unfold ret at 1 in Hrun.
  destruct (Z.eqb_spec (windowshift s) 0) as [Hz | Hnz].
  { inversion Hrun; subst. apply halted_anywhere. exact HP. }
  unfold bind at 1 in Hrun.
  destruct (windows (S (Z.to_nat (numwin_of (size (read s)) lnw (windowshift s))))
              index refs (numwin_of (size (read s)) lnw (windowshift s))
              max_sw bvs off 0 0 s) as [rw sw] eqn:Hw.
  pose proof (Hwindows lnw s sw rw HP Hsearch eq_refl Hnz Hw) as Hsw.
  destruct rw as [[] | h]; [| inversion Hrun; subst; exact Hsw].
  exact (IH _ _ _ Hsw Hrun).
Qed.

Lemma pass_loop_rule (fuel : nat) (max_sw bvs off : Z) (s s' : state) (r : res unit) :
  P s -> passes fuel index refs max_sw bvs off s = (r, s') -> outcome P J r s'.
Proof.
  apply passes_rule. intros lnw s1 s1' r1 HP Hsearch _ _ Hw.
  exact (windows_rule _ _ _ _ _ _ _ _ _ _ HP Hsearch Hw).
Qed.

End LoopRules.

(** ** The shape of a run *)

Section RunShape.

Context `{Collaborators}.

(** A run of the driver either never enters the pass loop, and then its
    trace is empty or holds the warning or the first stride read; or it is a
    run of the pass loop from the state of lines 192-209, followed by lines
    371-381, which leave the trace as it is. *)
Lemma run_shape (fuel : nat) (g : Globals) (index : Index NodeElement)
  (refs : References) (rd : Read) (rs : Readstats) (out : Output) :
  ((trace (snd (run fuel g index refs rd rs out)) = [] \/
    trace (snd (run fuel g index refs rd rs out)) = [Stride_read 0] \/
    exists lnw, trace (snd (run fuel g index refs rd rs out))
                = [Warn_too_short (read_id rd) lnw]) /\
   (read (snd (run fuel g index refs rd rs out)) = stamped index rd \/
    read (snd (run fuel g index refs rd rs out)) = set_isValid false (stamped index rd)))
  \/
  (exists (lnw v max_sw bvs off : Z) (r1 : res unit) (s1 : state),
      zlookup (lnwin index) (index_num index) = Some lnw /\
      lnw <= size rd /\
      zlookup (strides index) 0 = Some v /\
      passes fuel index refs max_sw bvs off
        (primed v (enter (stamped index rd) (update_read_len (size rd) rs) out))
      = (r1, s1) /\
      trace (snd (run fuel g index refs rd rs out)) = trace s1 /\
      (read (snd (run fuel g index refs rd rs out)) = read s1 \/
       exists hd, read (snd (run fuel g index refs rd rs out))
                  = set_hit_denovo hd (read s1)) /\
      (fst (run fuel g index refs rd rs out) = Val tt <-> r1 = Val tt)).
Proof.
  destruct (run fuel g index refs rd rs out) as [r s'] eqn:Hrun. cbn [fst snd].
  destruct (early_exit g (opts index) rd) eqn:Hexit.
  { rewrite (early_exit_run fuel g index refs rd rs out Hexit) in Hrun.
    inversion Hrun; subst. left. cbn. auto. }
  destruct (zlookup (lnwin index) (index_num index)) as [lnw |] eqn:Hlnw.
  2:{ left. unfold run, parallelTraversalJob in Hrun.
      unfold bind, modify, gets, vec_get, ret, stop in Hrun.
      cbn [read upd_read enter] in Hrun.
      change (set_lastPart (part index) (set_lastIndex (index_num index) rd))
        with (stamped index rd) in Hrun.
      rewrite early_exit_stamped, Hexit, Hlnw in Hrun.
      inversion Hrun; subst. cbn. auto. }
  destruct (Z.lt_ge_cases (size rd) lnw) as [Hshort | Hlong].
  { rewrite (too_short_run fuel g index refs rd rs out lnw Hexit Hlnw Hshort) in Hrun.
    inversion Hrun; subst. left. cbn. split; [right; right; eauto | auto]. }
  rewrite (long_enough_run fuel g index refs rd rs out lnw Hexit Hlnw Hlong) in Hrun.
  set (s0 := enter (stamped index rd) (update_read_len (size rd) rs) out) in *.
  unfold bind at 1 in Hrun. unfold search_read in Hrun.
  unfold bind at 1 in Hrun. unfold gets at 1 in Hrun. unfold bind at 1 in Hrun.
  destruct (stride_cases index 0 s0) as [(v & Hv & E) | (f & sf & E & Hcase)];
    rewrite E in Hrun.
  2:{ inversion Hrun; subst. left. destruct Hcase as [-> | ->]; cbn; auto. }
  unfold bind at 1 in Hrun. unfold modify at 1 in Hrun.
  unfold bind at 1 in Hrun. unfold modify at 1 in Hrun.
  unfold bind at 1 in Hrun. unfold modify at 1 in Hrun.
  unfold bind at 1 in Hrun. unfold vec_get at 1 in Hrun.
  destruct (zlookup (partialwin index) (index_num index)) as [pw |].
  2:{ inversion Hrun; subst. left. cbn. auto. }
  unfold ret at 1 in Hrun. unfold bind at 1 in Hrun. unfold modify at 1 in Hrun.
  match type of Hrun with
  | context [passes fuel index refs ?m ?b ?o ?st] =>
      change st with (primed v s0) in Hrun;
      destruct (passes fuel index refs m b o (primed v s0)) as [r1 s1] eqn:Hpasses;
      right; exists lnw, v, m, b, o, r1, s1
  end.
  split; [reflexivity |]. split; [exact Hlong |]. split; [exact Hv |].
  split; [exact Hpasses |].
  destruct r1 as [[] | h].
  - rewrite finish_read_spec in Hrun. inversion Hrun; subst.
    cbn [trace read upd_readstats upd_read].
    split; [reflexivity |]. split; [right; eauto |]. split; reflexivity.
  - inversion Hrun; subst. split; [reflexivity |]. split; [left; reflexivity |].
    split; discriminate.
Qed.

End RunShape.

(** ** The windows searched and the calls of the chainer *)

Section SearchedFacts.

Context `{Collaborators}.

Variables (index : Index NodeElement) (refs : References).

Lemma zlookup_Some {A : Type} (l : list A) (i : Z) (a : A) :
  zlookup l i = Some a <-> 0 <= i /\ l !! Z.to_nat i = Some a.
Proof.
  unfold zlookup. destruct (Z.ltb_spec i 0) as [Hneg | Hpos].
  - split; [discriminate | intros [Hi _]; lia].
  - split; [intros Hl; split; assumption | intros [_ Hl]; exact Hl].
Qed.

(** *** No window is searched twice *)

Lemma bitmap_visit (bvs off w : Z) (s s' : state) (r : res unit) :
  bitmap_agrees s -> visit_window index bvs off w s = (r, s') -> bitmap_agrees s'.
Proof.
  intros [Hnd Hag] Hrun. apply visit_window_summary in Hrun.
  destruct Hrun as (_ & _ & _ & _ & _ & [(Hh & Hs & _) | (Hb & Hh & Hs)]).
  { unfold bitmap_agrees. rewrite Hh, Hs. split; assumption. }
  apply zlookup_Some in Hb. destruct Hb as [Hw Hb].
  assert (Hfresh : ~ In w (searched (trace s))).
  { intros Hin. apply Hag in Hin. destruct Hin as [_ Hin]. congruence. }
  unfold bitmap_agrees. rewrite Hs, Hh. split.
  - apply list.NoDup_app. split; [exact Hnd |]. split; [| apply NoDup_singleton].
    intros x Hx Hxw. apply list_elem_of_singleton in Hxw. subst x.
    apply Hfresh. apply list_elem_of_In. exact Hx.
  - intros w'. rewrite in_app_iff. cbn [In].
    destruct (Z.eq_dec w' w) as [-> | Hne].
    + split; [intros _ | auto].
      split; [exact Hw |]. apply list_lookup_insert_eq.
      apply lookup_lt_Some in Hb. exact Hb.
    + split.
      * intros [Hin | [E | []]]; [| congruence].
        apply Hag in Hin. destruct Hin as [Hw' Hin]. split; [exact Hw' |].
        rewrite list_lookup_insert_ne by lia. exact Hin.
      * intros [Hw' Hin]. left. apply Hag. split; [exact Hw' |].
        rewrite list_lookup_insert_ne in Hin by lia. exact Hin.
Qed.

Lemma bitmap_check (max_sw : Z) (s s' : state) (r : res unit) :
  bitmap_agrees s -> check_score index refs max_sw s = (r, s') -> bitmap_agrees s'.
Proof.
  intros [Hnd Hag] Hrun. apply check_score_effect in Hrun. cbn zeta in Hrun.
  destruct Hrun as (_ & _ & _ & Hh & (ixs & Ht) & _).
  assert (Hs : searched (trace s') = searched (trace s)).
  { rewrite Ht, searched_app. cbn [searched flat_map app].
    destruct (stride_reads_silent ixs) as (E & _). unfold searched in E. rewrite E.
    apply app_nil_r. }
  unfold bitmap_agrees. rewrite Hs, Hh. split; assumption.
Qed.

Lemma bitmap_primed (v : Z) (s : state) :
  searched (trace s) = [] -> bitmap_agrees (primed v s).
Proof.
  intros Hnone. unfold bitmap_agrees. cbn [primed trace read_index_hits set_search
    set_pass_n set_read_index_hits set_windowshift log].
  rewrite searched_app, Hnone. cbn. split; [apply NoDup_nil_2 |].
  intros w. split; [intros [] |]. intros [_ Hw].
  apply lookup_replicate in Hw. destruct Hw as [E _]. discriminate.
Qed.

Lemma bitmap_passes (fuel : nat) (max_sw bvs off : Z) (s s' : state) (r : res unit) :
  bitmap_agrees s -> passes fuel index refs max_sw bvs off s = (r, s') ->
  bitmap_agrees s'.
Proof.
  intros Hs Hrun.
  pose proof (pass_loop_rule index refs bitmap_agrees bitmap_agrees) as Hrule.
  specialize (Hrule ltac:(auto)).
  assert (Hv : forall (bvs off w : Z) (s s' : state) (r : res unit),
             bitmap_agrees s -> search s = true ->
             visit_window index bvs off w s = (r, s') ->
             outcome bitmap_agrees bitmap_agrees r s').
  { intros b o w st st' rr Hst _ Hvis.
    pose proof (bitmap_visit b o w st st' rr Hst Hvis). destruct rr; assumption. }
  assert (Hc : forall (max_sw : Z) (s s' : state) (r : res unit),
             bitmap_agrees s -> search s = true ->
             check_score index refs max_sw s = (r, s') ->
             outcome bitmap_agrees bitmap_agrees r s').
  { intros m st st' rr Hst _ Hchk.
    pose proof (bitmap_check m st st' rr Hst Hchk). destruct rr; assumption. }
  specialize (Hrule Hv Hc fuel max_sw bvs off s s' r Hs Hrun).
  destruct r; exact Hrule.
Qed.

Lemma run_searched_once
  (fuel : nat) (g : Globals) (rd : Read) (rs : Readstats) (out : Output) :
  NoDup (searched (trace (snd (run fuel g index refs rd rs out)))).
Proof.
  destruct (run_shape fuel g index refs rd rs out)
    as [[Htr _] | (lnw & v & m & b & o & r1 & s1 & _ & _ & _ & Hpasses & Htr & _)].
  - destruct Htr as [-> | [-> | [lnw ->]]]; apply NoDup_nil_2.
  - rewrite Htr.
    eapply bitmap_passes; [| exact Hpasses].
    apply bitmap_primed. reflexivity.
Qed.

Lemma in_searched (tr : list event) (w : Z) :
  In w (searched tr) <-> In (Search_window w) tr.
Proof.
  unfold searched. rewrite in_flat_map. split.
  - intros (e & He & Hw). destruct e; try contradiction.
    destruct Hw as [-> | []]. exact He.
  - intros Hin. exists (Search_window w). split; [exact Hin | left; reflexivity].
Qed.

(** X11.  In a run of the driver no window of the read is searched twice:
    the offsets of the windows searched, over all passes, are pairwise
    different.  This holds for every index, read and collaborator, and
    whichever way the run ends. *)
Theorem no_window_is_searched_twice
  (fuel : nat) (g : Globals) (rd : Read) (rs : Readstats) (out : Output) :
  NoDup (searched (trace (snd (run fuel g index refs rd rs out)))) /\
  (forall (pre post : list event) (w : Z),
      trace (snd (run fuel g index refs rd rs out)) = pre ++ Search_window w :: post ->
      ~ In (Search_window w) pre /\ ~ In (Search_window w) post).
Proof.
  pose proof (run_searched_once fuel g rd rs out) as Hnd.
  split; [exact Hnd |].
  intros pre post w Htr. rewrite Htr in Hnd.
  rewrite searched_app in Hnd. cbn [searched flat_map] in Hnd.
  change (flat_map _ post) with (searched post) in Hnd.
  apply list.NoDup_app in Hnd. destruct Hnd as (_ & Hpre & Hpost).
  cbn [app] in Hpost. apply list.NoDup_cons in Hpost. destruct Hpost as [Hpost _].
  split.
  - intros Hin. apply in_searched, list_elem_of_In in Hin.
    apply (Hpre w Hin). left.
  - intros Hin. apply in_searched, list_elem_of_In in Hin. exact (Hpost Hin).
Qed.

(** The windows searched lie on the read, so there are at most
    [len - lnw + 1] of them. *)
Lemma searched_count (tr : list event) (lnw len : Z) :
  NoDup (searched tr) ->
  (forall w, In (Search_window w) tr -> in_bounds lnw len w) ->
  Z.of_nat (List.length (searched tr)) <= Z.max 0 (len - lnw + 1).
Proof.
  intros Hnd Hin.
  apply NoDup_ListNoDup in Hnd.
  assert (Hincl : incl (searched tr) (seqZ 0 (len - lnw + 1))).
  { intros w Hw. apply in_searched in Hw. destruct (Hin w Hw) as [H0 Hfit].
    apply list_elem_of_In. apply elem_of_seqZ. lia. }
  pose proof (List.NoDup_incl_length Hnd Hincl) as Hlen.
  rewrite length_seqZ in Hlen. lia.
Qed.

(** X12.  A run of the driver on a read of [len] characters searches at
    most [len - lnwin + 1] windows, all three passes taken together, when
    the chainer leaves the length of the read alone. *)
Theorem searched_windows_are_bounded
  (fuel : nat) (g : Globals) (rd : Read) (rs : Readstats) (out : Output) (lnw : Z) :
  zlookup (lnwin index) (index_num index) = Some lnw ->
  lnw <= size rd ->
  chainer_keeps size ->
  Z.of_nat (List.length (searched (trace (snd (run fuel g index refs rd rs out)))))
  <= size rd - lnw + 1.
Proof.
  intros Hlnw Hlong Hkeep.
  pose proof (searched_count (trace (snd (run fuel g index refs rd rs out))) lnw (size rd)
                (run_searched_once fuel g rd rs out)) as Hcount.
  assert (Hok : ok_trace false lnw (size rd) (snd (run fuel g index refs rd rs out))).
  { apply run_trace_ok; [exact Hlnw | exact Hlong | exact Hkeep | discriminate]. }
  specialize (Hcount ltac:(intros w Hw; exact (ok_trace_in false lnw (size rd) _ _ Hok Hw))).
  lia.
Qed.

(** *** The calls of the chainer *)

Lemma increasing_snoc (l : list Z) (x : Z) :
  increasing l -> Forall (fun y => y < x) l -> increasing (l ++ [x]).
Proof.
  induction l as [| y l IH]; intros Hinc Hlt.
  - cbn. split; [constructor | exact I].
  - destruct Hinc as [Hy Hl]. inversion Hlt as [| y' l' Hyx Hlx]; subst.
    cbn. split.
    + apply Forall_app. split; [exact Hy | constructor; [exact Hyx | constructor]].
    + apply IH; assumption.
Qed.

(** An increasing list of integers from [lo] to [hi] has at most
    [hi - lo + 1] elements. *)
Lemma increasing_length (l : list Z) :
  forall lo hi : Z,
    increasing l -> Forall (fun x => lo <= x <= hi) l ->
    Z.of_nat (List.length l) <= Z.max 0 (hi - lo + 1).
Proof.
  induction l as [| x l IH]; intros lo hi Hinc Hall; [cbn; lia |].
  destruct Hinc as [Hx Hl]. inversion Hall as [| x' l' Hrange Hrest]; subst.
  assert (Hrest' : Forall (fun y => x + 1 <= y <= hi) l).
  { rewrite Forall_forall in *. intros y Hy.
    specialize (Hx y Hy). specialize (Hrest y Hy). lia. }
  specialize (IH (x + 1) hi Hl Hrest'). cbn [List.length]. lia.
Qed.

Lemma chained_visit (bvs off w : Z) (s s' : state) (r : res unit) :
  visit_window index bvs off w s = (r, s') ->
  chained_passes (trace s') = chained_passes (trace s) /\
  pass_n s' = pass_n s /\ windowshift s' = windowshift s /\ search s' = search s.
Proof.
  intros Hrun. apply visit_window_summary in Hrun.
  destruct Hrun as (Hw & Hp & Hs & Hc & _). auto.
Qed.

Lemma chained_check (max_sw : Z) (s s' : state) (r : res unit) :
  chained_in_order index (trace s) -> pass_is_due index s ->
  check_score index refs max_sw s = (r, s') ->
  chained_in_order index (trace s') /\
  (r = Val tt -> search s' = true -> pass_is_due index s').
Proof.
  intros [Hinc Hall] (Hp & Hlt & v & Hv & Hws) Hrun.
  apply check_score_effect in Hrun. cbn zeta in Hrun.
  destruct Hrun as (_ & _ & _ & _ & (ixs & Ht) & Hnext).
  assert (Hcs : chained_passes (trace s') =
                chained_passes (trace s) ++ [(pass_n s, windowshift s)]).
  { rewrite Ht, chained_passes_app. cbn [chained_passes flat_map app].
    destruct (stride_reads_silent ixs) as (_ & E & _). unfold chained_passes in E.
    rewrite E. reflexivity. }
  split.
  - unfold chained_in_order. rewrite Hcs. split.
    + rewrite map_app. apply increasing_snoc; [exact Hinc |].
      apply Forall_map. exact Hlt.
    + apply Forall_app. split; [exact Hall |].
      constructor; [| constructor]. cbn [fst snd]. split; [exact Hp | eauto].
  - intros Hval Hsearch. destruct (Hnext Hval Hsearch Hp) as (Hrange & v' & Hv' & Hws').
    split; [lia |]. split; [| eauto].
    rewrite Hcs. apply Forall_app. split.
    + eapply Forall_impl; [| exact Hlt]. intros c Hc. cbn beta in *. lia.
    + constructor; [cbn; lia | constructor].
Qed.

Lemma chained_passes_loop (fuel : nat) (max_sw bvs off : Z) (s s' : state) (r : res unit) :
  chained_in_order index (trace s) -> (search s = true -> pass_is_due index s) ->
  passes fuel index refs max_sw bvs off s = (r, s') ->
  chained_in_order index (trace s').
Proof.
  intros Hord Hdue Hrun.
  pose proof (pass_loop_rule index refs
                (fun s => chained_in_order index (trace s) /\
                          (search s = true -> pass_is_due index s))
                (fun s => chained_in_order index (trace s))) as Hrule.
  specialize (Hrule ltac:(intros st [Hst _]; exact Hst)).
  assert (Hv : forall (bvs off w : Z) (s s' : state) (r : res unit),
             chained_in_order index (trace s) /\
             (search s = true -> pass_is_due index s) ->
             search s = true ->
             visit_window index bvs off w s = (r, s') ->
             outcome (fun s => chained_in_order index (trace s) /\
                               (search s = true -> pass_is_due index s))
                     (fun s => chained_in_order index (trace s)) r s').
  { intros b o w st st' rr [Hst Hd] Hsr Hvis.
    destruct (chained_visit b o w st st' rr Hvis) as (Hc & Hp & Hw & Hs).
    assert (Hord' : chained_in_order index (trace st')).
    { unfold chained_in_order. rewrite Hc. exact Hst. }
    destruct rr; cbn [outcome]; [| exact Hord'].
    split; [exact Hord' |]. intros _.
    unfold pass_is_due. rewrite Hc, Hp, Hw. exact (Hd Hsr). }
  assert (Hc : forall (max_sw : Z) (s s' : state) (r : res unit),
             chained_in_order index (trace s) /\
             (search s = true -> pass_is_due index s) ->
             search s = true ->
             check_score index refs max_sw s = (r, s') ->
             outcome (fun s => chained_in_order index (trace s) /\
                               (search s = true -> pass_is_due index s))
                     (fun s => chained_in_order index (trace s)) r s').
  { intros m st st' rr [Hst Hd] Hsr Hchk.
    destruct (chained_check m st st' rr Hst (Hd Hsr) Hchk) as [Hord' Hdue'].
    destruct rr as [[] | h]; cbn [outcome]; [| exact Hord'].
    split; [exact Hord' | exact (Hdue' eq_refl)]. }
  specialize (Hrule Hv Hc fuel max_sw bvs off s s' r (conj Hord Hdue) Hrun).
  destruct r; [exact (proj1 Hrule) | exact Hrule].
Qed.

(** X13.  In a run of the driver the chainer is called at most three times:
    the passes it is called in have increasing numbers from 0 to 2, and the
    stride in use at each call is [skiplengths[index_num][pass]], as stored
    in the 32-bit [windowshift]. *)
Theorem chainer_is_called_once_per_pass
  (fuel : nat) (g : Globals) (rd : Read) (rs : Readstats) (out : Output) :
  chained_in_order index (trace (snd (run fuel g index refs rd rs out))) /\
  (List.length (chained_passes (trace (snd (run fuel g index refs rd rs out)))) <= 3)%nat.
Proof.
  assert (Hord : chained_in_order index (trace (snd (run fuel g index refs rd rs out)))).
  { destruct (run_shape fuel g index refs rd rs out)
      as [[Htr _] | (lnw & v & m & b & o & r1 & s1 & _ & _ & Hv & Hpasses & Htr & _)].
    - destruct Htr as [-> | [-> | [lnw ->]]]; split; cbn; auto.
    - rewrite Htr.
      eapply chained_passes_loop; [| | exact Hpasses].
      + split; cbn; auto.
      + intros _. split; [cbn; lia |]. split; [cbn; constructor |].
        exists v. split; [exact Hv | reflexivity]. }
  split; [exact Hord |].
  destruct Hord as [Hinc Hall].
  pose proof (increasing_length _ 0 2 Hinc) as Hlen.
  rewrite length_map in Hlen.
  assert (Hrange : Forall (fun x => 0 <= x <= 2)
                     (map fst (chained_passes
                                 (trace (snd (run fuel g index refs rd rs out)))))).
  { apply Forall_map. eapply Forall_impl; [| exact Hall].
    intros c [Hc _]. exact Hc. }
  specialize (Hlen Hrange). lia.
Qed.

(** *** What the driver leaves alone *)

Lemma blind_passes {A : Type} (f : Read -> A) (a : A)
  (fuel : nat) (max_sw bvs off : Z) (s s' : state) (r : res unit) :
  (forall hs rd, f (push_hits hs rd) = f rd) -> chainer_keeps f ->
  f (read s) = a -> passes fuel index refs max_sw bvs off s = (r, s') ->
  f (read s') = a.
Proof.
  intros Hpush Hchain Hs Hrun.
  pose proof (pass_loop_rule index refs (fun s => f (read s) = a)
                (fun s => f (read s) = a)) as Hrule.
  specialize (Hrule ltac:(auto)).
  assert (Hv : forall (bvs off w : Z) (s s' : state) (r : res unit),
             f (read s) = a -> search s = true ->
             visit_window index bvs off w s = (r, s') ->
             outcome (fun s => f (read s) = a) (fun s => f (read s) = a) r s').
  { intros b o w st st' rr Hst _ Hvis. apply visit_window_summary in Hvis.
    destruct Hvis as (_ & _ & _ & _ & (hs & Hr & _) & _).
    assert (E : f (read st') = a).
    { rewrite Hr. destruct hs; cbn [recorded]; [exact Hst | rewrite Hpush; exact Hst]. }
    destruct rr; exact E. }
  assert (Hc : forall (max_sw : Z) (s s' : state) (r : res unit),
             f (read s) = a -> search s = true ->
             check_score index refs max_sw s = (r, s') ->
             outcome (fun s => f (read s) = a) (fun s => f (read s) = a) r s').
  { intros m st st' rr Hst _ Hchk. apply check_score_effect in Hchk. cbn zeta in Hchk.
    destruct Hchk as (Hr & _).
    assert (E : f (read st') = a) by (rewrite Hr, Hchain; exact Hst).
    destruct rr; exact E. }
  specialize (Hrule Hv Hc fuel max_sw bvs off s s' r Hs Hrun).
  destruct r; exact Hrule.
Qed.

(** X14.  Of the read, the driver itself assigns [lastIndex], [lastPart],
    [isValid], [hit_denovo], [id_win_hits] and [readhit], and nothing else:
    whatever can be observed of the read without these fields, and is left
    alone by the chainer, is after the run what it was before, whichever way
    the run ends. *)
Theorem driver_assigns_six_fields {A : Type} (f : Read -> A)
  (fuel : nat) (g : Globals) (rd : Read) (rs : Readstats) (out : Output) :
  driver_blind f -> chainer_keeps f ->
  f (read (snd (run fuel g index refs rd rs out))) = f rd.
Proof.
  intros Hblind Hchain.
  pose proof Hblind as (Hli & Hlp & Hiv & Hhd & Hpush).
  assert (Hstamp : f (stamped index rd) = f rd).
  { unfold stamped. rewrite Hlp, Hli. reflexivity. }
  destruct (run_shape fuel g index refs rd rs out)
    as [[_ Hr] | (lnw & v & m & b & o & r1 & s1 & _ & _ & _ & Hpasses & _ & Hr & _)].
  - destruct Hr as [-> | ->]; [exact Hstamp | rewrite Hiv; exact Hstamp].
  - assert (E : f (read s1) = f rd).
    { eapply (blind_passes f (f rd)); [exact Hpush | exact Hchain | | exact Hpasses].
      exact Hstamp. }
    destruct Hr as [-> | [hd ->]]; [exact E | rewrite Hhd; exact E].
Qed.

(** X15.  When the chainer leaves [lastIndex] and [lastPart] alone, the read
    carries the number and the part of the index it was run against after
    every run of the driver: one that returns at once, one that rejects the
    read as too short, one that searches it, and one that halts. *)
Theorem read_is_stamped_with_the_index_part
  (fuel : nat) (g : Globals) (rd : Read) (rs : Readstats) (out : Output) :
  chainer_keeps lastIndex -> chainer_keeps lastPart ->
  lastIndex (read (snd (run fuel g index refs rd rs out))) = index_num index /\
  lastPart (read (snd (run fuel g index refs rd rs out))) = part index.
Proof.
  intros Hli Hlp.
  destruct (run_shape fuel g index refs rd rs out)
    as [[_ Hr] | (lnw & v & m & b & o & r1 & s1 & _ & _ & _ & Hpasses & _ & Hr & _)].
  - destruct Hr as [-> | ->]; split; reflexivity.
  - assert (E1 : lastIndex (read s1) = index_num index).
    { eapply (blind_passes lastIndex); [| exact Hli | | exact Hpasses]; reflexivity. }
    assert (E2 : lastPart (read s1) = part index).
    { eapply (blind_passes lastPart); [| exact Hlp | | exact Hpasses]; reflexivity. }
    destruct Hr as [-> | [hd ->]]; split; assumption.
Qed.

End SearchedFacts.

(** ** The windows of a pass are searched before the chainer is called *)

Section CoverFacts.

Context `{Collaborators}.

Variables (index : Index NodeElement) (refs : References).
Variables (lnw len : Z).

Hypothesis lnw_current : zlookup (lnwin index) (index_num index) = Some lnw.
Hypothesis window_fits : 0 <= lnw <= len.
Hypothesis read_small : len < 2 ^ 32 - 1.
Hypothesis chainer_keeps_size : chainer_keeps size.

(** The window count is the number of multiples of the stride at which a
    window lies on the read. *)
Lemma numwin_exact (ws : Z) :
  0 < ws < 2 ^ 32 ->
  numwin_of len lnw ws = (len - lnw) / ws + 1 /\
  forall k : Z, 0 <= k -> (k * ws + lnw <= len <-> k < numwin_of len lnw ws).
Proof.
  intros Hws.
  assert (Hnum : numwin_of len lnw ws = (len - lnw) / ws + 1).
  { unfold numwin_of, wrap64.
    rewrite (Z.mod_small (len - lnw + ws)) by lia.
    replace (len - lnw + ws) with (len - lnw + 1 * ws) by lia.
    rewrite Z.div_add by lia.
    apply wrap32_small.
    assert (0 <= (len - lnw) / ws) by (apply Z.div_pos; lia).
    assert ((len - lnw) / ws <= len - lnw) by (apply Z.div_le_upper_bound; nia).
    lia. }
  split; [exact Hnum |].
  intros k Hk. rewrite Hnum.
  pose proof (Z.mul_div_le (len - lnw) ws ltac:(lia)) as Hlow.
  pose proof (Z.mul_succ_div_gt (len - lnw) ws ltac:(lia)) as Hup.
  split; intros Hfit; nia.
Qed.

(** X16.  For a nonzero stride and a read that is long enough and shorter
    than 2^32 - 1, the window count of lines 211-213 is
    [(len - lnwin) / windowshift + 1]: exactly the multiples of the stride at
    which a window lies on the read are counted. *)
Theorem numwin_counts_the_windows_on_the_read (ws : Z) :
  0 < ws < 2 ^ 32 ->
  numwin_of len lnw ws = (len - lnw) / ws + 1 /\
  (forall k : Z, 0 <= k -> (k * ws + lnw <= len <-> k < numwin_of len lnw ws)) /\
  1 <= numwin_of len lnw ws <= len - lnw + 1.
Proof.
  intros Hws. destruct (numwin_exact ws Hws) as [Hnum Hfit].
  split; [exact Hnum |]. split; [exact Hfit |].
  split; [apply numwin_positive; lia |].
  rewrite Hnum.
  assert ((len - lnw) / ws <= len - lnw) by (apply Z.div_le_upper_bound; nia).
  lia.
Qed.

Lemma covered_app (tr es : list event) :
  chained_when_searched lnw len tr -> chained_passes es = [] ->
  chained_when_searched lnw len (tr ++ es).
Proof.
  intros Htr Hes pre p ws b post Heq.
  apply app_eq_app in Heq. destruct Heq as [l [[Ht He] | [Hp He]]].
  - destruct l as [| e l].
    + cbn in He. subst es. discriminate Hes.
    + inversion He; subst. apply (Htr pre p ws b l). reflexivity.
  - subst es. rewrite chained_passes_app in Hes. cbn in Hes.
    apply app_eq_nil in Hes. destruct Hes as [_ Hes]. discriminate.
Qed.

Lemma covered_chain (tr : list event) (p ws : Z) (b : bool) :
  chained_when_searched lnw len tr -> windows_searched lnw len ws tr ->
  chained_when_searched lnw len (tr ++ [Chain p ws b]).
Proof.
  intros Htr Hws pre p' ws' b' post Heq.
  apply app_eq_app in Heq. destruct Heq as [l [[Ht He] | [Hp He]]].
  - destruct l as [| e l].
    + rewrite app_nil_r in Ht. cbn in He.
      injection He as E1 E2 E3 E4. rewrite <- Ht, E2. exact Hws.
    + cbn in He. injection He as E1 E2. rewrite <- E1 in Ht.
      exact (Htr pre p' ws' b' l Ht).
  - destruct l as [| e l].
    + rewrite app_nil_r in Hp. cbn in He.
      injection He as E1 E2 E3 E4. rewrite Hp, <- E2. exact Hws.
    + cbn in He. injection He as E1 E2. destruct l; discriminate.
Qed.

(** The visit of a window keeps the invariant, and after it the window is
    among those searched. *)
Lemma covering_visit (bvs off w : Z) (s s' : state) (r : res unit) :
  covering index lnw len s -> search s = true ->
  visit_window index bvs off w s = (r, s') ->
  covering index lnw len s' /\ search s' = true /\
  windowshift s' = windowshift s /\
  (forall x, In x (searched (trace s)) -> In x (searched (trace s'))) /\
  (r = Val tt -> In w (searched (trace s'))).
Proof.
  intros (Hbit & Hsz & Hcov & Hord & Hdue) Hsearch Hrun.
  pose proof (bitmap_visit index bvs off w s s' r Hbit Hrun) as Hbit'.
  pose proof (visit_window_summary index bvs off w s s' r Hrun)
    as (Hw & Hp & Hs & Hc & (hs & Hr & _) & Hsearched).
  apply visit_window_effect in Hrun.
  destruct Hrun as (_ & _ & _ & _ & _ & _ & Hcase).
  assert (Hsz' : size (read s') = len).
  { rewrite Hr. destruct hs; exact Hsz. }
  assert (Hord' : chained_in_order index (trace s')).
  { unfold chained_in_order. rewrite Hc. exact Hord. }
  assert (Hdue' : search s' = true -> pass_is_due index s').
  { intros _. unfold pass_is_due. rewrite Hc, Hp, Hw. exact (Hdue Hsearch). }
  assert (Hs' : search s' = true) by congruence.
  assert (Hcov' : chained_when_searched lnw len (trace s')).
  { destruct Hcase as [(_ & _ & Ht & _) | (_ & _ & doF & doR & kf & kr & hs' & Ht & _)].
    - rewrite Ht. exact Hcov.
    - rewrite Ht. apply covered_app; [exact Hcov |].
      cbn [chained_passes flat_map app].
      destruct (window_events_silent doF doR kf kr w hs') as (_ & E & _). exact E. }
  split.
  { split; [exact Hbit' |]. split; [exact Hsz' |].
    split; [exact Hcov' |]. split; assumption. }
  split; [exact Hs' |]. split; [exact Hw |].
  destruct Hsearched as [(_ & Ht & Hmarked) | (_ & _ & Ht)].
  - split; [rewrite Ht; auto |].
    intros Hval. specialize (Hmarked Hval). apply zlookup_Some in Hmarked.
    rewrite Ht. apply (proj2 Hbit). exact Hmarked.
  - split; [intros x Hx; rewrite Ht; apply in_app_iff; left; exact Hx |].
    intros _. rewrite Ht. apply in_app_iff. right. left. reflexivity.
Qed.

(** The end of a pass keeps the invariant when the windows of the pass have
    been searched. *)
Lemma covering_check (max_sw : Z) (s s' : state) (r : res unit) :
  covering index lnw len s -> search s = true ->
  windows_searched lnw len (windowshift s) (trace s) ->
  check_score index refs max_sw s = (r, s') ->
  outcome (covering index lnw len)
          (fun s => chained_when_searched lnw len (trace s)) r s'.
Proof.
  intros (Hbit & Hsz & Hcov & Hord & Hdue) Hsearch Hall Hrun.
  pose proof (bitmap_check index refs max_sw s s' r Hbit Hrun) as Hbit'.
  destruct (chained_check index refs max_sw s s' r Hord (Hdue Hsearch) Hrun)
    as [Hord' Hdue'].
  apply check_score_effect in Hrun. cbn zeta in Hrun.
  destruct Hrun as (Hr & _ & _ & _ & (ixs & Ht) & _).
  assert (Hcov' : chained_when_searched lnw len (trace s')).
  { rewrite Ht.
    change (trace s ++ Chain (pass_n s) (windowshift s)
                         (c_search (compute_lis_alignment (read s) index refs (readstats s)
                                      (output s) (search s) max_sw (read_to_count s)))
                       :: map Stride_read ixs)
      with (trace s ++ [Chain (pass_n s) (windowshift s)
                          (c_search (compute_lis_alignment (read s) index refs (readstats s)
                                       (output s) (search s) max_sw (read_to_count s)))]
                    ++ map Stride_read ixs).
    rewrite app_assoc. apply covered_app.
    - apply covered_chain; assumption.
    - destruct (stride_reads_silent ixs) as (_ & E & _). exact E. }
  destruct r as [[] | h]; cbn [outcome]; [| exact Hcov'].
  split; [exact Hbit' |]. split; [rewrite Hr, chainer_keeps_size; exact Hsz |].
  split; [exact Hcov' |]. split; [exact Hord' | exact (Hdue' eq_refl)].
Qed.

(** The window loop from window [win_num], the windows before it having
    been searched. *)
Lemma covering_windows (ws : Z) (n : nat) (max_sw bvs off : Z) :
  0 < ws < 2 ^ 32 ->
  forall (win_num win_index : Z) (s s' : state) (r : res unit),
    covering index lnw len s -> search s = true -> windowshift s = ws ->
    0 <= win_num -> win_index = win_num * ws ->
    (forall k, 0 <= k < win_num -> In (k * ws) (searched (trace s))) ->
    windows n index refs (numwin_of len lnw ws) max_sw bvs off win_num win_index s
    = (r, s') ->
    outcome (covering index lnw len)
            (fun s => chained_when_searched lnw len (trace s)) r s'.
Proof.
  intros Hws. destruct (numwin_exact ws Hws) as [Hnum Hfit].
  pose proof (wrap32_range ((len - lnw) / ws)) as Hq.
  assert (Hnw : 1 <= numwin_of len lnw ws < 2 ^ 32).
  { split; [apply numwin_positive; lia |]. unfold numwin_of. apply wrap32_range. }
  induction n as [| n IH];
    intros win_num win_index s s' r Hcov Hsearch Hshift Hnum0 Hidx Hbefore Hrun.
  { cbn in Hrun. inversion Hrun; subst. destruct Hcov as (_ & _ & Hc & _). exact Hc. }
  cbn [windows] in Hrun.
  destruct (Z.ltb_spec win_num (numwin_of len lnw ws)) as [Hlt | Hge].
  2:{ inversion Hrun; subst. exact Hcov. }
  unfold bind at 1 in Hrun.
  destruct (visit_window index bvs off win_index s) as [rv sv] eqn:Hvisit.
  destruct (covering_visit bvs off win_index s sv rv Hcov Hsearch Hvisit)
    as (Hcov1 & Hsearch1 & Hshift1 & Hgrow & Hnow).
  destruct rv as [[] | h].
  2:{ inversion Hrun; subst. destruct Hcov1 as (_ & _ & Hc & _). exact Hc. }
  specialize (Hnow eq_refl).
  assert (Hupto : forall k, 0 <= k < win_num + 1 -> In (k * ws) (searched (trace sv))).
  { intros k Hk. destruct (Z.eq_dec k win_num) as [-> | Hne].
    - rewrite <- Hidx. exact Hnow.
    - apply Hgrow, Hbefore. lia. }
  rewrite (wrap32_small (numwin_of len lnw ws - 1)) in Hrun by lia.
  destruct (Z.eqb_spec win_num (numwin_of len lnw ws - 1)) as [Hlast | Hmore].
  - apply (covering_check max_sw sv s' r Hcov1 Hsearch1); [| exact Hrun].
    rewrite Hshift1, Hshift. intros k Hk Hkfit.
    apply Hupto. apply Hfit in Hkfit; [lia | exact Hk].
  - unfold bind at 1 in Hrun. unfold gets at 1 in Hrun.
    rewrite Hshift1, Hshift in Hrun.
    rewrite (wrap32_small (win_num + 1)) in Hrun by lia.
    assert (Hnext : (win_num + 1) * ws + lnw <= len)
      by (apply Hfit; lia).
    assert (Hwi : wrap32 (win_index + ws) = (win_num + 1) * ws).
    { rewrite Hidx. replace (win_num * ws + ws) with ((win_num + 1) * ws) by lia.
      apply wrap32_small. nia. }
    rewrite Hwi in Hrun.
    apply (IH (win_num + 1) ((win_num + 1) * ws) sv s' r Hcov1 Hsearch1);
      [congruence | lia | reflexivity | exact Hupto | exact Hrun].
Qed.

Lemma covering_passes (fuel : nat) (max_sw bvs off : Z) (s s' : state) (r : res unit) :
  covering index lnw len s ->
  passes fuel index refs max_sw bvs off s = (r, s') ->
  chained_when_searched lnw len (trace s').
Proof.
  intros Hs Hrun.
  pose proof (passes_rule index refs (covering index lnw len)
                (fun s => chained_when_searched lnw len (trace s))) as Hrule.
  specialize (Hrule ltac:(intros st (_ & _ & Hc & _); exact Hc) fuel max_sw bvs off).
  assert (Hw : forall (lnw0 : Z) (s s' : state) (r : res unit),
             covering index lnw len s -> search s = true ->
             zlookup (lnwin index) (index_num index) = Some lnw0 ->
             windowshift s <> 0 ->
             windows (S (Z.to_nat (numwin_of (size (read s)) lnw0 (windowshift s))))
               index refs (numwin_of (size (read s)) lnw0 (windowshift s))
               max_sw bvs off 0 0 s = (r, s') ->
             outcome (covering index lnw len)
                     (fun s => chained_when_searched lnw len (trace s)) r s').
  { intros lnw0 st st' rr Hst Hsr Hl Hnz Hwin.
    rewrite lnw_current in Hl. injection Hl as <-.
    pose proof Hst as (_ & Hsz & _ & _ & Hdue).
    destruct (Hdue Hsr) as (_ & _ & v & _ & Hv).
    pose proof (wrap32_range v) as Hrange.
    rewrite Hsz in Hwin.
    assert (Hpos : 0 < windowshift st < 2 ^ 32) by lia.
    eapply (covering_windows (windowshift st) _ max_sw bvs off Hpos 0 0 st st' rr);
      [exact Hst | exact Hsr | reflexivity | lia | reflexivity | | exact Hwin].
    intros k Hk. lia. }
  specialize (Hrule Hw s s' r Hs Hrun).
  destruct r; [destruct Hrule as (_ & _ & Hc & _); exact Hc | exact Hrule].
Qed.

Lemma run_covered
  (fuel : nat) (g : Globals) (rd : Read) (rs : Readstats) (out : Output) :
  size rd = len ->
  chained_when_searched lnw len (trace (snd (run fuel g index refs rd rs out))).
Proof.
  intros Hsz.
  destruct (run_shape fuel g index refs rd rs out)
    as [[Htr _] | (lnw0 & v & m & b & o & r1 & s1 & _ & _ & Hv & Hpasses & Htr & _)].
  - intros pre p ws bb post Heq.
    assert (Hnone : chained_passes (trace (snd (run fuel g index refs rd rs out))) = [])
      by (destruct Htr as [-> | [-> | [l ->]]]; reflexivity).
    rewrite Heq, chained_passes_app in Hnone. cbn in Hnone.
    apply app_eq_nil in Hnone. destruct Hnone as [_ Hnone]. discriminate.
  - rewrite Htr. eapply covering_passes; [| exact Hpasses].
    split; [apply bitmap_primed; reflexivity |].
    split; [exact Hsz |].
    split.
    { intros pre p ws bb post Heq. cbn in Heq.
      destruct pre as [| e pre]; [discriminate |].
      injection Heq as _ Heq. destruct pre; discriminate. }
    split; [split; cbn; auto |].
    intros _. split; [cbn; lia |]. split; [cbn; constructor |].
    exists v. split; [exact Hv | reflexivity].
Qed.

(** X17.  When the chainer is called at the end of a pass, every window of
    that pass has been searched, in this pass or an earlier one: each offset
    that is a multiple of the stride of the pass, with the window on the
    read, is the offset of a window searched before the call. *)
Theorem chainer_is_called_after_the_windows_of_its_pass
  (fuel : nat) (g : Globals) (rd : Read) (rs : Readstats) (out : Output) :
  size rd = len ->
  forall (pre : list event) (p ws : Z) (b : bool) (post : list event),
    trace (snd (run fuel g index refs rd rs out)) = pre ++ Chain p ws b :: post ->
    forall k : Z, 0 <= k -> k * ws + lnw <= len -> In (Search_window (k * ws)) pre.
Proof.
  intros Hsz pre p ws b post Htr k Hk Hfit.
  apply in_searched.
  exact (run_covered fuel g rd rs out Hsz pre p ws b post Htr k Hk Hfit).
Qed.

End CoverFacts.

(** ** The hits appended and the tries traversed *)

Section HitFacts.

Context `{Collaborators}.

Variables (index : Index NodeElement) (refs : References).

Lemma recorded_hits (hs : list id_win) (r : Read) :
  id_win_hits (recorded hs r) = id_win_hits r ++ hs.
Proof. destruct hs; cbn; [rewrite app_nil_r |]; reflexivity. Qed.

Lemma hits_passes (hits0 : list id_win)
  (fuel : nat) (max_sw bvs off : Z) (s s' : state) (r : res unit) :
  chainer_keeps id_win_hits ->
  id_win_hits (read s) = hits0 ++ pushed (trace s) ->
  passes fuel index refs max_sw bvs off s = (r, s') ->
  id_win_hits (read s') = hits0 ++ pushed (trace s').
Proof.
  intros Hchain Hs Hrun.
  pose proof (pass_loop_rule index refs
                (fun s => id_win_hits (read s) = hits0 ++ pushed (trace s))
                (fun s => id_win_hits (read s) = hits0 ++ pushed (trace s))) as Hrule.
  specialize (Hrule ltac:(auto)).
  assert (Hv : forall (bvs off w : Z) (s s' : state) (r : res unit),
             id_win_hits (read s) = hits0 ++ pushed (trace s) -> search s = true ->
             visit_window index bvs off w s = (r, s') ->
             outcome (fun s => id_win_hits (read s) = hits0 ++ pushed (trace s))
                     (fun s => id_win_hits (read s) = hits0 ++ pushed (trace s)) r s').
  { intros b o w st st' rr Hst _ Hvis. apply visit_window_summary in Hvis.
    destruct Hvis as (_ & _ & _ & _ & (hs & Hr & Hp) & _).
    assert (E : id_win_hits (read st') = hits0 ++ pushed (trace st')).
    { rewrite Hr, Hp, recorded_hits, Hst, app_assoc. reflexivity. }
    destruct rr; exact E. }
  assert (Hc : forall (max_sw : Z) (s s' : state) (r : res unit),
             id_win_hits (read s) = hits0 ++ pushed (trace s) -> search s = true ->
             check_score index refs max_sw s = (r, s') ->
             outcome (fun s => id_win_hits (read s) = hits0 ++ pushed (trace s))
                     (fun s => id_win_hits (read s) = hits0 ++ pushed (trace s)) r s').
  { intros m st st' rr Hst _ Hchk. apply check_score_effect in Hchk. cbn zeta in Hchk.
    destruct Hchk as (Hr & _ & _ & _ & (ixs & Ht) & _).
    assert (E : id_win_hits (read st') = hits0 ++ pushed (trace st')).
    { rewrite Hr, Hchain, Hst, Ht, pushed_app. cbn [pushed flat_map app].
      destruct (stride_reads_silent ixs) as (_ & _ & Ep). unfold pushed in Ep.
      rewrite Ep, app_nil_r. reflexivity. }
    destruct rr; exact E. }
  specialize (Hrule Hv Hc fuel max_sw bvs off s s' r Hs Hrun).
  destruct r; exact Hrule.
Qed.

(** X18.  When the chainer leaves [id_win_hits] alone, the hits of the read
    after a run are those it had before, followed by the hits the seed
    search appended, window by window in the order of the search; the driver
    removes and reorders none. *)
Theorem hits_are_appended_in_order
  (fuel : nat) (g : Globals) (rd : Read) (rs : Readstats) (out : Output) :
  chainer_keeps id_win_hits ->
  id_win_hits (read (snd (run fuel g index refs rd rs out))) =
    id_win_hits rd ++ pushed (trace (snd (run fuel g index refs rd rs out))).
Proof.
  intros Hchain.
  destruct (run_shape fuel g index refs rd rs out)
    as [[Htr Hr] | (lnw & v & m & b & o & r1 & s1 & _ & _ & _ & Hpasses & Htr & Hr & _)].
  - assert (Hnone : pushed (trace (snd (run fuel g index refs rd rs out))) = [])
      by (destruct Htr as [-> | [-> | [l ->]]]; reflexivity).
    rewrite Hnone, app_nil_r. destruct Hr as [-> | ->]; reflexivity.
  - rewrite Htr.
    assert (E : id_win_hits (read s1) = id_win_hits rd ++ pushed (trace s1)).
    { eapply hits_passes; [exact Hchain | | exact Hpasses].
      cbn. rewrite app_nil_r. reflexivity. }
    destruct Hr as [-> | [hd ->]]; exact E.
Qed.

Lemma count_events_app (f : event -> bool) (tr es : list event) :
  count_events f (tr ++ es) = (count_events f tr + count_events f es)%nat.
Proof. unfold count_events. rewrite List.filter_app, length_app. reflexivity. Qed.

Lemma searched_length_app (tr es : list event) :
  List.length (searched (tr ++ es)) =
  (List.length (searched tr) + List.length (searched es))%nat.
Proof. rewrite searched_app, length_app. reflexivity. Qed.

Lemma window_events_traversals (doF doR : bool) (keyf keyr w : Z) (hs : list id_win) :
  (count_events is_Traverse_F (window_events doF doR keyf keyr w hs) <= 1)%nat /\
  (count_events is_Traverse_R (window_events doF doR keyf keyr w hs) <= 1)%nat.
Proof.
  assert (Hp : count_events is_Traverse_F (map Push_hit hs) = 0%nat /\
               count_events is_Traverse_R (map Push_hit hs) = 0%nat).
  { induction hs as [| h hs [IHf IHr]]; [auto |]. cbn. auto. }
  destruct Hp as [Hf Hr].
  unfold window_events. rewrite !count_events_app, Hf, Hr.
  destruct doF, doR; cbn; lia.
Qed.

Lemma stride_reads_no_traversal (ixs : list Z) :
  count_events is_Traverse_F (map Stride_read ixs) = 0%nat /\
  count_events is_Traverse_R (map Stride_read ixs) = 0%nat.
Proof. induction ixs as [| i ixs [IHf IHr]]; cbn; auto. Qed.

Lemma traversed_passes
  (fuel : nat) (max_sw bvs off : Z) (s s' : state) (r : res unit) :
  traversed_once (trace s) ->
  passes fuel index refs max_sw bvs off s = (r, s') ->
  traversed_once (trace s').
Proof.
  intros Hs Hrun.
  pose proof (pass_loop_rule index refs (fun s => traversed_once (trace s))
                (fun s => traversed_once (trace s))) as Hrule.
  specialize (Hrule ltac:(auto)).
  assert (Hv : forall (bvs off w : Z) (s s' : state) (r : res unit),
             traversed_once (trace s) -> search s = true ->
             visit_window index bvs off w s = (r, s') ->
             outcome (fun s => traversed_once (trace s))
                     (fun s => traversed_once (trace s)) r s').
  { intros b o w st st' rr [HF HR] _ Hvis. apply visit_window_effect in Hvis.
    destruct Hvis as (_ & _ & _ & _ & _ & _ & Hcase).
    assert (E : traversed_once (trace st')).
    { destruct Hcase as [(_ & _ & Ht & _) | (_ & _ & doF & doR & kf & kr & hs & Ht & _)].
      - rewrite Ht. split; assumption.
      - rewrite Ht.
        change (trace st ++ Search_window w :: window_events doF doR kf kr w hs)
          with (trace st ++ [Search_window w] ++ window_events doF doR kf kr w hs).
        destruct (window_events_traversals doF doR kf kr w hs) as [H1 H2].
        unfold traversed_once.
        rewrite !count_events_app, !searched_length_app. cbn. lia. }
    destruct rr; exact E. }
  assert (Hc : forall (max_sw : Z) (s s' : state) (r : res unit),
             traversed_once (trace s) -> search s = true ->
             check_score index refs max_sw s = (r, s') ->
             outcome (fun s => traversed_once (trace s))
                     (fun s => traversed_once (trace s)) r s').
  { intros m st st' rr [HF HR] _ Hchk. apply check_score_effect in Hchk. cbn zeta in Hchk.
    destruct Hchk as (_ & _ & _ & _ & (ixs & Ht) & _).
    assert (E : traversed_once (trace st')).
    { rewrite Ht.
      match goal with
      | |- traversed_once (?t ++ ?c :: ?l) => change (t ++ c :: l) with (t ++ [c] ++ l)
      end.
      destruct (stride_reads_no_traversal ixs) as [E1 E2].
      unfold traversed_once.
      rewrite !count_events_app, !searched_length_app, E1, E2. cbn. lia. }
    destruct rr; exact E. }
  specialize (Hrule Hv Hc fuel max_sw bvs off s s' r Hs Hrun).
  destruct r; exact Hrule.
Qed.

(** X19.  In a run of the driver each of the two tries is traversed at most
    once per window searched: the traversals of [trie_F], and those of
    [trie_R], are at most as many as the windows searched. *)
Theorem tries_are_traversed_once_per_window
  (fuel : nat) (g : Globals) (rd : Read) (rs : Readstats) (out : Output) :
  (count_events is_Traverse_F (trace (snd (run fuel g index refs rd rs out)))
   <= List.length (searched (trace (snd (run fuel g index refs rd rs out)))))%nat /\
  (count_events is_Traverse_R (trace (snd (run fuel g index refs rd rs out)))
   <= List.length (searched (trace (snd (run fuel g index refs rd rs out)))))%nat.
Proof.
  change (traversed_once (trace (snd (run fuel g index refs rd rs out)))).
  destruct (run_shape fuel g index refs rd rs out)
    as [[Htr _] | (lnw & v & m & b & o & r1 & s1 & _ & _ & _ & Hpasses & Htr & _)].
  - destruct Htr as [-> | [-> | [l ->]]]; split; cbn; lia.
  - rewrite Htr. eapply traversed_passes; [| exact Hpasses].
    split; cbn; lia.
Qed.

End HitFacts.

(** ** [paralleltraversal] *)

Section PoolFacts.

Context `{IndexStore}.

Variable o : Poolopts.

Hypothesis parts_kept : load_keeps_parts.

Lemma numbered_cons {A : Type} (k : Z) (a : A) (l : list A) :
  numbered k (a :: l) = (k, a) :: numbered (k + 1) l.
Proof.
  unfold numbered. cbn [List.length].
  rewrite Nat2Z.inj_succ. rewrite seqZ_cons by lia.
  replace (Z.pred (Z.succ (Z.of_nat (List.length l)))) with (Z.of_nat (List.length l)) by lia.
  replace (Z.succ k) with (k + 1) by lia. reflexivity.
Qed.

Lemma numbered_app {A : Type} (l1 : list A) :
  forall (k : Z) (l2 : list A),
    numbered k (l1 ++ l2) = numbered k l1 ++ numbered (k + Z.of_nat (List.length l1)) l2.
Proof.
  induction l1 as [| a l1 IH]; intros k l2.
  - cbn. rewrite Z.add_0_r. reflexivity.
  - cbn [app]. rewrite !numbered_cons, IH. cbn [app List.length].
    replace (k + 1 + Z.of_nat (List.length l1)) with (k + Z.of_nat (S (List.length l1))) by lia.
    reflexivity.
Qed.

(** The loop over the parts of one index, [m] parts being left. *)
Lemma index_parts_run (index_num n : Z) (m : nat) :
  forall (fuel : nat) (ix : Loaded) (idx_part loopCount : Z),
    zlookup (num_index_parts ix) index_num = Some n ->
    0 <= idx_part -> idx_part + Z.of_nat m = n -> n < 2 ^ 16 ->
    (m < fuel)%nat ->
    0 <= loopCount -> loopCount + Z.of_nat m < 2 ^ 31 ->
    exists ix' : Loaded,
      index_parts fuel o ix index_num idx_part loopCount =
        inr (ix', loopCount + Z.of_nat m,
             flat_map (fun kp => part_calls o (fst kp) (snd kp))
               (numbered loopCount (map (pair index_num) (seqZ idx_part (Z.of_nat m))))) /\
      num_index_parts ix' = num_index_parts ix.
Proof.
  induction m as [| m IH]; intros fuel ix idx_part loopCount Hn Hpart Hleft Hsmall Hfuel Hlc Hmax.
  - destruct fuel as [| fuel]; [lia |]. cbn [index_parts]. rewrite Hn.
    destruct (Z.ltb_spec idx_part n) as [Hlt | _]; [lia |].
    exists ix. rewrite Z.add_0_r. split; reflexivity.
  - destruct fuel as [| fuel]; [lia |]. cbn [index_parts]. rewrite Hn.
    destruct (Z.ltb_spec idx_part n) as [_ | Hge]; [| lia].
    assert (Hint : in_int (loopCount + 1) = true).
    { unfold in_int. apply andb_true_iff. split; [apply Z.leb_le | apply Z.ltb_lt]; lia. }
    rewrite Hint.
    assert (Hw : wrap16 (idx_part + 1) = idx_part + 1).
    { unfold wrap16. apply Z.mod_small. lia. }
    rewrite Hw.
    destruct (IH fuel (index_load ix index_num idx_part) (idx_part + 1) (loopCount + 1))
      as (ix' & Hrun & Hparts); try lia.
    { rewrite parts_kept. exact Hn. }
    rewrite Hrun. exists ix'. split; [| rewrite Hparts; apply parts_kept].
    rewrite Nat2Z.inj_succ. rewrite (seqZ_cons idx_part) by lia.
    cbn [map]. rewrite numbered_cons. cbn [flat_map fst snd].
    replace (Z.pred (Z.succ (Z.of_nat m))) with (Z.of_nat m) by lia.
    replace (Z.succ idx_part) with (idx_part + 1) by lia.
    replace (loopCount + 1 + Z.of_nat m) with (loopCount + Z.succ (Z.of_nat m)) by lia.
    reflexivity.
Qed.

(** The loop over the indexes with the part counts [counts]. *)
Lemma indexes_run (parts_fuel : nat) (counts : list Z) :
  forall (fuel : nat) (ix : Loaded) (index_num loopCount : Z),
    (forall (j : nat) (c : Z),
        counts !! j = Some c ->
        num_index_parts ix !! (Z.to_nat index_num + j)%nat = Some c) ->
    0 <= index_num ->
    index_num + Z.of_nat (List.length counts)
    = wrap16 (Z.of_nat (List.length (indexfiles o))) ->
    Forall (fun n => 0 <= n < 2 ^ 16 /\ n < Z.of_nat parts_fuel) counts ->
    (List.length counts < fuel)%nat ->
    0 <= loopCount ->
    loopCount + Z.of_nat (List.length (all_parts index_num counts)) < 2 ^ 31 ->
    exists ix' : Loaded,
      indexes fuel parts_fuel o ix index_num loopCount =
        inr (ix', loopCount + Z.of_nat (List.length (all_parts index_num counts)),
             flat_map (fun kp => part_calls o (fst kp) (snd kp))
               (numbered loopCount (all_parts index_num counts))) /\
      num_index_parts ix' = num_index_parts ix.
Proof.
  induction counts as [| n counts IH];
    intros fuel ix index_num loopCount Hcounts Hi Hend Hall Hfuel Hlc Hmax.
  - destruct fuel as [| fuel]; [cbn in Hfuel; lia |]. cbn [indexes].
    cbn [List.length] in Hend.
    destruct (Z.ltb_spec index_num (wrap16 (Z.of_nat (List.length (indexfiles o)))));
      [lia |].
    exists ix. cbn. rewrite Z.add_0_r. split; reflexivity.
  - destruct fuel as [| fuel]; [cbn in Hfuel; lia |]. cbn [indexes].
    cbn [List.length] in Hend, Hfuel.
    assert (Hw16 : 0 <= wrap16 (Z.of_nat (List.length (indexfiles o))) < 2 ^ 16)
      by (unfold wrap16; apply Z.mod_pos_bound; lia).
    destruct (Z.ltb_spec index_num (wrap16 (Z.of_nat (List.length (indexfiles o)))));
      [| lia].
    inversion Hall as [| n' counts' [Hn Hnfuel] Hrest]; subst.
    cbn [all_parts] in Hmax |- *.
    rewrite length_app, length_map, length_seqZ in Hmax |- *.
    assert (Hlook : zlookup (num_index_parts ix) index_num = Some n).
    { unfold zlookup. destruct (Z.ltb_spec index_num 0); [lia |].
      specialize (Hcounts 0%nat n eq_refl). rewrite Nat.add_0_r in Hcounts. exact Hcounts. }
    destruct (index_parts_run index_num n (Z.to_nat n) parts_fuel ix 0 loopCount)
      as (ix1 & Hrun1 & Hparts1); try lia; [exact Hlook |].
    rewrite Hrun1.
    assert (Hw : wrap16 (index_num + 1) = index_num + 1).
    { unfold wrap16. apply Z.mod_small. lia. }
    rewrite Hw.
    destruct (IH fuel ix1 (index_num + 1) (loopCount + Z.of_nat (Z.to_nat n)))
      as (ix2 & Hrun2 & Hparts2); try lia; try assumption.
    { intros j c Hj. rewrite Hparts1.
      replace (Z.to_nat (index_num + 1) + j)%nat with (Z.to_nat index_num + S j)%nat by lia.
      apply Hcounts. exact Hj. }
    rewrite Hrun2. exists ix2. split; [| rewrite Hparts2; exact Hparts1].
    rewrite numbered_app, flat_map_app, length_map, length_seqZ.
    rewrite Nat2Z.inj_add, Z2Nat.id, Z.add_assoc by lia.
    reflexivity.
Qed.

Lemma jobs_of_a_part (k : Z) (ip : Z * Z) :
  Z.of_nat (List.length (List.filter is_job (part_calls o k ip)))
  = 2 * Z.max 0 (num_fread_threads o) + Z.max 0 (num_proc_threads o).
Proof.
  unfold part_calls. cbn [app List.filter is_job].
  rewrite List.filter_app, length_app.
  assert (Hrw : forall l : list Z,
             List.length (List.filter is_job
                            (flat_map (fun i => [Add_reader i k; Add_writer i]) l))
             = (2 * List.length l)%nat).
  { induction l as [| i l IH]; [reflexivity |]. cbn. rewrite IH. lia. }
  assert (Hp : forall l : list Z,
             List.length (List.filter is_job (map Add_processor l)) = List.length l).
  { induction l as [| i l IH]; [reflexivity |]. cbn. rewrite IH. reflexivity. }
  unfold reader_writer_jobs, processor_jobs. rewrite Hrw, Hp, !length_seqZ. lia.
Qed.

Lemma jobs_of_parts (l : list (Z * (Z * Z))) :
  Z.of_nat (List.length (List.filter is_job
                           (flat_map (fun kp => part_calls o (fst kp) (snd kp)) l)))
  = (2 * Z.max 0 (num_fread_threads o) + Z.max 0 (num_proc_threads o))
    * Z.of_nat (List.length l).
Proof.
  induction l as [| kp l IH]; [cbn; lia |].
  cbn [flat_map List.length]. rewrite List.filter_app, length_app, Nat2Z.inj_add.
  rewrite IH, jobs_of_a_part. lia.
Qed.

(** X20.  When no counter wraps - fewer than 2^16 index files, fewer than
    2^16 parts in each index, fewer than 2^31 parts in all - and [load] leaves
    the part counts alone, [paralleltraversal] makes the pool with
    [2 * num_fread_threads + num_proc_threads] threads, takes the parts index
    by index, submits for each part a Reader and a Writer per reading thread
    and a Processor per processing thread, the Readers of the k-th part
    carrying [loopCount = k], and waits once, after the last part, before it
    writes the log.  The jobs submitted are as many as the parts times the
    threads of the pool. *)
Theorem paralleltraversal_submits_every_part
  (fuel : nat) (numCores : Z) (ix : Loaded) (counts : list Z) :
  Z.of_nat (List.length (indexfiles o)) < 2 ^ 16 ->
  List.length counts = List.length (indexfiles o) ->
  (forall (j : nat) (c : Z), counts !! j = Some c -> num_index_parts ix !! j = Some c) ->
  Forall (fun n => 0 <= n < 2 ^ 16 /\ n < Z.of_nat fuel) counts ->
  (List.length counts < fuel)%nat ->
  Z.of_nat (List.length (all_parts 0 counts)) < 2 ^ 31 ->
  0 <= num_fread_threads o -> 0 <= num_proc_threads o ->
  2 * num_fread_threads o + num_proc_threads o < 2 ^ 31 ->
  paralleltraversal fuel o numCores ix = inr (submission o numCores counts) /\
  Z.of_nat (List.length (List.filter is_job (submission o numCores counts)))
  = (2 * num_fread_threads o + num_proc_threads o)
    * Z.of_nat (List.length (all_parts 0 counts)).
Proof.
  intros Hfiles Hlen Hcounts Hall Hfuel Htotal HR HP HT.
  split.
  - unfold paralleltraversal, submission.
    assert (Hint : in_int (2 * num_fread_threads o)
                   && in_int (2 * num_fread_threads o + num_proc_threads o) = true).
    { unfold in_int. rewrite !andb_true_iff.
      repeat split; (apply Z.leb_le || apply Z.ltb_lt); lia. }
    rewrite Hint.
    destruct (indexes_run fuel counts fuel ix 0 0) as (ix' & Hrun & _);
      try lia; try assumption.
    { unfold wrap16. rewrite Z.mod_small by lia. lia. }
    rewrite Hrun. reflexivity.
  - unfold submission. rewrite List.filter_app, length_app.
    cbn [List.filter is_job]. rewrite List.filter_app, length_app.
    assert (Hwarn : forall l, (l = [] \/ exists a b, l = [Warn_cores a b]) ->
                              List.length (List.filter is_job l) = 0%nat).
    { intros l [-> | (a & b & ->)]; reflexivity. }
    rewrite Hwarn by (destruct (_ >? _); eauto).
    cbn [List.filter is_job List.length]. rewrite Nat.add_0_l, Nat.add_0_r.
    rewrite jobs_of_parts. unfold numbered.
    rewrite length_zip_with, length_seqZ. nia.
Qed.

End PoolFacts.

(** * Closed examples

    The theorems above at the sample inputs, and the runs that separate the
    code from the specification's wording. *)

(** The sample traversal records its hits under the window it is given. *)
Lemma sample_traverse_marks (t lev d : Z) (bw : unit) (o : Z) (acc : bool)
  (hits : list id_win) (rid w pw : Z) :
  Forall (fun h => win h = w) hits ->
  Forall (fun h => win h = w) (snd (sample_traverse t lev d bw o acc hits rid w pw)).
Proof.
  intros Hhits. cbn. apply Forall_app. split; [exact Hhits |].
  constructor; [reflexivity | constructor].
Qed.

(** ** C1 *)

(** With [num_alignments_gv = 1] and the countdown of the read at zero, the
    reverse-strand run does not return at once: the read is searched. *)
Lemma countdown_at_zero_is_searched :
  let g := sample_globals 1 0 0 false in
  let index := sample_index false 2 [3; 2; 1] in
  let rd := sample_read [] 0 0 false true in
  let r := @run undecided 4 g index tt rd sample_stats tt in
  forward (opts index) = false /\ 0 < num_alignments_gv g /\ num_alignments rd = 0 /\
  In (Search_window 0) (trace (snd r)) /\
  r <> (Val tt, @enter undecided (@stamped undecided index rd) sample_stats tt).
Proof.
  cbv zeta. split; [reflexivity |]. split; [reflexivity |]. split; [reflexivity |].
  split.
  - vm_compute. right. left. reflexivity.
  - intros E. apply (f_equal (fun x => List.length (trace (snd x)))) in E.
    vm_compute in E. discriminate E.
Qed.

Lemma reverse_strand_early_return_witness :
  (@run undecided 4 (sample_globals 1 0 0 false)
     (sample_index false 2 [3; 2; 1]) tt (sample_read [] (-1) 0 false true)
     sample_stats tt
   = (Val tt, @enter undecided (@stamped undecided (sample_index false 2 [3; 2; 1])
                       (sample_read [] (-1) 0 false true)) sample_stats tt)) /\
  (@run undecided 4 (sample_globals 0 1 1 false)
     (sample_index false 2 [3; 2; 1]) tt (sample_read [] 0 1 true true)
     sample_stats tt
   = (Val tt, @enter undecided (@stamped undecided (sample_index false 2 [3; 2; 1])
                       (sample_read [] 0 1 true true)) sample_stats tt)).
Proof.
  split.
  - apply (@reverse_strand_early_return undecided).
    + reflexivity.
    + left. cbn. lia.
  - apply (@reverse_strand_early_return undecided).
    + reflexivity.
    + right. cbn. lia.
Defined.

(** ** C2 *)

(** A read shorter than the window keeps the alignments it arrived with; and
    on the reverse strand a read whose countdown is below zero is left before
    the length test, so it stays valid. *)
Lemma short_read_keeps_alignments_or_validity :
  let short := sample_index true 6 [3; 2; 1] in
  let rd := sample_read [sample_alignment] 0 0 true true in
  let r := @run undecided 4 (sample_globals 0 0 0 false)
             short tt rd sample_stats tt in
  let short_rev := sample_index false 6 [3; 2; 1] in
  let rd' := sample_read [] (-1) 0 false true in
  let r' := @run undecided 4 (sample_globals 1 0 0 false)
              short_rev tt rd' sample_stats tt in
  (size rd < 6 /\ alignments (read (snd r)) = [sample_alignment]) /\
  (size rd' < 6 /\ isValid (read (snd r')) = true).
Proof.
  cbv zeta. split; split; try reflexivity.
Qed.

Lemma too_short_read_is_invalidated_witness :
  let r := @run undecided 4 (sample_globals 0 0 0 false)
             (sample_index true 6 [3; 2; 1]) tt (sample_read [] 0 0 false true)
             sample_stats tt in
  fst r = Val tt /\
  isValid (read (snd r)) = false /\
  alignments (read (snd r)) = [] /\
  trace (snd r) = [Warn_too_short 5 6].
Proof.
  destruct (@too_short_read_is_invalidated undecided
              4 (sample_globals 0 0 0 false) (sample_index true 6 [3; 2; 1]) tt
              (sample_read [] 0 0 false true) sample_stats tt 6
              eq_refl eq_refl eq_refl) as (Hv & Hi & Ha & _ & Ht).
  repeat split; assumption.
Defined.

(** ** C3 *)

Lemma probed_windows_lie_on_the_read_witness :
  let tr := trace (snd (@run undecided 4 (sample_globals 0 0 0 false)
                          (sample_index true 2 [3; 2; 1]) tt
                          (sample_read [] 0 0 false true) sample_stats tt)) in
  (forall w, In (Search_window w) tr -> 0 <= w /\ w + 2 <= 4) /\
  (forall h, In (Push_hit h) tr -> 0 <= win h /\ win h + 2 <= 4).
Proof.
  destruct (@probed_windows_lie_on_the_read undecided 4 (sample_globals 0 0 0 false)
              (sample_index true 2 [3; 2; 1]) tt (sample_read [] 0 0 false true)
              sample_stats tt 2 eq_refl)
    as (Hsearch & _ & Hpush & _).
  - vm_compute. discriminate.
  - reflexivity.
  - intros. reflexivity.
  - split; [exact Hsearch |]. apply Hpush. exact sample_traverse_marks.
Defined.

(** ** C4 *)

(** C4.  With the three strides 1, 2, 2 and a chainer that never accepts,
    the pass loop neither ends with the pass at [pass_n = 2] nor with a
    chainer that is done: after the final window of pass 1 the advance
    collapses the equal strides, reaches [pass_n = 2] with [search] still
    true, and reads [skiplengths[..][3]], beyond the three strides; no third
    pass is made.  With the strides 1, 1, 2, where the equal strides are the
    first two, the advance does what the claim says: the second pass is the
    one at [pass_n = 2] and the loop ends with it. *)
Theorem equal_last_strides_stop_the_pass_loop :
  let g := sample_globals 0 0 0 false in
  let rd := wide_read false true in
  let last_two := @run undecided 4 g (wide_index true [1; 2; 2]) tt rd sample_stats tt in
  let first_two := @run undecided 4 g (wide_index true [1; 1; 2]) tt rd sample_stats tt in
  (zlookup [1; 2; 2] 3 = None /\
   fst last_two = Halt (UB (OutOfRange V_strides 3)) /\
   List.filter is_Chain (trace (snd last_two)) = [Chain 0 1 true; Chain 1 2 true] /\
   search (snd last_two) = true /\ pass_n (snd last_two) = 2) /\
  (fst first_two = Val tt /\
   List.filter is_Chain (trace (snd first_two)) = [Chain 0 1 true; Chain 2 2 true] /\
   search (snd first_two) = false /\ pass_n (snd first_two) = 2).
Proof.
  cbv zeta. repeat split; vm_compute; reflexivity.
Qed.

(** When the chainer is done at its first call the loop ends with pass 0. *)
Example chainer_done_ends_the_loop :
  let r := @run decided 4 (sample_globals 0 0 0 false) (sample_index true 2 [3; 2; 1]) tt
             (sample_read [] 0 0 false true) sample_stats tt in
  fst r = Val tt /\ List.filter is_Chain (trace (snd r)) = [Chain 0 3 false].
Proof. cbv zeta. split; vm_compute; reflexivity. Qed.

(** With three distinct strides and a chainer that never accepts, all three
    passes are made, and the loop ends with the pass at [pass_n = 2]. *)
Example three_passes_are_made :
  let r := @run undecided 4 (sample_globals 0 0 0 false) (sample_index true 2 [3; 2; 1]) tt
             (sample_read [] 0 0 false true) sample_stats tt in
  fst r = Val tt /\
  List.filter is_Chain (trace (snd r)) = [Chain 0 3 true; Chain 1 2 true; Chain 2 1 true].
Proof. cbv zeta. split; vm_compute; reflexivity. Qed.

(** ** C5 *)


(** ** C6 *)



(** ** C7 *)

Lemma format_forward_fasta_witness :
  format_forward sample_nt_table [65; 10; 67; 13; 71; 0] gt = Val [0; 4; 1; 4; 2; 10].
Proof.
  apply (proj2 (format_forward_fasta_keeps_every_byte sample_nt_table)
           [65; 10; 67; 13; 71] 0 [] [0; 4; 1; 4; 2]).
  - left. reflexivity.
  - repeat constructor; discriminate.
  - repeat constructor.
Defined.

(** ** C8 *)

(** With [num_alignments_gv = -1] a reverse-strand read that never hit keeps
    [hit_denovo]: the flag is flipped under the guard of line 373 only. *)
Lemma denovo_flag_kept_without_alignment_limit :
  let g := sample_globals (-1) 0 0 true in
  let index := wide_index false [3; 2; 1] in
  let r := @run undecided 4 g index tt (wide_read false true) sample_stats tt in
  forward (opts index) = false /\
  fst r = Val tt /\ hit (read (snd r)) = false /\ hit_denovo (read (snd r)) = true.
Proof.
  cbv zeta. repeat split; vm_compute; reflexivity.
Qed.

(** The increment of line 381 is made at the end of every run of the driver:
    a read whose [hit_denovo] stays true is counted at the end of the forward
    run and again at the end of the reverse run, whereas the comment of lines
    453-454 takes the counter for the number of reads with [hit_denovo] set. *)
Example read_is_counted_in_each_run :
  let g := sample_globals 0 0 0 true in
  let r1 := @run undecided 4 g (wide_index true [3; 2; 1]) tt (wide_read true true)
              sample_stats tt in
  let r2 := @run undecided 4 g (wide_index false [3; 2; 1]) tt
              (read (snd r1)) (readstats (snd r1)) tt in
  fst r1 = Val tt /\ fst r2 = Val tt /\
  hit_denovo (read (snd r2)) = true /\
  total_reads_denovo_clustering sample_stats = 0 /\
  total_reads_denovo_clustering (readstats (snd r2)) = 2.
Proof.
  cbv zeta. repeat split; vm_compute; reflexivity.
Qed.

Lemma denovo_flag_and_count_after_search_witness :
  let r := @run undecided 4 (sample_globals 0 0 0 true)
             (wide_index false [3; 2; 1]) tt (wide_read false true) sample_stats tt in
  fst r = Val tt /\
  hit_denovo (read (snd r)) = false /\
  total_reads_denovo_clustering (readstats (snd r)) = 0.
Proof.
  cbv zeta.
  destruct (@denovo_flag_and_count_after_search undecided 4 (sample_globals 0 0 0 true)
              (wide_index false [3; 2; 1]) tt (wide_read false true)
              sample_stats tt 8
              (snd (@search_read undecided 4 (wide_index false [3; 2; 1]) tt
                      (@enter undecided
                         (@stamped undecided (wide_index false [3; 2; 1])
                            (wide_read false true))
                         (update_read_len 10 sample_stats) tt)))
              eq_refl eq_refl)
    as (Hv & Hd & Hc).
  - vm_compute. discriminate.
  - vm_compute. reflexivity.
  - split; [exact Hv |]. split.
    + rewrite Hd. vm_compute. reflexivity.
    + rewrite Hc; [vm_compute; reflexivity |]. rewrite Hd. vm_compute. reflexivity.
Defined.

(** ** C9 *)

(** C9.  With the three strides 1, 1, 1 (and with 1, 2, 2), which are
    nondecreasing, the guard of the skip-ahead loop is evaluated with
    [pass_n = 2] and reads [skiplengths[..][3]], beyond the third stride. *)
Theorem skip_ahead_reads_a_fourth_stride :
  let g := sample_globals 0 0 0 false in
  let rd := sample_read [] 0 0 false true in
  let equal := @run undecided 4 g (sample_index true 2 [1; 1; 1]) tt rd sample_stats tt in
  let last_two := @run undecided 4 g (sample_index true 2 [1; 2; 2]) tt rd sample_stats tt in
  zlookup [1; 1; 1] 3 = None /\
  In (Stride_read 3) (trace (snd equal)) /\
  fst equal = Halt (UB (OutOfRange V_strides 3)) /\
  pass_n (snd equal) = 2 /\
  zlookup [1; 2; 2] 3 = None /\
  In (Stride_read 3) (trace (snd last_two)) /\
  fst last_two = Halt (UB (OutOfRange V_strides 3)) /\
  pass_n (snd last_two) = 2.
Proof.
  cbv zeta.
  split; [reflexivity |]. split; [vm_compute; auto 20 |].
  split; [vm_compute; reflexivity |]. split; [vm_compute; reflexivity |].
  split; [reflexivity |]. split; [vm_compute; auto 20 |].
  split; vm_compute; reflexivity.
Qed.

(** ** C10 *)

Lemma read_length_counted_before_rejection_witness :
  let r := @run undecided 4 (sample_globals 0 0 0 false)
             (sample_index true 6 [3; 2; 1]) tt
             (sample_read [sample_alignment] 3 0 true true) sample_stats tt in
  min_read_len (readstats (snd r)) = 4 /\
  max_read_len (readstats (snd r)) = 4 /\
  isValid (read (snd r)) = false /\
  alignments (read (snd r)) = [sample_alignment] /\
  id_win_hits (read (snd r)) = [] /\
  hit (read (snd r)) = true /\
  num_alignments (read (snd r)) = 3.
Proof.
  cbv zeta.
  destruct (@read_length_counted_before_rejection undecided 4 (sample_globals 0 0 0 false)
              (sample_index true 6 [3; 2; 1]) tt
              (sample_read [sample_alignment] 3 0 true true) sample_stats tt 6
              eq_refl eq_refl)
    as ([Hmin Hmax] & Hshort & _).
  destruct Hshort as (Hrs & Hrd & Hal & Hhits & Hhit & Hna).
  - vm_compute. reflexivity.
  - rewrite Hrs, Hrd. repeat split.
Defined.

(** ** Reads and their reverse complements *)

(** The sample [nt_table] agrees with [rc_table]. *)
Lemma sample_tables_agree : tables_agree sample_nt_table.
Proof.
  intros c x Hc Hx.
  assert (Hrange : 0 <= c < 128).
  { unfold zlookup in Hc. destruct (Z.ltb_spec c 0) as [Hneg | Hpos]; [discriminate |].
    apply lookup_lt_Some in Hc. unfold sample_nt_table in Hc.
    rewrite length_map, length_seqZ in Hc. lia. }
  assert (Hall : forallb (fun c => match zlookup sample_nt_table c with
                                   | Some x =>
                                       implb (x <? 4)
                                         (match zlookup rc_table c with
                                          | Some y => y =? complement_of x
                                          | None => false
                                          end)
                                   | None => true
                                   end) (seqZ 0 128) = true)
    by (vm_compute; reflexivity).
  rewrite forallb_forall in Hall.
  assert (Hin : In c (seqZ 0 128)).
  { apply list_elem_of_In. apply elem_of_seqZ. lia. }
  specialize (Hall c Hin). rewrite Hc in Hall.
  destruct (Z.ltb_spec x 4) as [_ | Hge]; [| lia]. cbn [implb] in Hall.
  destruct (zlookup rc_table c) as [y |]; [| discriminate].
  apply Z.eqb_eq in Hall. rewrite Hall. reflexivity.
Qed.

Lemma format_forward_fastq_copies_the_line_witness :
  format_forward sample_nt_table [65; 0; 62; 84; 10; 43] 64 = Val [0; 4; 4; 3; 10].
Proof.
  apply (proj1 (format_forward_fastq_copies_the_line sample_nt_table 64
                  [65; 0; 62; 84] 10 [43] [0; 4; 4; 3]
                  ltac:(discriminate) eq_refl
                  ltac:(repeat constructor) ltac:(repeat constructor))).
Defined.

Lemma format_forward_returns_only_at_a_terminator_witness :
  (exists (pre : list Z) (t : Z) (rest codes : list Z),
      [65; 67; 13; 71] = pre ++ t :: rest /\ terminator 64 t = true /\
      Forall (fun c => terminator 64 c = false) pre /\
      Forall2 (fun c x => zlookup sample_nt_table c = Some x) pre codes /\
      [0; 1; 10] = codes ++ [nl] /\
      List.length [0; 1; 10] = S (List.length pre)) /\
  format_forward sample_nt_table [65; 67; 71] 64 = Halt (UB (OutOfRange V_read_seq 0)) /\
  format_forward sample_nt_table [65; 200; 67] gt = Halt (UB (OutOfRange V_nt_table 200)).
Proof.
  split; [| split].
  - apply (proj1 (format_forward_returns_only_at_a_terminator sample_nt_table
                    [65; 67; 13; 71] 64) [0; 1; 10]).
    vm_compute. reflexivity.
  - apply (proj2 (format_forward_returns_only_at_a_terminator sample_nt_table
                    [65; 67; 71] 64)).
    repeat constructor.
  - apply (proj2 (format_forward_returns_only_at_a_terminator sample_nt_table
                    [65; 200; 67] gt)).
    repeat constructor.
Defined.

Lemma format_rev_fasta_reverses_the_read_witness :
  format_rev [62; 10; 65; 67; 10; 71; 84; 10] 2 6 gt = inr [0; 1; 2; 3; 10].
Proof.
  apply (proj1 (format_rev_fasta_reverses_the_read [62; 10] 65 [67; 10; 71; 84] [10]
                  ltac:(repeat constructor; lia))).
Defined.

Lemma format_rev_fastq_reverses_the_line_witness :
  format_rev [64; 114; 10; 65; 67; 71; 10; 43] 0 5 64 = inr [1; 2; 3; 10].
Proof.
  apply (format_rev_fastq_reverses_the_line 64 0 [64; 114] 10 [65; 67; 71] [10; 43]
           ltac:(discriminate) eq_refl
           ltac:(repeat constructor; (reflexivity || lia))).
Defined.

Lemma format_rev_walks_off_the_buffer_witness :
  format_rev [65; 67; 71] 2 1 gt = inl (Read_index (-1)) /\
  format_rev [65; 67; 71] 0 2 64 = inl (Read_index (-1)) /\
  format_rev [200; 65; 67] 2 1 gt = inl (Rc_table_index 200) /\
  format_rev [65; 200; 71] 0 1 gt = inl (Rc_table_index 200).
Proof.
  split; [| split; [| split]].
  - apply (proj1 (format_rev_walks_off_the_buffer [65; 67; 71] 2 1 gt)).
    + cbn. lia.
    + cbn. lia.
  - apply (proj1 (format_rev_walks_off_the_buffer [65; 67; 71] 0 2 64)).
    + cbn. repeat constructor.
    + cbn. lia.
  - apply (proj1 (format_rev_walks_off_the_buffer [200; 65; 67] 2 1 gt)).
    + cbn. lia.
    + cbn. lia.
  - apply (proj2 (format_rev_walks_off_the_buffer [65; 200; 71] 0 1 gt) 200).
    + reflexivity.
    + lia.
Defined.

Lemma format_rev_complements_format_forward_witness :
  format_forward sample_nt_table [65; 65; 67; 71; 0] gt = Val [0; 0; 1; 2; 10] /\
  format_rev [62; 10; 65; 65; 67; 71; 0] 2 5 gt = inr [1; 2; 3; 3; 10].
Proof.
  apply (format_rev_complements_format_forward sample_nt_table sample_tables_agree
           gt [62; 10] [65; 65; 67; 71] 0 [] [0; 0; 1; 2]).
  - discriminate.
  - repeat constructor; lia.
  - reflexivity.
  - intros E. contradiction E. reflexivity.
Defined.

(** ** Runs of the driver *)

Lemma driver_assigns_six_fields_witness :
  alignments (read (snd (@run undecided 4 (sample_globals 0 0 0 true)
                           (sample_index false 2 [3; 2; 1]) tt
                           (sample_read [sample_alignment] 0 0 false true)
                           sample_stats tt)))
  = [sample_alignment].
Proof.
  apply (@driver_assigns_six_fields undecided (sample_index false 2 [3; 2; 1]) tt
           _ alignments 4 (sample_globals 0 0 0 true)
           (sample_read [sample_alignment] 0 0 false true) sample_stats tt).
  - repeat split.
  - intros rd i r rs out b m rtc. reflexivity.
Defined.

Lemma searched_windows_are_bounded_witness :
  Z.of_nat (List.length
              (searched (trace (snd (@run undecided 4 (sample_globals 0 0 0 false)
                                       (sample_index true 2 [3; 2; 1]) tt
                                       (sample_read [] 0 0 false true)
                                       sample_stats tt)))))
  <= 4 - 2 + 1.
Proof.
  apply (@searched_windows_are_bounded undecided (sample_index true 2 [3; 2; 1]) tt 4
           (sample_globals 0 0 0 false) (sample_read [] 0 0 false true) sample_stats tt 2).
  - reflexivity.
  - vm_compute. discriminate.
  - intros rd i r rs out b m rtc. reflexivity.
Defined.

Lemma numwin_counts_the_windows_on_the_read_witness :
  numwin_of 100 18 18 = (100 - 18) / 18 + 1 /\
  (forall k : Z, 0 <= k -> (k * 18 + 18 <= 100 <-> k < numwin_of 100 18 18)) /\
  1 <= numwin_of 100 18 18 <= 100 - 18 + 1.
Proof.
  apply (numwin_counts_the_windows_on_the_read 18 100); lia.
Defined.

Lemma chainer_is_called_after_the_windows_of_its_pass_witness :
  In (Search_window (1 * 2))
    [Stride_read 0; Search_window 0; Traverse_F 0 0; Push_hit {| id := 7; win := 0 |};
     Chain 0 3 true; Stride_read 0; Stride_read 1; Stride_read 1; Search_window 2].
Proof.
  apply (@chainer_is_called_after_the_windows_of_its_pass undecided
           (sample_index true 2 [3; 2; 1]) tt 2 4 eq_refl ltac:(lia) ltac:(lia)
           ltac:(intros rd i r rs out b m rtc; reflexivity)
           4 (sample_globals 0 0 0 false) (sample_read [] 0 0 false true) sample_stats tt
           eq_refl
           [Stride_read 0; Search_window 0; Traverse_F 0 0;
            Push_hit {| id := 7; win := 0 |};
            Chain 0 3 true; Stride_read 0; Stride_read 1; Stride_read 1; Search_window 2]
           1 2 true
           [Stride_read 1; Stride_read 2; Stride_read 2; Search_window 1;
            Traverse_R 2 1; Push_hit {| id := 9; win := 1 |}; Chain 2 1 true]).
  - vm_compute. reflexivity.
  - lia.
  - lia.
Defined.

Lemma zero_stride_divides_by_zero_witness :
  fst (@run undecided 4 (sample_globals 0 0 0 false) (sample_index true 2 [0; 2; 1]) tt
         (sample_read [] 0 0 false true) sample_stats tt)
  = Halt (UB DivisionByZero) /\
  trace (snd (@run undecided 4 (sample_globals 0 0 0 false)
                (sample_index true 2 [0; 2; 1]) tt
                (sample_read [] 0 0 false true) sample_stats tt))
  = [Stride_read 0].
Proof.
  destruct (@zero_stride_divides_by_zero undecided 3 (sample_globals 0 0 0 false)
              (sample_index true 2 [0; 2; 1]) tt (sample_read [] 0 0 false true)
              sample_stats tt 2 1 0 eq_refl eq_refl)
    as (Hhalt & Htrace & _).
  - vm_compute. discriminate.
  - reflexivity.
  - reflexivity.
  - reflexivity.
  - split; assumption.
Defined.

Lemma hits_are_appended_in_order_witness :
  id_win_hits (read (snd (@run undecided 4 (sample_globals 0 0 0 false)
                            (sample_index true 2 [3; 2; 1]) tt
                            (sample_read [] 0 0 false true) sample_stats tt)))
  = id_win_hits (sample_read [] 0 0 false true)
    ++ pushed (trace (snd (@run undecided 4 (sample_globals 0 0 0 false)
                             (sample_index true 2 [3; 2; 1]) tt
                             (sample_read [] 0 0 false true) sample_stats tt))).
Proof.
  apply (@hits_are_appended_in_order undecided (sample_index true 2 [3; 2; 1]) tt 4
           (sample_globals 0 0 0 false) (sample_read [] 0 0 false true) sample_stats tt).
  intros rd i r rs out b m rtc. reflexivity.
Defined.

Lemma read_is_stamped_with_the_index_part_witness :
  lastIndex (read (snd (@run undecided 4 (sample_globals 0 0 0 false)
                          (sample_index true 2 [3; 2; 1]) tt
                          (sample_read [] 0 0 false true) sample_stats tt))) = 0 /\
  lastPart (read (snd (@run undecided 4 (sample_globals 0 0 0 false)
                         (sample_index true 2 [3; 2; 1]) tt
                         (sample_read [] 0 0 false true) sample_stats tt))) = 1.
Proof.
  apply (@read_is_stamped_with_the_index_part undecided (sample_index true 2 [3; 2; 1]) tt 4
           (sample_globals 0 0 0 false) (sample_read [] 0 0 false true) sample_stats tt).
  - intros rd i r rs out b m rtc. reflexivity.
  - intros rd i r rs out b m rtc. reflexivity.
Defined.

(** ** Windows with a character that is no nucleotide *)

Lemma invalid_character_aliases_a_seed_witness :
  build_key [2; 4; 0; 1] 0 3 0 = build_key [3; 0; 0; 1] 0 3 0.
Proof.
  apply (proj1 (invalid_character_aliases_a_seed [2; 4; 0; 1] [3; 0; 0; 1] 0 3 [] [0] 2
                  ltac:(lia) ltac:(lia) ltac:(cbn; lia) ltac:(cbn; lia) eq_refl eq_refl)).
Defined.

Lemma invalid_first_character_overflows_the_table_witness :
  (exists key : Z,
      build_key [4; 1; 2; 3] 0 1 0 = Some key /\
      key = 4 ^ 1 + msb_first [] /\
      4 ^ 1 <= key /\
      @subsearch_1a undecided (sample_index true 2 [3; 2; 1]) 4294967292 4294967288 0 1 4
        (@enter undecided (sample_read_with [4; 1; 2; 3]) sample_stats tt)
      = (Halt (UB (OutOfRange V_lookup_tbl key)),
         @enter undecided (sample_read_with [4; 1; 2; 3]) sample_stats tt)) /\
  (exists key : Z,
      build_key [4; 1; 2; 3] 0 3 0 = Some key /\
      key = 4 ^ 3 + msb_first [1; 2] /\
      4 ^ 3 <= key /\
      @subsearch_1a undecided (sample_index true 2 [3; 2; 1]) 4 0 0 3 4
        (@enter undecided (sample_read_with [4; 1; 2; 3]) sample_stats tt)
      = (Halt (UB (OutOfRange V_vbitwindowsf 4)),
         @enter undecided (sample_read_with [4; 1; 2; 3]) sample_stats tt)).
Proof.
  split.
  - apply (@invalid_first_character_overflows_the_table undecided
             (sample_index true 2 [3; 2; 1]) 4294967292 4294967288 0 1 4 []
             (@enter undecided (sample_read_with [4; 1; 2; 3]) sample_stats tt)).
    + lia.
    + lia.
    + cbn. lia.
    + reflexivity.
    + constructor.
    + cbn. lia.
  - apply (@invalid_first_character_overflows_the_table undecided
             (sample_index true 2 [3; 2; 1]) 4 0 0 3 4 [1; 2]
             (@enter undecided (sample_read_with [4; 1; 2; 3]) sample_stats tt)).
    + lia.
    + lia.
    + cbn. lia.
    + reflexivity.
    + repeat constructor; lia.
    + cbn. lia.
Defined.

(** ** The thread pool *)

Lemma paralleltraversal_submits_every_part_witness :
  @paralleltraversal sample_store 4 sample_opts 8 [2; 1]
  = inr (submission sample_opts 8 [2; 1]) /\
  Z.of_nat (List.length (List.filter is_job (submission sample_opts 8 [2; 1])))
  = (2 * num_fread_threads sample_opts + num_proc_threads sample_opts)
    * Z.of_nat (List.length (all_parts 0 [2; 1])).
Proof.
  apply (@paralleltraversal_submits_every_part sample_store sample_opts
           (fun ix i p => eq_refl) 4 8 [2; 1] [2; 1]).
  - cbn. lia.
  - reflexivity.
  - intros j c Hj. exact Hj.
  - repeat constructor; cbn; lia.
  - cbn. lia.
  - vm_compute. reflexivity.
  - cbn. lia.
  - cbn. lia.
  - cbn. lia.
Defined.

(** ** Half-windows of two and three characters *)

Lemma short_half_window_overruns_the_bit_vector_witness :
  (fst (@run undecided 1 (sample_globals 0 0 0 false) (narrow_index 2) tt
          (wide_read false true) sample_stats tt)
   = Halt (UB (OutOfRange V_vbitwindowsf 0)) /\
   trace (snd (@run undecided 1 (sample_globals 0 0 0 false) (narrow_index 2) tt
                 (wide_read false true) sample_stats tt))
   = [Stride_read 0; Search_window 0] /\
   read (snd (@run undecided 1 (sample_globals 0 0 0 false) (narrow_index 2) tt
                (wide_read false true) sample_stats tt))
   = @stamped undecided (narrow_index 2) (wide_read false true)) /\
  (fst (@run undecided 1 (sample_globals 0 0 0 false) (narrow_index 3) tt
          (wide_read false true) sample_stats tt)
   = Halt (UB (OutOfRange V_vbitwindowsf 4)) /\
   trace (snd (@run undecided 1 (sample_globals 0 0 0 false) (narrow_index 3) tt
                 (wide_read false true) sample_stats tt))
   = [Stride_read 0; Search_window 0] /\
   read (snd (@run undecided 1 (sample_globals 0 0 0 false) (narrow_index 3) tt
                (wide_read false true) sample_stats tt))
   = @stamped undecided (narrow_index 3) (wide_read false true)).
Proof.
  split.
  - apply (@short_half_window_overruns_the_bit_vector undecided 0
             (sample_globals 0 0 0 false) (narrow_index 2) tt (wide_read false true)
             sample_stats tt 4 2 4 3).
    + reflexivity.
    + reflexivity.
    + vm_compute. split; discriminate.
    + vm_compute. split; reflexivity.
    + reflexivity.
    + reflexivity.
    + reflexivity.
    + vm_compute. discriminate.
    + left. reflexivity.
  - apply (@short_half_window_overruns_the_bit_vector undecided 0
             (sample_globals 0 0 0 false) (narrow_index 3) tt (wide_read false true)
             sample_stats tt 6 3 4 3).
    + reflexivity.
    + reflexivity.
    + vm_compute. split; discriminate.
    + vm_compute. split; reflexivity.
    + reflexivity.
    + reflexivity.
    + reflexivity.
    + vm_compute. discriminate.
    + right. reflexivity.
Defined.
